(** * Buffered channels: a shallow embedding of [channel.c] and [linked_list.c]

    The C sources manipulate three kinds of objects through pointers: list
    nodes obtained from [malloc], POSIX semaphores living in the stack frame
    of [channel_select], and channels.  Each kind is kept in a heap of its
    own; a pointer is an address into the heap of its kind and [NULL] is
    address [0].  Every C function becomes a computation in a small monad
    that threads the heaps and distinguishes four ways a call can end. *)

From Stdlib Require Import ZArith Lia.
From stdpp Require Import base option list.

Local Open Scope Z_scope.
Local Open Scope nat_scope.

(** ** Pointers and heaps *)

Definition ptr := nat.
Definition NULL : ptr := 0.

Section Heap.
Context {A : Type}.

(** Cell [i] of the list is the object at address [S i]; [None] marks an
    object that has been released.  Addresses are never handed out twice. *)
Definition load (h : list (option A)) (p : ptr) : option A :=
  match p with
  | O => None
  | S i => match h !! i with
           | Some (Some a) => Some a
           | _ => None
           end
  end.

Definition store (h : list (option A)) (p : ptr) (a : A) : list (option A) :=
  match p with
  | O => h
  | S i => <[i := Some a]> h
  end.

Definition alloc (h : list (option A)) (a : A) : ptr * list (option A) :=
  (S (length h), h ++ [Some a]).

Definition release (h : list (option A)) (p : ptr) : list (option A) :=
  match p with
  | O => h
  | S i => <[i := None]> h
  end.
End Heap.

(** ** Data model *)

(** [list_node_t] and [list_t] of [linked_list.c]. *)
Record list_node_t := mk_node { data : ptr; next : ptr; prev : ptr }.

(** [count] is a [size_t]; arithmetic on it wraps modulo [2^64]. *)
Record list_t := mk_list { head : ptr; count : Z }.

Definition size_t_modulus : Z := 2 ^ 64.
Definition wrap_size_t (z : Z) : Z := (z mod size_t_modulus)%Z.

Inductive buffer_status := BUFFER_SUCCESS | BUFFER_ERROR.

Inductive channel_status :=
  | SUCCESS | CLOSED_ERROR | GEN_ERROR | DESTROY_ERROR
  | CHANNEL_FULL | CHANNEL_EMPTY.

Inductive direction := SEND | RECV.

(** Modelled from the spec: the bounded buffer ([buffer_create],
    [buffer_add], [buffer_remove]) is not part of the sources at hand.  The
    specification describes it as a FIFO queue of opaque element handles of
    fixed capacity whose add reports "full" and whose remove reports "empty"
    instead of blocking; a capacity of 0 is always full and always empty. *)
Record buffer_t := mk_buffer { capacity : nat; items : list Z }.

(** Modelled from the spec: [buffer_create(capacity)]. *)
Definition buffer_create (size : nat) : buffer_t :=
  {| capacity := size; items := [] |}.

(** Modelled from the spec: [buffer_add(value)] answers OK or FULL. *)
Definition buffer_add (b : buffer_t) (v : Z) : buffer_status * buffer_t :=
  if length (items b) <? capacity b
  then (BUFFER_SUCCESS, {| capacity := capacity b; items := items b ++ [v] |})
  else (BUFFER_ERROR, b).

(** Modelled from the spec: [buffer_remove(out)] answers OK or EMPTY; the
    second component is the value written through [out], if any. *)
Definition buffer_remove (b : buffer_t) : buffer_status * option Z * buffer_t :=
  match items b with
  | [] => (BUFFER_ERROR, None, b)
  | v :: rest => (BUFFER_SUCCESS, Some v, {| capacity := capacity b; items := rest |})
  end.

(** [channel_t].  The mutex and the two condition variables carry no data
    in a sequential reading of the code and are left out; [select] is the
    [list_t*] field, [None] standing for a null pointer. *)
Record channel_t := mk_channel {
  buffer : buffer_t;
  is_closed : bool;
  select : option list_t
}.

(** [select_t]: one intent handed to [channel_select].  For [SEND] the field
    [sdata] is the value to transmit; for [RECV] the C field points at the
    slot that receives the value, which the model returns instead. *)
Record select_t := mk_select { channel : ptr; dir : direction; sdata : Z }.

Record world := mk_world {
  nodes : list (option list_node_t);
  sems : list (option nat);
  chans : list (option channel_t)
}.

Definition empty_world : world := {| nodes := []; sems := []; chans := [] |}.

(** ** The monad *)

(** A call returns a value, suspends in [pthread_cond_wait] or [sem_wait]
    (only another thread can wake it), goes wrong by using a null or
    released pointer, or is still running when the fuel is spent; the world
    of [NoFuel] is the one reached at that moment. *)
Inductive outcome (A : Type) :=
  | Ret (a : A) (w : world)
  | Blocked (w : world)
  | Fault
  | NoFuel (w : world).
Arguments Ret {A} a w.
Arguments Blocked {A} w.
Arguments Fault {A}.
Arguments NoFuel {A} w.

Definition M (A : Type) := world -> outcome A.

Definition ret {A} (a : A) : M A := fun w => Ret a w.

Definition bind {A B} (m : M A) (k : A -> M B) : M B :=
  fun w => match m w with
           | Ret a w' => k a w'
           | Blocked w' => Blocked w'
           | Fault => Fault
           | NoFuel w' => NoFuel w'
           end.

Notation "'let*' x ':=' m 'in' k" := (bind m (fun x => k))
  (at level 10, x name, m at level 100, k at level 200).
Notation "m '>>' k" := (bind m (fun _ => k))
  (at level 90, right associativity).

Definition fault {A} : M A := fun _ => Fault.
Definition out_of_fuel {A} : M A := fun w => NoFuel w.
Definition suspend {A} : M A := fun w => Blocked w.

(** *** List nodes *)

Definition node_get (p : ptr) : M list_node_t :=
  fun w => match load (nodes w) p with
           | Some n => Ret n w
           | None => Fault
           end.

Definition node_put (p : ptr) (n : list_node_t) : M unit :=
  fun w => match load (nodes w) p with
           | Some _ => Ret tt {| nodes := store (nodes w) p n;
                                 sems := sems w; chans := chans w |}
           | None => Fault
           end.

(** [malloc(sizeof(list_node_t))]: the three fields are indeterminate until
    written; [list_insert] writes each of them before any read. *)
Definition malloc_node : M ptr :=
  fun w => let '(p, h) := alloc (nodes w) (mk_node NULL NULL NULL) in
           Ret p {| nodes := h; sems := sems w; chans := chans w |}.

Definition free_node (p : ptr) : M unit :=
  fun w => match load (nodes w) p with
           | Some _ => Ret tt {| nodes := release (nodes w) p;
                                 sems := sems w; chans := chans w |}
           | None => Fault
           end.

Definition get_data (p : ptr) : M ptr := let* n := node_get p in ret (data n).
Definition get_next (p : ptr) : M ptr := let* n := node_get p in ret (next n).
Definition get_prev (p : ptr) : M ptr := let* n := node_get p in ret (prev n).

Definition set_data (p v : ptr) : M unit :=
  let* n := node_get p in node_put p (mk_node v (next n) (prev n)).
Definition set_next (p v : ptr) : M unit :=
  let* n := node_get p in node_put p (mk_node (data n) v (prev n)).
Definition set_prev (p v : ptr) : M unit :=
  let* n := node_get p in node_put p (mk_node (data n) (next n) v).

(** ** [linked_list.c] *)

Definition list_create : list_t := {| head := NULL; count := 0 |}.

Definition set_head (l : list_t) (p : ptr) : list_t :=
  {| head := p; count := count l |}.
Definition set_count (l : list_t) (c : Z) : list_t :=
  {| head := head l; count := wrap_size_t c |}.

(** [list_find]: the [while (curr != NULL)] loop, one iteration per unit of
    fuel. *)
Fixpoint list_find_from (fuel : nat) (curr d : ptr) : M ptr :=
  match fuel with
  | O => out_of_fuel
  | S fuel' =>
      if Nat.eqb curr NULL then ret NULL
      else
        let* cd := get_data curr in
        if Nat.eqb cd d then ret curr
        else let* nx := get_next curr in list_find_from fuel' nx d
  end.

Definition list_find (fuel : nat) (l : list_t) (d : ptr) : M ptr :=
  list_find_from fuel (head l) d.

(** [list_insert].  The list structure is passed and returned by value; the
    statements follow the source one by one.  There is no [else] and no
    [return] after the empty-list branch. *)
Definition list_insert (l : list_t) (d : ptr) : M list_t :=
  let* node := malloc_node in
  set_data node d >>
  let* l := (if Nat.eqb (head l) NULL
             then set_next node NULL >> set_prev node NULL >>
                  ret (set_head l node)
             else ret l) in
  let curr := head l in
  let l := set_head l node in
  set_next node curr >>
  set_prev node NULL >>
  set_prev curr node >>
  ret (set_count l (count l + 1)).

(** [list_remove]. *)
Definition list_remove (l : list_t) (node : ptr) : M list_t :=
  if Nat.eqb node NULL then ret l
  else
    let* pv := get_prev node in
    let* l := (if Nat.eqb pv NULL
               then let* nx := get_next node in ret (set_head l nx)
               else let* nx := get_next node in
                    let* pv := get_prev node in
                    set_next pv nx >> ret l) in
    let* nx := get_next node in
    (if Nat.eqb nx NULL then ret tt
     else let* pv := get_prev node in
          let* nx := get_next node in
          set_prev nx pv) >>
    set_next node NULL >>
    set_prev node NULL >>
    set_data node NULL >>
    let l := set_count l (count l - 1) in
    free_node node >>
    ret l.

(** [list_foreach]: the [for] loop from [curr], one iteration per unit of
    fuel. *)
Fixpoint list_foreach_from (fuel : nat) (curr : ptr) (func : ptr -> M unit)
  : M unit :=
  match fuel with
  | O => out_of_fuel
  | S fuel' =>
      if Nat.eqb curr NULL then ret tt
      else
        let* d := get_data curr in
        func d >>
        let* nx := get_next curr in
        list_foreach_from fuel' nx func
  end.

Definition list_foreach (fuel : nat) (l : list_t) (func : ptr -> M unit)
  : M unit :=
  list_foreach_from fuel (head l) func.

(** [list_destroy]: [while (list->count != 0) list_remove(list, list->head)].
    The closing [free(list)] has no counterpart: the list structure is part
    of the channel record and goes with it. *)
Fixpoint list_destroy (fuel : nat) (l : list_t) : M unit :=
  match fuel with
  | O => out_of_fuel
  | S fuel' =>
      if Z.eqb (count l) 0 then ret tt
      else let* l := list_remove l (head l) in list_destroy fuel' l
  end.

(** ** Semaphores *)

(** [sem_t select; sem_init(&select, 0, 0)]: the semaphore occupies a fresh
    slot of the caller's frame and starts at 0. *)
Definition sem_init : M ptr :=
  fun w => let '(p, h) := alloc (sems w) 0 in
           Ret p {| nodes := nodes w; sems := h; chans := chans w |}.

(** [sem_destroy]; [channel_select] returns right after it, which ends the
    lifetime of the slot as well. *)
Definition sem_destroy (s : ptr) : M unit :=
  fun w => match load (sems w) s with
           | Some _ => Ret tt {| nodes := nodes w;
                                 sems := release (sems w) s; chans := chans w |}
           | None => Fault
           end.

(** [sem_post] increments.  The count is not bounded here ([SEM_VALUE_MAX]
    is not modelled). *)
Definition sem_post (s : ptr) : M unit :=
  fun w => match load (sems w) s with
           | Some n => Ret tt {| nodes := nodes w;
                                 sems := store (sems w) s (S n); chans := chans w |}
           | None => Fault
           end.

(** [sem_wait] decrements a positive count and suspends on 0. *)
Definition sem_wait (s : ptr) : M unit :=
  fun w => match load (sems w) s with
           | Some (S n) => Ret tt {| nodes := nodes w;
                                     sems := store (sems w) s n; chans := chans w |}
           | Some O => Blocked w
           | None => Fault
           end.

(** ** [channel.c] *)

Definition chan_get (c : ptr) : M channel_t :=
  fun w => match load (chans w) c with
           | Some ch => Ret ch w
           | None => Fault
           end.

Definition chan_put (c : ptr) (ch : channel_t) : M unit :=
  fun w => match load (chans w) c with
           | Some _ => Ret tt {| nodes := nodes w; sems := sems w;
                                 chans := store (chans w) c ch |}
           | None => Fault
           end.

Definition set_buffer (c : ptr) (b : buffer_t) : M unit :=
  let* ch := chan_get c in
  chan_put c {| buffer := b; is_closed := is_closed ch; select := select ch |}.
Definition set_is_closed (c : ptr) (v : bool) : M unit :=
  let* ch := chan_get c in
  chan_put c {| buffer := buffer ch; is_closed := v; select := select ch |}.
Definition set_select (c : ptr) (l : option list_t) : M unit :=
  let* ch := chan_get c in
  chan_put c {| buffer := buffer ch; is_closed := is_closed ch; select := l |}.

(** [channel_create]. *)
Definition channel_create (size : nat) : M ptr :=
  fun w => let '(c, h) := alloc (chans w)
                            {| buffer := buffer_create size;
                               is_closed := false;
                               select := Some list_create |} in
           Ret c {| nodes := nodes w; sems := sems w; chans := h |}.

(** [if (channel->select) list_foreach(channel->select, sem_post);] *)
Definition post_selectors (fuel : nat) (c : ptr) : M unit :=
  let* ch := chan_get c in
  match select ch with
  | Some l => list_foreach fuel l sem_post
  | None => ret tt
  end.

(** The [while (buffer_add(...) == BUFFER_ERROR)] loop of [channel_send]
    from its test onwards, with the code that follows the loop.  A failed
    test enters [pthread_cond_wait], where the call suspends. *)
Definition channel_send_loop (fuel : nat) (c : ptr) (d : Z)
  : M channel_status :=
  let* ch := chan_get c in
  match buffer_add (buffer ch) d with
  | (BUFFER_ERROR, _) => suspend
  | (BUFFER_SUCCESS, b) =>
      set_buffer c b >>
      post_selectors fuel c >>
      ret SUCCESS
  end.

(** [channel_send]. *)
Definition channel_send (fuel : nat) (c : ptr) (d : Z) : M channel_status :=
  let* ch := chan_get c in
  if is_closed ch then ret CLOSED_ERROR
  else if negb (is_closed ch) then channel_send_loop fuel c d
  else ret GEN_ERROR.

(** What a suspended [channel_send] does when [pthread_cond_wait] returns:
    the closed test inside the loop, then the loop test again. *)
Definition channel_send_wakeup (fuel : nat) (c : ptr) (d : Z)
  : M channel_status :=
  let* ch := chan_get c in
  if is_closed ch then ret CLOSED_ERROR
  else channel_send_loop fuel c d.

(** The [while (buffer_remove(...) == BUFFER_ERROR)] loop of
    [channel_receive] with the code after it.  The second component of the
    result is the value stored through [data], if any. *)
Definition channel_receive_loop (fuel : nat) (c : ptr)
  : M (channel_status * option Z) :=
  let* ch := chan_get c in
  match buffer_remove (buffer ch) with
  | (BUFFER_ERROR, _, _) => suspend
  | (BUFFER_SUCCESS, out, b) =>
      set_buffer c b >>
      post_selectors fuel c >>
      ret (SUCCESS, out)
  end.

(** [channel_receive]. *)
Definition channel_receive (fuel : nat) (c : ptr)
  : M (channel_status * option Z) :=
  let* ch := chan_get c in
  if is_closed ch then ret (CLOSED_ERROR, None)
  else if negb (is_closed ch) then channel_receive_loop fuel c
  else ret (GEN_ERROR, None).

Definition channel_receive_wakeup (fuel : nat) (c : ptr)
  : M (channel_status * option Z) :=
  let* ch := chan_get c in
  if is_closed ch then ret (CLOSED_ERROR, None)
  else channel_receive_loop fuel c.

(** [channel_non_blocking_send]. *)
Definition channel_non_blocking_send (fuel : nat) (c : ptr) (d : Z)
  : M channel_status :=
  let* ch := chan_get c in
  if is_closed ch then ret CLOSED_ERROR
  else if negb (is_closed ch) then
    match buffer_add (buffer ch) d with
    | (BUFFER_ERROR, _) => ret CHANNEL_FULL
    | (BUFFER_SUCCESS, b) =>
        set_buffer c b >>
        post_selectors fuel c >>
        ret SUCCESS
    end
  else ret GEN_ERROR.

(** [channel_non_blocking_receive]. *)
Definition channel_non_blocking_receive (fuel : nat) (c : ptr)
  : M (channel_status * option Z) :=
  let* ch := chan_get c in
  if is_closed ch then ret (CLOSED_ERROR, None)
  else if negb (is_closed ch) then
    match buffer_remove (buffer ch) with
    | (BUFFER_ERROR, _, _) => ret (CHANNEL_EMPTY, None)
    | (BUFFER_SUCCESS, out, b) =>
        set_buffer c b >>
        post_selectors fuel c >>
        ret (SUCCESS, out)
    end
  else ret (GEN_ERROR, None).

(** [channel_close]. *)
Definition channel_close (fuel : nat) (c : ptr) : M channel_status :=
  let* ch := chan_get c in
  if is_closed ch then ret CLOSED_ERROR
  else if negb (is_closed ch) then
    set_is_closed c true >>
    post_selectors fuel c >>
    ret SUCCESS
  else ret GEN_ERROR.

(** [channel_destroy]. *)
Definition channel_destroy (fuel : nat) (c : ptr) : M channel_status :=
  let* ch := chan_get c in
  if negb (is_closed ch) then ret DESTROY_ERROR
  else if is_closed ch then
    match select ch with
    | Some l =>
        list_destroy fuel l >>
        (fun w => Ret SUCCESS {| nodes := nodes w; sems := sems w;
                                 chans := release (chans w) c |})
    | None => fault
    end
  else ret GEN_ERROR.

(** *** [channel_select] *)

(** What [channel_select] hands back: the returned status, the value stored
    in [*selected_index] (if the call stored one) and the value stored
    through the [data] pointer of a receive intent (if any). *)
Definition select_result : Type := channel_status * option nat * option Z.

(** The registration loop, [for (i = 0; i < channel_count; i++)], over the
    intents still to visit.  [Some status] is the early [return]. *)
Fixpoint select_register (sel : ptr) (rest : list select_t)
  : M (option channel_status) :=
  match rest with
  | [] => ret None
  | s :: rest' =>
      let* ch := chan_get (channel s) in
      if is_closed ch then
        sem_destroy sel >>
        ret (Some CLOSED_ERROR)
      else
        match select ch with
        | Some l => let* l := list_insert l sel in
                    set_select (channel s) (Some l)
        | None => fault
        end >>
        select_register sel rest'
  end.

(** The inner [for (j = 0; j < channel_count; j++)] loop that takes the
    token out of every list. *)
Fixpoint select_deregister (fuel : nat) (sel : ptr) (rest : list select_t)
  : M unit :=
  match rest with
  | [] => ret tt
  | s :: rest' =>
      let* ch := chan_get (channel s) in
      match select ch with
      | Some l => let* node := list_find fuel l sel in
                  let* l := list_remove l node in
                  set_select (channel s) (Some l)
      | None => fault
      end >>
      select_deregister fuel sel rest'
  end.

(** The test [status==SUCCESS || status==GEN_ERROR || status==DESTROY_ERROR
    || status==CLOSED_ERROR]. *)
Definition ends_select (status : channel_status) : bool :=
  match status with
  | SUCCESS | GEN_ERROR | DESTROY_ERROR | CLOSED_ERROR => true
  | CHANNEL_FULL | CHANNEL_EMPTY => false
  end.

(** One pass of the attempt loop [for (i = 0; i < channel_count; i++)], from
    index [i] over the intents [rest] still to try; [all] is the whole
    array.  [None] means the pass fell through to [sem_wait].  The initial
    [status = GEN_ERROR] of the source survives only when [dir] is neither
    [SEND] nor [RECV], which [direction] has no value for. *)
Fixpoint select_sweep (fuel : nat) (sel : ptr) (all rest : list select_t)
  (i : nat) : M (option select_result) :=
  match rest with
  | [] => ret None
  | s :: rest' =>
      let* r := match dir s with
                | SEND =>
                    let* status :=
                      channel_non_blocking_send fuel (channel s) (sdata s) in
                    ret (status, None)
                | RECV => channel_non_blocking_receive fuel (channel s)
                end in
      if ends_select (fst r) then
        select_deregister fuel sel all >>
        sem_destroy sel >>
        ret (Some (fst r, Some i, snd r))
      else select_sweep fuel sel all rest' (S i)
  end.

(** [while (true) { sweep; sem_wait(&select); }] *)
Fixpoint select_loop (fuel : nat) (sel : ptr) (cl : list select_t)
  : M select_result :=
  match fuel with
  | O => out_of_fuel
  | S fuel' =>
      let* r := select_sweep fuel' sel cl cl 0 in
      match r with
      | Some res => ret res
      | None => sem_wait sel >> select_loop fuel' sel cl
      end
  end.

(** [channel_select]; [channel_count] is the length of [channel_list]. *)
Definition channel_select (fuel : nat) (channel_list : list select_t)
  : M select_result :=
  let* sel := sem_init in
  let* early := select_register sel channel_list in
  match early with
  | Some status => ret (status, None, None)
  | None => select_loop fuel sel channel_list
  end.

(** What a [channel_select] suspended in [sem_wait] does once it is woken:
    [sem_wait] is retried and the loop goes on. *)
Definition channel_select_wakeup (fuel : nat) (sel : ptr)
  (channel_list : list select_t) : M select_result :=
  sem_wait sel >> select_loop fuel sel channel_list.

(** ** Specification vocabulary *)

(** The world with channel [c] replaced by [ch]. *)
Definition with_chan (w : world) (c : ptr) (ch : channel_t) : world :=
  {| nodes := nodes w; sems := sems w; chans := store (chans w) c ch |}.

(** The world in which an outcome leaves the program, if it is defined. *)
Definition final_world {A} (o : outcome A) : option world :=
  match o with
  | Ret _ w | Blocked w | NoFuel w => Some w
  | Fault => None
  end.

(** [walk h p k] is the node reached from [p] after [k] steps along [next],
    provided every node on the way is live. *)
Fixpoint walk (h : list (option list_node_t)) (p : ptr) (k : nat) : option ptr :=
  match load h p with
  | None => None
  | Some n => match k with
              | O => Some p
              | S k' => walk h (next n) k'
              end
  end.

(** The token stored in the [k]-th node of the selectors list of [c]. *)
Definition token_at (w : world) (c : ptr) (k : nat) : option ptr :=
  match load (chans w) c with
  | Some ch =>
      match select ch with
      | Some l =>
          match walk (nodes w) (head l) k with
          | Some q => match load (nodes w) q with
                      | Some n => Some (data n)
                      | None => None
                      end
          | None => None
          end
      | None => None
      end
  | None => None
  end.

(** The token is in the selectors set of channel [c]. *)
Definition registered (w : world) (c tok : ptr) : Prop :=
  exists k, token_at w c k = Some tok.

(** Semaphore [tok] has been posted between [w] and [w']. *)
Definition posted (tok : ptr) (w w' : world) : Prop :=
  exists k k', load (sems w) tok = Some k /\ load (sems w') tok = Some k' /\ k < k'.

(** No semaphore is created, destroyed or decremented between the two
    semaphore heaps. *)
Definition sems_grow (s s' : list (option nat)) : Prop :=
  forall p, match load s p with
            | Some k => exists k', load s' p = Some k' /\ k <= k'
            | None => load s' p = None
            end.

(** Every semaphore live in [s] is live in [s']. *)
Definition live_le (s s' : list (option nat)) : Prop :=
  forall p, is_Some (load s p) -> is_Some (load s' p).

(** Channel [c] is live and closed. *)
Definition closed_in (w : world) (c : ptr) : Prop :=
  exists ch, load (chans w) c = Some ch /\ is_closed ch = true.

(** A callback that, whenever it returns, has left the list nodes alone. *)
Definition leaves_nodes (func : ptr -> M unit) : Prop :=
  forall d w a w', func d w = Ret a w' -> nodes w' = nodes w.

(** *** Invariants kept by every call *)

(** [m] keeps the invariant [J]: started in a world that satisfies [J] it
    can only reach worlds that satisfy [J], and what it returns satisfies
    [post]. *)
Definition keeps {A} (J : world -> Prop) (m : M A) (post : A -> Prop) : Prop :=
  forall w, J w ->
    match m w with
    | Ret a w' => J w' /\ post a
    | Blocked w' | NoFuel w' => J w'
    | Fault => True
    end.

(** What an invariant must tolerate to be kept by every function of the
    library: [good] tells which pointers may be stored in list nodes and
    handed to the semaphore functions. *)
Record tolerant (J : world -> Prop) (good : ptr -> Prop) : Prop := {
  tol_null : good NULL;
  tol_node_read : forall w p n, J w -> load (nodes w) p = Some n -> good (data n);
  tol_node_write : forall w p n, J w -> is_Some (load (nodes w) p) -> good (data n) ->
    J {| nodes := store (nodes w) p n; sems := sems w; chans := chans w |};
  tol_node_alloc : forall w n, J w -> good (data n) ->
    J {| nodes := nodes w ++ [Some n]; sems := sems w; chans := chans w |};
  tol_node_free : forall w p, J w ->
    J {| nodes := release (nodes w) p; sems := sems w; chans := chans w |};
  tol_sem_alloc : forall w, J w ->
    J {| nodes := nodes w; sems := sems w ++ [Some 0]; chans := chans w |} /\
    good (S (length (sems w)));
  tol_sem_write : forall w s k, J w -> good s -> is_Some (load (sems w) s) ->
    J {| nodes := nodes w; sems := store (sems w) s k; chans := chans w |};
  tol_sem_free : forall w s, J w -> good s ->
    J {| nodes := nodes w; sems := release (sems w) s; chans := chans w |};
  tol_chan_write : forall w c ch ch', J w -> load (chans w) c = Some ch ->
    (is_closed ch = true -> is_closed ch' = true) -> J (with_chan w c ch');
  tol_chan_alloc : forall w ch, J w ->
    J {| nodes := nodes w; sems := sems w; chans := chans w ++ [Some ch] |};
  tol_chan_free : forall w c, J w ->
    J {| nodes := nodes w; sems := sems w; chans := release (chans w) c |}
}.

(** The calls a thread can make, and the world a call leaves when it
    returns, suspends or is cut short. *)
Inductive call :=
  | Create (size : nat)
  | Send (c : ptr) (v : Z)
  | SendWakeup (c : ptr) (v : Z)
  | Receive (c : ptr)
  | ReceiveWakeup (c : ptr)
  | TrySend (c : ptr) (v : Z)
  | TryReceive (c : ptr)
  | Close (c : ptr)
  | Destroy (c : ptr)
  | Select (channel_list : list select_t)
  | SelectWakeup (sel : ptr) (channel_list : list select_t).

Definition run_call (fuel : nat) (k : call) (w : world) : option world :=
  match k with
  | Create size => final_world (channel_create size w)
  | Send c v => final_world (channel_send fuel c v w)
  | SendWakeup c v => final_world (channel_send_wakeup fuel c v w)
  | Receive c => final_world (channel_receive fuel c w)
  | ReceiveWakeup c => final_world (channel_receive_wakeup fuel c w)
  | TrySend c v => final_world (channel_non_blocking_send fuel c v w)
  | TryReceive c => final_world (channel_non_blocking_receive fuel c w)
  | Close c => final_world (channel_close fuel c w)
  | Destroy c => final_world (channel_destroy fuel c w)
  | Select cl => final_world (channel_select fuel cl w)
  | SelectWakeup sel cl => final_world (channel_select_wakeup fuel sel cl w)
  end.

(** The semaphore a call names itself (only a resumed select does). *)
Definition names_token (k : call) (tok : ptr) : Prop :=
  match k with
  | SelectWakeup sel _ => sel = tok
  | _ => False
  end.

(** Any number of calls made by other threads, none of which is the select
    that owns [tok]. *)
Inductive others_run (tok : ptr) : world -> world -> Prop :=
  | others_done w : others_run tok w w
  | others_call w w1 w2 fuel k :
      ~ names_token k tok -> run_call fuel k w = Some w1 ->
      others_run tok w1 w2 -> others_run tok w w2.

(** Semaphore [tok] is live with count 0 and no list node holds it. *)
Definition token_idle (tok : ptr) (w : world) : Prop :=
  load (sems w) tok = Some 0 /\
  forall p n, load (nodes w) p = Some n -> data n <> tok.

(** Channel [c] has been created and is not open: it is closed or has been
    destroyed. *)
Definition never_reopened (c : ptr) (w : world) : Prop :=
  c <= length (chans w) /\
  forall ch, load (chans w) c = Some ch -> is_closed ch = true.

(** ** Scenario states *)

(** A world holding one live semaphore and nothing else. *)
Definition one_semaphore : world :=
  {| nodes := []; sems := [Some 0]; chans := [] |}.


(** [try_send] of each value in turn, collecting the statuses. *)
Fixpoint try_send_all (fuel : nat) (c : ptr) (vs : list Z)
  : M (list channel_status) :=
  match vs with
  | [] => ret []
  | v :: vs' =>
      let* s := channel_non_blocking_send fuel c v in
      let* ss := try_send_all fuel c vs' in
      ret (s :: ss)
  end.

Fixpoint try_receive_n (fuel : nat) (c : ptr) (n : nat)
  : M (list (channel_status * option Z)) :=
  match n with
  | O => ret []
  | S n' =>
      let* r := channel_non_blocking_receive fuel c in
      let* rs := try_receive_n fuel c n' in
      ret (r :: rs)
  end.


(** The channel [channel_create] makes, and the world it leaves. *)
Definition fresh_channel (cap : nat) : channel_t :=
  {| buffer := buffer_create cap; is_closed := false; select := Some list_create |}.

Definition after_create (w : world) (cap : nat) : world :=
  {| nodes := nodes w; sems := sems w;
     chans := chans w ++ [Some (fresh_channel cap)] |}.

(** Scenario 1 of the specification for any capacity: create a channel,
    [try_send] the values [vs] and then [extra], [try_receive] as many times
    as there are values in [vs], and once more. *)
Definition fifo_script (fuel : nat) (cap : nat) (vs : list Z) (extra : Z)
  : M (list channel_status * channel_status *
       list (channel_status * option Z) * (channel_status * option Z)) :=
  let* c := channel_create cap in
  let* sent := try_send_all fuel c vs in
  let* over := channel_non_blocking_send fuel c extra in
  let* got := try_receive_n fuel c (length vs) in
  let* last := channel_non_blocking_receive fuel c in
  ret (sent, over, got, last).

(** Scenario 3 of the specification, after its first three steps:
    [c = create(1); send(c, 7); close(c)]. *)
Definition closed_with_item : world :=
  {| nodes := []; sems := [];
     chans := [Some {| buffer := {| capacity := 1; items := [7%Z] |};
                       is_closed := true;
                       select := Some list_create |}] |}.

(** Scenario 5 of the specification at the moment thread A is suspended:
    [c = create(1)] holds one value and [select([{c, SEND, 1}])] has
    registered its token and waits in [sem_wait]. *)
Definition select_waiting : world :=
  {| nodes := [Some {| data := 1; next := 1; prev := 1 |}];
     sems := [Some 0];
     chans := [Some {| buffer := {| capacity := 1; items := [1%Z] |};
                       is_closed := false;
                       select := Some {| head := 1; count := 1 |} |}] |}.

(** A channel whose selectors list is a well-formed chain of two nodes
    ending in [NULL], holding two live tokens.  No sequence of
    [list_insert] calls builds such a list (see C9); it serves to exercise
    returning walks. *)
Definition two_selectors : world :=
  {| nodes := [Some {| data := 1; next := 2; prev := NULL |};
               Some {| data := 2; next := NULL; prev := 1 |}];
     sems := [Some 0; Some 0];
     chans := [Some {| buffer := {| capacity := 1; items := [] |};
                       is_closed := false;
                       select := Some {| head := 1; count := 2 |} |}] |}.

(** Scenario 4 of the specification before the call to select: [c1] (address
    1) has capacity 1 and holds 9, [c2] (address 2) has capacity 1 and is
    empty. *)
Definition tie_break_start : world :=
  {| nodes := []; sems := [];
     chans := [Some {| buffer := {| capacity := 1; items := [9%Z] |};
                       is_closed := false; select := Some list_create |};
               Some {| buffer := {| capacity := 1; items := [] |};
                       is_closed := false; select := Some list_create |}] |}.

Definition tie_break_intents : list select_t :=
  [mk_select 1 RECV 0%Z; mk_select 2 SEND 5%Z].

(** The same world once [channel_select] has initialised its semaphore
    (address 1) and run its registration loop over both intents. *)
Definition tie_break_registered : world :=
  {| nodes := [Some {| data := 1; next := 1; prev := 1 |};
               Some {| data := 1; next := 2; prev := 2 |}];
     sems := [Some 0];
     chans := [Some {| buffer := {| capacity := 1; items := [9%Z] |};
                       is_closed := false;
                       select := Some {| head := 1; count := 1 |} |};
               Some {| buffer := {| capacity := 1; items := [] |};
                       is_closed := false;
                       select := Some {| head := 2; count := 1 |} |}] |}.

(** Two channels of capacity 1, the first (address 1) open, the second
    (address 2) closed. *)
Definition one_open_one_closed : world :=
  {| nodes := []; sems := [];
     chans := [Some {| buffer := {| capacity := 1; items := [] |};
                       is_closed := false; select := Some list_create |};
               Some {| buffer := {| capacity := 1; items := [] |};
                       is_closed := true; select := Some list_create |}] |}.

(** Scenario 4 with any contents in the two buffers. *)
Definition two_open_channels (b1 b2 : buffer_t) : world :=
  {| nodes := []; sems := [];
     chans := [Some {| buffer := b1; is_closed := false; select := Some list_create |};
               Some {| buffer := b2; is_closed := false; select := Some list_create |}] |}.

(** [two_open_channels] once [channel_select] has initialised its semaphore
    and registered it with both channels. *)
Definition two_registered (b1 b2 : buffer_t) : world :=
  {| nodes := [Some {| data := 1; next := 1; prev := 1 |};
               Some {| data := 1; next := 2; prev := 2 |}];
     sems := [Some 0];
     chans := [Some {| buffer := b1; is_closed := false;
                       select := Some {| head := 1; count := 1 |} |};
               Some {| buffer := b2; is_closed := false;
                       select := Some {| head := 2; count := 1 |} |}] |}.

(** ** The rest of [linked_list.c] *)

(** [list_begin], [list_next] and [list_data]. *)
Definition list_begin (l : list_t) : ptr := head l.
Definition list_next (node : ptr) : M ptr := get_next node.
Definition list_data (node : ptr) : M ptr := get_data node.

(** [list_count]: the body is [return 0;], the [count] field is not read. *)
Definition list_count (l : list_t) : Z := 0%Z.

(** *** Vocabulary for lists *)

(** The world with its list nodes replaced. *)
Definition with_nodes (w : world) (ns : list (option list_node_t)) : world :=
  {| nodes := ns; sems := sems w; chans := chans w |}.

(** From [p] the [next] fields lead through live nodes holding the data
    [ds], in this order, and end in [NULL]. *)
Fixpoint chain (h : list (option list_node_t)) (p : ptr) (ds : list ptr) : Prop :=
  match ds with
  | [] => p = NULL
  | d :: ds' => exists n, load h p = Some n /\ data n = d /\ chain h (next n) ds'
  end.

(** How often [s] occurs in [ds]. *)
Fixpoint occurrences (s : ptr) (ds : list ptr) : nat :=
  match ds with
  | [] => 0
  | d :: ds' => (if Nat.eqb d s then 1 else 0) + occurrences s ds'
  end.

(** A well-formed doubly-linked list of three nodes holding 11, 12, 13. *)
Definition three_nodes : world :=
  {| nodes := [Some {| data := 11; next := 2; prev := NULL |};
               Some {| data := 12; next := 3; prev := 1 |};
               Some {| data := 13; next := NULL; prev := 2 |}];
     sems := []; chans := [] |}.

(** What an insert on the empty list [l] followed by the removal of the
    inserted node leaves: the list structure and the world. *)
Definition inserted_and_removed (w : world) (l : list_t) : list_t :=
  {| head := S (length (nodes w));
     count := wrap_size_t (wrap_size_t (count l + 1) - 1) |}.

Definition node_released (w : world) : world :=
  with_nodes w (nodes w ++ [None]).

(** [list_insert] of each datum in turn. *)
Fixpoint insert_all (l : list_t) (ds : list ptr) : M list_t :=
  match ds with
  | [] => ret l
  | d :: ds' => let* l := list_insert l d in insert_all l ds'
  end.

(** The shape [list_insert] gives a list grown from the empty one in a heap
    of [m] nodes: the nodes at [m+1 .. m+k] are live, the first points with
    [next] at itself and every later one at the node inserted before it. *)
Definition stacked (m k : nat) (ns : list (option list_node_t)) : Prop :=
  forall i, 1 <= i <= k ->
    exists c, load ns (m + i) = Some c /\
              next c = (if Nat.eqb i 1 then m + 1 else m + i - 1).

(** ** Vocabulary for sequences of calls *)

(** A sequence of calls, each with its own fuel, run one after the other;
    [None] once a call goes wrong. *)
Fixpoint run_calls (ks : list (nat * call)) (w : world) : option world :=
  match ks with
  | [] => Some w
  | (fuel, k) :: ks' =>
      match run_call fuel k w with
      | Some w' => run_calls ks' w'
      | None => None
      end
  end.

(** The call is one of the seven entry points that work on the single
    channel [c]: send, receive, their non-blocking forms, the resumption of
    a blocked send or receive, and close. *)
Definition acts_on (k : call) (c : ptr) : Prop :=
  match k with
  | Send c' _ | SendWakeup c' _ | TrySend c' _
  | Receive c' | ReceiveWakeup c' | TryReceive c' | Close c' => c' = c
  | Create _ | Destroy _ | Select _ | SelectWakeup _ _ => False
  end.

(** Between [w] and [w'] nothing has changed but the buffer and the closed
    flag of channel [c] and the counts of the semaphores, which have only
    gone up: the list nodes, the other channels and the selectors list of
    [c] are as they were, and [c] has not been reopened. *)
Definition touches_only (c : ptr) (w w' : world) : Prop :=
  nodes w' = nodes w /\
  sems_grow (sems w) (sems w') /\
  (forall c', c' <> c -> load (chans w') c' = load (chans w) c') /\
  exists ch ch',
    load (chans w) c = Some ch /\ load (chans w') c = Some ch' /\
    select ch' = select ch /\
    (is_closed ch = true -> is_closed ch' = true).

(** The intent can be carried out on channel record [ch] at once: the
    value its receive stores through [data] (none for a send) and the
    buffer it leaves. *)
Definition ready (s : select_t) (ch : channel_t) : option (option Z * buffer_t) :=
  match dir s with
  | SEND => match buffer_add (buffer ch) (sdata s) with
            | (BUFFER_SUCCESS, b) => Some (None, b)
            | (BUFFER_ERROR, _) => None
            end
  | RECV => match buffer_remove (buffer ch) with
            | (BUFFER_SUCCESS, out, b) => Some (out, b)
            | (BUFFER_ERROR, _, _) => None
            end
  end.

(** Scenario 1 of the specification with a select waiting on the channel:
    [c = create(2)], and another thread's [select([{c, RECV, &x}])] has
    registered its token, found [c] empty and waits in [sem_wait].  The
    buffer [b] is the one of [c]. *)
Definition fifo_select_waiting_with (b : buffer_t) : world :=
  {| nodes := [Some {| data := 1; next := 1; prev := 1 |}];
     sems := [Some 0];
     chans := [Some {| buffer := b; is_closed := false;
                       select := Some {| head := 1; count := 1 |} |}] |}.

Definition fifo_select_waiting : world :=
  fifo_select_waiting_with (buffer_create 2).

(** The same world with the value 1 in the buffer and the token of the
    waiting select posted [k] times. *)
Definition fifo_walking (k : nat) : world :=
  {| nodes := [Some {| data := 1; next := 1; prev := 1 |}];
     sems := [Some k];
     chans := [Some {| buffer := {| capacity := 2; items := [1%Z] |};
                       is_closed := false;
                       select := Some {| head := 1; count := 1 |} |}] |}.



(** * Properties *)

(** ** Heaps *)

Section HeapFacts.
Context {A : Type}.
Implicit Types (h : list (option A)) (a b : A) (p q : ptr).

Lemma load_alloc h a : load (h ++ [Some a]) (S (length h)) = Some a.
Proof.
  unfold load. rewrite lookup_app_r by lia.
  replace (length h - length h) with 0 by lia. reflexivity.
Qed.

Lemma load_alloc_old h a p x : load h p = Some x -> load (h ++ [Some a]) p = Some x.
Proof.
  destruct p as [|i]; simpl; [discriminate|].
  destruct (h !! i) as [o|] eqn:E; [|discriminate].
  intros Ho. rewrite lookup_app_l by (eapply lookup_lt_Some; eauto).
  rewrite E. exact Ho.
Qed.

Lemma store_alloc h a b : store (h ++ [Some a]) (S (length h)) b = h ++ [Some b].
Proof.
  unfold store. rewrite insert_app_r_alt by lia.
  replace (length h - length h) with 0 by lia. reflexivity.
Qed.

Lemma release_alloc h a : release (h ++ [Some a]) (S (length h)) = h ++ [None].
Proof.
  unfold release. rewrite insert_app_r_alt by lia.
  replace (length h - length h) with 0 by lia. reflexivity.
Qed.

Lemma load_Some_lt h p x : load h p = Some x -> p <> NULL /\ p <= length h.
Proof.
  destruct p as [|i]; simpl; [discriminate|].
  destruct (h !! i) as [o|] eqn:E; [|discriminate].
  intros _. split; [discriminate|]. apply lookup_lt_Some in E. lia.
Qed.

Lemma load_store_eq h p a x : load h p = Some x -> load (store h p a) p = Some a.
Proof.
  destruct p as [|i]; simpl; [discriminate|].
  destruct (h !! i) as [o|] eqn:E; [|discriminate].
  intros _. rewrite list_lookup_insert_eq by (eapply lookup_lt_Some; eauto).
  reflexivity.
Qed.

Lemma load_store_ne h p q a : p <> q -> load (store h p a) q = load h q.
Proof.
  intros Hne. destruct p as [|i]; [reflexivity|].
  destruct q as [|j]; [reflexivity|]. simpl.
  rewrite list_lookup_insert_ne by congruence. reflexivity.
Qed.

Lemma load_release_ne h p q : p <> q -> load (release h p) q = load h q.
Proof.
  intros Hne. destruct p as [|i]; [reflexivity|].
  destruct q as [|j]; [reflexivity|]. simpl.
  rewrite list_lookup_insert_ne by congruence. reflexivity.
Qed.

Lemma load_release_eq h p : load (release h p) p = None.
Proof.
  destruct p as [|i]; [reflexivity|]. simpl.
  destruct (decide (i < length h)) as [Hlt|Hge].
  - rewrite list_lookup_insert_eq by exact Hlt. reflexivity.
  - rewrite list_insert_ge by lia.
    rewrite (lookup_ge_None_2 h i) by lia. reflexivity.
Qed.
Lemma load_alloc_inv h a p x :
  load (h ++ [Some a]) p = Some x ->
  load h p = Some x \/ (p = S (length h) /\ x = a).
Proof.
  destruct p as [|i]; simpl; [discriminate|].
  destruct (decide (i < length h)) as [Hlt|Hge].
  - rewrite lookup_app_l by exact Hlt. auto.
  - rewrite lookup_app_r by lia.
    destruct (i - length h) as [|j] eqn:E; simpl; [|discriminate].
    intros [= <-]. right. split; [f_equal; lia|reflexivity].
Qed.

Lemma load_release_Some h p q x : load (release h p) q = Some x -> load h q = Some x.
Proof.
  destruct (decide (p = q)) as [<-|Hne].
  - rewrite load_release_eq. discriminate.
  - rewrite load_release_ne by exact Hne. auto.
Qed.

Lemma length_store h p a : length (store h p a) = length h.
Proof. destruct p; [reflexivity|]. apply length_insert. Qed.

Lemma length_release h p : length (release h p) = length h.
Proof. destruct p; [reflexivity|]. apply length_insert. Qed.
End HeapFacts.

Arguments load {A} h p : simpl never.
Arguments store {A} h p a : simpl never.
Arguments release {A} h p : simpl never.

(** ** The linked list *)

Lemma sem_post_leaves_nodes : leaves_nodes sem_post.
Proof.
  intros d w a w'. unfold sem_post.
  destruct (load (sems w) d); [|discriminate].
  intros [= _ <-]. reflexivity.
Qed.

Lemma list_insert_empty (w : world) (l : list_t) (d : ptr) :
  head l = NULL ->
  list_insert l d w =
    Ret {| head := S (length (nodes w)); count := wrap_size_t (count l + 1) |}
        {| nodes := nodes w ++
                    [Some (mk_node d (S (length (nodes w))) (S (length (nodes w))))];
           sems := sems w; chans := chans w |}.
Proof.
  intros Hh. unfold list_insert, bind, malloc_node, alloc. rewrite Hh.
  unfold set_data, set_next, set_prev, bind, node_get, node_put, ret. simpl.
  repeat (rewrite ?load_alloc, ?store_alloc; simpl).
  reflexivity.
Qed.

(** Walking from a node whose [next] is the node itself never comes back. *)
Lemma list_foreach_self_loop_no_return (func : ptr -> M unit) (p : ptr)
  (n : list_node_t) :
  leaves_nodes func -> next n = p ->
  forall fuel w w', load (nodes w) p = Some n ->
    list_foreach_from fuel p func w <> Ret tt w'.
Proof.
  intros Hf Hn fuel. induction fuel as [|fuel IH]; intros w w' Hp; simpl.
  - discriminate.
  - destruct p as [|p']; [discriminate Hp|]. simpl.
    cbv beta iota delta [bind get_data get_next node_get ret]. rewrite Hp.
    destruct (func (data n) w) as [a w1| | |] eqn:E; try discriminate.
    apply Hf in E. rewrite E, Hp, Hn. apply IH. rewrite E. exact Hp.
Qed.

(** With [sem_post] as the callback on a live semaphore the walk does not
    go wrong either: it is still running whatever the fuel. *)
Lemma list_foreach_self_loop_sem_post (p : ptr) (n : list_node_t) :
  next n = p ->
  forall fuel w, load (nodes w) p = Some n -> is_Some (load (sems w) (data n)) ->
    exists w', list_foreach_from fuel p sem_post w = NoFuel w'.
Proof.
  intros Hn fuel. induction fuel as [|fuel IH]; intros w Hp [k Hk]; simpl.
  - eexists. reflexivity.
  - destruct p as [|p']; [discriminate Hp|]. simpl.
    cbv beta iota delta [bind get_data get_next node_get ret]. rewrite Hp.
    unfold sem_post at 1. rewrite Hk. simpl. rewrite Hp, Hn.
    apply IH; simpl; [exact Hp|].
    rewrite (load_store_eq _ _ _ _ Hk). eauto.
Qed.

(** C9: called on an empty list, [list_insert] falls through its empty-list
    branch and leaves the new head with [next] (and [prev]) pointing at
    itself; a [list_foreach] over the resulting one-element list never
    returns, and with [sem_post] on a live semaphore it runs for ever. *)
Theorem C9_list_insert_empty_makes_cycle (w : world) (l : list_t) (d : ptr) :
  head l = NULL ->
  exists l' w' n,
    list_insert l d w = Ret l' w' /\
    head l' <> NULL /\
    load (nodes w') (head l') = Some n /\
    data n = d /\ next n = head l' /\
    (forall fuel func w'', leaves_nodes func ->
       list_foreach fuel l' func w' <> Ret tt w'') /\
    (is_Some (load (sems w) d) ->
     forall fuel, exists w'', list_foreach fuel l' sem_post w' = NoFuel w'').
Proof.
  intros Hh. rewrite (list_insert_empty w l d Hh).
  do 3 eexists. split; [reflexivity|]. simpl.
  assert (Hl : load (nodes w ++ [Some (mk_node d (S (length (nodes w)))
                                         (S (length (nodes w))))])
                 (S (length (nodes w))) = Some (mk_node d (S (length (nodes w)))
                                                  (S (length (nodes w)))))
    by apply load_alloc.
  split; [discriminate|]. split; [exact Hl|].
  split; [reflexivity|]. split; [reflexivity|]. split.
  - intros fuel func w'' Hf. unfold list_foreach. simpl.
    eapply list_foreach_self_loop_no_return; eauto. reflexivity.
  - intros Hd fuel. unfold list_foreach. simpl.
    eapply list_foreach_self_loop_sem_post; [|exact Hl|exact Hd]. reflexivity.
Qed.

Lemma C9_witness :
  exists l' w' n,
    list_insert list_create 1 one_semaphore = Ret l' w' /\
    head l' <> NULL /\
    load (nodes w') (head l') = Some n /\
    data n = 1 /\ next n = head l' /\
    (forall fuel func w'', leaves_nodes func ->
       list_foreach fuel l' func w' <> Ret tt w'') /\
    (is_Some (load (sems one_semaphore) 1) ->
     forall fuel, exists w'', list_foreach fuel l' sem_post w' = NoFuel w'').
Proof.
  apply (C9_list_insert_empty_makes_cycle one_semaphore list_create 1).
  reflexivity.
Defined.

(** ** Running the monad *)

Lemma bind_Ret {A B} (m : M A) (k : A -> M B) w a w' :
  m w = Ret a w' -> bind m k w = k a w'.
Proof. unfold bind. intros ->. reflexivity. Qed.

Lemma bind_NoFuel {A B} (m : M A) (k : A -> M B) w w' :
  m w = NoFuel w' -> bind m k w = NoFuel w'.
Proof. unfold bind. intros ->. reflexivity. Qed.

Lemma bind_inv_Ret {A B} (m : M A) (k : A -> M B) w b w' :
  bind m k w = Ret b w' -> exists a w1, m w = Ret a w1 /\ k a w1 = Ret b w'.
Proof. unfold bind. destruct (m w); try discriminate. eauto. Qed.

Lemma chan_get_ok w c ch : load (chans w) c = Some ch -> chan_get c w = Ret ch w.
Proof. unfold chan_get. intros ->. reflexivity. Qed.

Lemma chan_put_ok w c ch0 ch :
  load (chans w) c = Some ch0 -> chan_put c ch w = Ret tt (with_chan w c ch).
Proof. unfold chan_put. intros ->. reflexivity. Qed.

Lemma set_buffer_ok w c ch b :
  load (chans w) c = Some ch ->
  set_buffer c b w =
    Ret tt (with_chan w c {| buffer := b; is_closed := is_closed ch;
                             select := select ch |}).
Proof.
  intros H. unfold set_buffer.
  rewrite (bind_Ret _ _ _ _ _ (chan_get_ok _ _ _ H)).
  eapply chan_put_ok; eauto.
Qed.

Lemma set_is_closed_ok w c ch v :
  load (chans w) c = Some ch ->
  set_is_closed c v w =
    Ret tt (with_chan w c {| buffer := buffer ch; is_closed := v;
                             select := select ch |}).
Proof.
  intros H. unfold set_is_closed.
  rewrite (bind_Ret _ _ _ _ _ (chan_get_ok _ _ _ H)).
  eapply chan_put_ok; eauto.
Qed.

Lemma set_select_ok w c ch l :
  load (chans w) c = Some ch ->
  set_select c l w =
    Ret tt (with_chan w c {| buffer := buffer ch; is_closed := is_closed ch;
                             select := l |}).
Proof.
  intros H. unfold set_select.
  rewrite (bind_Ret _ _ _ _ _ (chan_get_ok _ _ _ H)).
  eapply chan_put_ok; eauto.
Qed.

Lemma load_with_chan w c ch0 ch :
  load (chans w) c = Some ch0 -> load (chans (with_chan w c ch)) c = Some ch.
Proof. intros H. simpl. eapply load_store_eq; eauto. Qed.

Lemma post_selectors_unfold fuel w c ch :
  load (chans w) c = Some ch ->
  post_selectors fuel c w =
    match select ch with
    | Some l => list_foreach_from fuel (head l) sem_post w
    | None => Ret tt w
    end.
Proof.
  intros H. unfold post_selectors.
  rewrite (bind_Ret _ _ _ _ _ (chan_get_ok _ _ _ H)).
  destruct (select ch); reflexivity.
Qed.

(** ** What the non-blocking operations do, case by case *)

Lemma try_send_closed fuel w c ch v :
  load (chans w) c = Some ch -> is_closed ch = true ->
  channel_non_blocking_send fuel c v w = Ret CLOSED_ERROR w.
Proof.
  intros H Hc. unfold channel_non_blocking_send.
  rewrite (bind_Ret _ _ _ _ _ (chan_get_ok _ _ _ H)), Hc. reflexivity.
Qed.

Lemma try_send_full fuel w c ch v :
  load (chans w) c = Some ch -> is_closed ch = false ->
  capacity (buffer ch) <= length (items (buffer ch)) ->
  channel_non_blocking_send fuel c v w = Ret CHANNEL_FULL w.
Proof.
  intros H Hc Hfull. unfold channel_non_blocking_send.
  rewrite (bind_Ret _ _ _ _ _ (chan_get_ok _ _ _ H)), Hc. simpl.
  unfold buffer_add.
  destruct (Nat.ltb_spec (length (items (buffer ch))) (capacity (buffer ch))); [lia|].
  reflexivity.
Qed.

Lemma try_send_room fuel w c ch v :
  load (chans w) c = Some ch -> is_closed ch = false ->
  length (items (buffer ch)) < capacity (buffer ch) ->
  channel_non_blocking_send fuel c v w =
    (post_selectors fuel c >> ret SUCCESS)
      (with_chan w c {| buffer := {| capacity := capacity (buffer ch);
                                     items := items (buffer ch) ++ [v] |};
                        is_closed := false; select := select ch |}).
Proof.
  intros H Hc Hroom. unfold channel_non_blocking_send.
  rewrite (bind_Ret _ _ _ _ _ (chan_get_ok _ _ _ H)), Hc. simpl.
  unfold buffer_add.
  destruct (Nat.ltb_spec (length (items (buffer ch))) (capacity (buffer ch))); [|lia].
  rewrite (bind_Ret _ _ _ _ _ (set_buffer_ok _ _ _ _ H)), Hc. reflexivity.
Qed.

Lemma try_receive_closed fuel w c ch :
  load (chans w) c = Some ch -> is_closed ch = true ->
  channel_non_blocking_receive fuel c w = Ret (CLOSED_ERROR, None) w.
Proof.
  intros H Hc. unfold channel_non_blocking_receive.
  rewrite (bind_Ret _ _ _ _ _ (chan_get_ok _ _ _ H)), Hc. reflexivity.
Qed.

Lemma try_receive_empty fuel w c ch :
  load (chans w) c = Some ch -> is_closed ch = false ->
  items (buffer ch) = [] ->
  channel_non_blocking_receive fuel c w = Ret (CHANNEL_EMPTY, None) w.
Proof.
  intros H Hc He. unfold channel_non_blocking_receive.
  rewrite (bind_Ret _ _ _ _ _ (chan_get_ok _ _ _ H)), Hc. simpl.
  unfold buffer_remove. rewrite He. reflexivity.
Qed.

Lemma try_receive_item fuel w c ch v rest :
  load (chans w) c = Some ch -> is_closed ch = false ->
  items (buffer ch) = v :: rest ->
  channel_non_blocking_receive fuel c w =
    (post_selectors fuel c >> ret (SUCCESS, Some v))
      (with_chan w c {| buffer := {| capacity := capacity (buffer ch);
                                     items := rest |};
                        is_closed := false; select := select ch |}).
Proof.
  intros H Hc Hi. unfold channel_non_blocking_receive.
  rewrite (bind_Ret _ _ _ _ _ (chan_get_ok _ _ _ H)), Hc. simpl.
  unfold buffer_remove. rewrite Hi.
  rewrite (bind_Ret _ _ _ _ _ (set_buffer_ok _ _ _ _ H)), Hc. reflexivity.
Qed.

Lemma receive_closed fuel w c ch :
  load (chans w) c = Some ch -> is_closed ch = true ->
  channel_receive fuel c w = Ret (CLOSED_ERROR, None) w.
Proof.
  intros H Hc. unfold channel_receive.
  rewrite (bind_Ret _ _ _ _ _ (chan_get_ok _ _ _ H)), Hc. reflexivity.
Qed.

Example closed_with_item_reached :
  (let* c := channel_create 1 in
   channel_send 1 c 7 >> channel_close 1 c >> ret c) empty_world
  = Ret 1 closed_with_item.
Proof. reflexivity. Qed.

(** C3: on a closed channel [channel_receive] and
    [channel_non_blocking_receive] return [CLOSED_ERROR] at once, store
    nothing through [data] and leave the whole world, the buffer included,
    as it was, whatever the buffer holds. *)
Theorem C3_receive_on_closed_channel (fuel : nat) (w : world) (c : ptr)
  (ch : channel_t) :
  load (chans w) c = Some ch -> is_closed ch = true ->
  channel_receive fuel c w = Ret (CLOSED_ERROR, None) w /\
  channel_non_blocking_receive fuel c w = Ret (CLOSED_ERROR, None) w.
Proof.
  intros H Hc. split.
  - eapply receive_closed; eauto.
  - eapply try_receive_closed; eauto.
Qed.

Lemma C3_witness :
  channel_receive 0 1 closed_with_item = Ret (CLOSED_ERROR, None) closed_with_item /\
  channel_non_blocking_receive 0 1 closed_with_item
    = Ret (CLOSED_ERROR, None) closed_with_item.
Proof.
  apply (C3_receive_on_closed_channel 0 closed_with_item 1
           {| buffer := {| capacity := 1; items := [7%Z] |};
              is_closed := true; select := Some list_create |});
    reflexivity.
Defined.

(** ** Channels without selectors *)

Lemma with_chan_twice w c ch1 ch2 :
  with_chan (with_chan w c ch1) c ch2 = with_chan w c ch2.
Proof.
  unfold with_chan. simpl. f_equal.
  destruct c as [|i]; [reflexivity|]. unfold store.
  apply list_insert_insert_eq.
Qed.

Lemma with_chan_same w c ch :
  load (chans w) c = Some ch -> with_chan w c ch = w.
Proof.
  intros H. destruct w as [ns ss cs]. unfold with_chan. simpl in *. f_equal.
  destruct c as [|i]; [reflexivity|]. unfold store. apply list_insert_id.
  unfold load in H. destruct (cs !! i) as [[x|]|]; congruence.
Qed.

Lemma post_selectors_none fuel w c ch l :
  load (chans w) c = Some ch -> select ch = Some l -> head l = NULL ->
  post_selectors (S fuel) c w = Ret tt w.
Proof.
  intros H Hs Hh. rewrite (post_selectors_unfold _ _ _ _ H), Hs, Hh.
  reflexivity.
Qed.

Lemma try_send_all_no_selectors fuel c l vs : forall w ch,
  load (chans w) c = Some ch -> is_closed ch = false ->
  select ch = Some l -> head l = NULL ->
  length (items (buffer ch)) + length vs <= capacity (buffer ch) ->
  try_send_all (S fuel) c vs w =
    Ret (map (fun _ => SUCCESS) vs)
        (with_chan w c {| buffer := {| capacity := capacity (buffer ch);
                                       items := items (buffer ch) ++ vs |};
                          is_closed := false; select := Some l |}).
Proof.
  induction vs as [|v vs IH]; intros w ch H Hc Hs Hh Hlen; simpl.
  - unfold ret. f_equal. rewrite app_nil_r. symmetry.
    apply with_chan_same. rewrite H. f_equal.
    destruct ch as [[cap its] cl sl]; simpl in *. congruence.
  - simpl in Hlen.
    rewrite (bind_Ret _ _ w SUCCESS
               (with_chan w c {| buffer := {| capacity := capacity (buffer ch);
                                              items := items (buffer ch) ++ [v] |};
                                 is_closed := false; select := select ch |})).
    2:{ rewrite (try_send_room _ _ _ _ _ H Hc) by lia.
        erewrite bind_Ret; [reflexivity|].
        eapply post_selectors_none; [eapply load_with_chan; eauto|exact Hs|exact Hh]. }
    erewrite bind_Ret.
    2:{ eapply IH; [eapply load_with_chan; eauto|reflexivity|exact Hs|exact Hh|].
        simpl. rewrite length_app. simpl. lia. }
    unfold ret. simpl. rewrite with_chan_twice, <- app_assoc. reflexivity.
Qed.

Lemma try_receive_n_no_selectors fuel c l vs : forall w ch rest,
  load (chans w) c = Some ch -> is_closed ch = false ->
  select ch = Some l -> head l = NULL ->
  items (buffer ch) = vs ++ rest ->
  try_receive_n (S fuel) c (length vs) w =
    Ret (map (fun v => (SUCCESS, Some v)) vs)
        (with_chan w c {| buffer := {| capacity := capacity (buffer ch);
                                       items := rest |};
                          is_closed := false; select := Some l |}).
Proof.
  induction vs as [|v vs IH]; intros w ch rest H Hc Hs Hh Hi; simpl.
  - unfold ret. f_equal. symmetry.
    apply with_chan_same. rewrite H. f_equal.
    destruct ch as [[cap its] cl sl]; simpl in *. congruence.
  - simpl in Hi.
    rewrite (bind_Ret _ _ w (SUCCESS, Some v)
               (with_chan w c {| buffer := {| capacity := capacity (buffer ch);
                                              items := vs ++ rest |};
                                 is_closed := false; select := select ch |})).
    2:{ rewrite (try_receive_item _ _ _ _ _ _ H Hc Hi).
        erewrite bind_Ret; [reflexivity|].
        eapply post_selectors_none; [eapply load_with_chan; eauto|exact Hs|exact Hh]. }
    erewrite bind_Ret.
    2:{ eapply IH; [eapply load_with_chan; eauto|reflexivity|exact Hs|exact Hh|].
        reflexivity. }
    unfold ret. simpl. rewrite with_chan_twice. reflexivity.
Qed.

Lemma channel_create_ok cap w :
  channel_create cap w = Ret (S (length (chans w))) (after_create w cap).
Proof. reflexivity. Qed.

Lemma load_after_create w cap :
  load (chans (after_create w cap)) (S (length (chans w))) = Some (fresh_channel cap).
Proof. simpl. apply load_alloc. Qed.

Lemma with_chan_after_create w cap ch :
  with_chan (after_create w cap) (S (length (chans w))) ch =
    {| nodes := nodes w; sems := sems w; chans := chans w ++ [Some ch] |}.
Proof. unfold with_chan, after_create. simpl. rewrite store_alloc. reflexivity. Qed.

Lemma fifo_script_runs (fuel : nat) (w : world) (vs : list Z) (extra : Z) :
  fifo_script (S fuel) (length vs) vs extra w =
    Ret (map (fun _ => SUCCESS) vs, CHANNEL_FULL,
         map (fun v => (SUCCESS, Some v)) vs, (CHANNEL_EMPTY, None))
        (after_create w (length vs)).
Proof.
  unfold fifo_script.
  rewrite (bind_Ret _ _ _ _ _ (channel_create_ok _ _)).
  set (c := S (length (chans w))). set (w0 := after_create w (length vs)).
  assert (H0 : load (chans w0) c = Some (fresh_channel (length vs)))
    by apply load_after_create.
  erewrite bind_Ret.
  2:{ eapply (try_send_all_no_selectors fuel c list_create vs w0); eauto. }
  simpl. set (ch1 := {| buffer := {| capacity := length vs; items := vs |};
                        is_closed := false; select := Some list_create |}).
  assert (H1 : load (chans (with_chan w0 c ch1)) c = Some ch1)
    by (eapply load_with_chan; eauto).
  erewrite bind_Ret.
  2:{ eapply try_send_full; [exact H1|reflexivity|]. simpl. lia. }
  erewrite bind_Ret.
  2:{ eapply (try_receive_n_no_selectors fuel c list_create vs _ ch1 []);
      [exact H1|reflexivity|reflexivity|reflexivity|].
      simpl. rewrite app_nil_r. reflexivity. }
  simpl. rewrite with_chan_twice.
  erewrite bind_Ret.
  2:{ eapply try_receive_empty; [eapply load_with_chan; eauto|reflexivity|reflexivity]. }
  unfold ret. f_equal. subst c w0. rewrite with_chan_after_create. reflexivity.
Qed.

(** Values leave a fresh channel in the order they entered it.  For every
    list of values, on a channel just created whose capacity is the length
    of the list, each [try_send] succeeds, one more reports [CHANNEL_FULL],
    the [try_receive]s hand the values back first-in first-out and the next
    one reports [CHANNEL_EMPTY]; in particular so on a channel of capacity 2
    with the values 1, 2 and the extra value 3. *)
Lemma fifo_on_fresh_channel (fuel : nat) (w : world) :
  (forall (vs : list Z) (extra : Z),
     fifo_script (S fuel) (length vs) vs extra w =
       Ret (map (fun _ => SUCCESS) vs, CHANNEL_FULL,
            map (fun v => (SUCCESS, Some v)) vs, (CHANNEL_EMPTY, None))
           (after_create w (length vs))) /\
  fifo_script (S fuel) 2 [1; 2]%Z 3%Z w =
    Ret ([SUCCESS; SUCCESS], CHANNEL_FULL,
         [(SUCCESS, Some 1%Z); (SUCCESS, Some 2%Z)], (CHANNEL_EMPTY, None))
        (after_create w 2).
Proof.
  split.
  - intros vs extra. apply fifo_script_runs.
  - exact (fifo_script_runs fuel w [1; 2]%Z 3%Z).
Qed.

(** ** Posting to the selectors *)

Lemma sems_grow_refl s : sems_grow s s.
Proof. intros p. destruct (load s p); eauto. Qed.

Lemma sems_grow_trans s1 s2 s3 :
  sems_grow s1 s2 -> sems_grow s2 s3 -> sems_grow s1 s3.
Proof.
  intros H12 H23 p. specialize (H12 p). specialize (H23 p).
  destruct (load s1 p) as [k|].
  - destruct H12 as (k2 & E2 & Hle). rewrite E2 in H23.
    destruct H23 as (k3 & E3 & Hle'). exists k3. split; [exact E3|lia].
  - rewrite H12 in H23. exact H23.
Qed.

Lemma sems_grow_live s s' : sems_grow s s' -> live_le s s'.
Proof.
  intros H p [k Hk]. specialize (H p). rewrite Hk in H.
  destruct H as (k' & E & _). eauto.
Qed.

Lemma sems_grow_store s d k :
  load s d = Some k -> sems_grow s (store s d (S k)).
Proof.
  intros Hd p. destruct (decide (d = p)) as [<-|Hne].
  - rewrite Hd. exists (S k). split; [eapply load_store_eq; eauto|lia].
  - rewrite (load_store_ne _ _ _ _ Hne). destruct (load s p); eauto.
Qed.

Lemma posted_then_grow tok w w1 w2 :
  posted tok w w1 -> sems_grow (sems w1) (sems w2) -> posted tok w w2.
Proof.
  intros (k & k1 & E & E1 & Hlt) Hg. specialize (Hg tok). rewrite E1 in Hg.
  destruct Hg as (k2 & E2 & Hle). exists k, k2. repeat split; eauto. lia.
Qed.

Lemma grow_then_posted tok w w1 w2 :
  sems_grow (sems w) (sems w1) -> posted tok w1 w2 -> posted tok w w2.
Proof.
  intros Hg (k1 & k2 & E1 & E2 & Hlt). specialize (Hg tok).
  destruct (load (sems w) tok) as [k|] eqn:E.
  - destruct Hg as (k1' & E1' & Hle). exists k, k2.
    repeat split; eauto. rewrite E1 in E1'. injection E1' as <-. lia.
  - congruence.
Qed.

Lemma sem_post_Ret d w a w' :
  sem_post d w = Ret a w' ->
  nodes w' = nodes w /\ chans w' = chans w /\
  sems_grow (sems w) (sems w') /\ posted d w w'.
Proof.
  unfold sem_post. destruct (load (sems w) d) as [k|] eqn:E; [|discriminate].
  intros [= _ <-]. simpl. repeat split.
  - apply sems_grow_store; exact E.
  - exists k, (S k). repeat split; [exact E|eapply load_store_eq; eauto|lia].
Qed.

(** The walk with [sem_post] touches the semaphore counts only, and only
    upwards, whether it ends or is cut short. *)
Lemma list_foreach_sem_post_frame fuel : forall p w w',
  final_world (list_foreach_from fuel p sem_post w) = Some w' ->
  nodes w' = nodes w /\ chans w' = chans w /\ sems_grow (sems w) (sems w').
Proof.
  induction fuel as [|fuel IH]; intros p w w'; simpl.
  - intros [= <-]. repeat split. apply sems_grow_refl.
  - destruct p as [|p']; simpl.
    + intros [= <-]. repeat split. apply sems_grow_refl.
    + cbv beta iota delta [bind get_data get_next node_get ret].
      destruct (load (nodes w) (S p')) as [n|] eqn:Hp; [|discriminate].
      destruct (sem_post (data n) w) as [a w1|w1| |w1] eqn:E.
      * apply sem_post_Ret in E. destruct E as (En & Ec & Eg & _).
        rewrite En, Hp. intros H. apply IH in H.
        destruct H as (Hn & Hc & Hg). repeat split; try congruence.
        eapply sems_grow_trans; eauto.
      * unfold sem_post in E. destruct (load (sems w) (data n)); discriminate.
      * discriminate.
      * unfold sem_post in E. destruct (load (sems w) (data n)); discriminate.
Qed.

Lemma walk_inv h p k q :
  walk h p k = Some q ->
  exists n, load h p = Some n /\
            match k with
            | O => q = p
            | S k' => walk h (next n) k' = Some q
            end.
Proof.
  destruct k as [|k']; simpl; destruct (load h p) as [n|]; try discriminate.
  - intros [= <-]. eauto.
  - eauto.
Qed.

(** Every node on the chain has its token posted once the walk has gone
    past it. *)
Lemma list_foreach_sem_post_posts fuel : forall p w k q n,
  walk (nodes w) p k = Some q -> load (nodes w) q = Some n ->
  (forall w', list_foreach_from fuel p sem_post w = Ret tt w' ->
     posted (data n) w w') /\
  (k < fuel ->
   forall w', list_foreach_from fuel p sem_post w = NoFuel w' ->
     posted (data n) w w').
Proof.
  induction fuel as [|fuel IH]; intros p w k q n Hw Hq.
  - split; [discriminate|lia].
  - apply walk_inv in Hw. destruct Hw as (np & Hp & Hw).
    destruct p as [|p']; [discriminate Hp|].
    simpl. cbv beta iota delta [bind get_data get_next node_get ret].
    rewrite Hp.
    destruct (sem_post (data np) w) as [a w1|w1| |w1] eqn:E;
      try (split; intros; discriminate).
    + apply sem_post_Ret in E. destruct E as (En & Ec & Eg & Ep).
      rewrite En, Hp.
      destruct k as [|k'].
      * subst q. rewrite Hp in Hq. injection Hq as <-.
        split; [intros w' H|intros _ w' H]; eapply posted_then_grow; eauto;
          eapply list_foreach_sem_post_frame; rewrite H; reflexivity.
      * rewrite <- En in Hw, Hq.
        destruct (IH (next np) w1 k' q n Hw Hq) as [IHr IHn].
        split; [intros w' H|intros Hlt w' H]; eapply grow_then_posted; eauto.
        apply IHn; [lia|exact H].
    + unfold sem_post in E. destruct (load (sems w) (data np)); discriminate.
Qed.

Lemma live_le_store s s2 d k k2 :
  load s d = Some k -> load s2 d = Some k2 -> live_le s s2 ->
  live_le (store s d (S k)) (store s2 d (S k2)).
Proof.
  intros Hd Hd2 Hl p. destruct (decide (d = p)) as [<-|Hne].
  - intros _. rewrite (load_store_eq _ _ _ _ Hd2). eauto.
  - rewrite !(load_store_ne _ _ _ _ Hne). apply Hl.
Qed.

(** A walk that returned returns again from any world with the same nodes
    in which the semaphores it posts are still live. *)
Lemma list_foreach_sem_post_again fuel : forall p w w' w2,
  list_foreach_from fuel p sem_post w = Ret tt w' ->
  nodes w2 = nodes w -> live_le (sems w) (sems w2) ->
  exists w2', list_foreach_from fuel p sem_post w2 = Ret tt w2'.
Proof.
  induction fuel as [|fuel IH]; intros p w w' w2; simpl; [discriminate|].
  destruct p as [|p']; simpl; [eauto|].
  cbv beta iota delta [bind get_data get_next node_get ret].
  intros H Hn Hl. rewrite Hn.
  destruct (load (nodes w) (S p')) as [n|] eqn:Hp; [|discriminate].
  unfold sem_post at 1. unfold sem_post at 1 in H.
  destruct (load (sems w) (data n)) as [k|] eqn:Hk; [|discriminate].
  destruct (Hl (data n)) as [k2 Hk2]; [rewrite Hk; eauto|].
  rewrite Hk2. simpl in *. rewrite Hn, Hp. rewrite Hp in H.
  eapply IH; [exact H|reflexivity|simpl].
  eapply live_le_store; eauto.
Qed.

Lemma post_selectors_frame fuel c w w' :
  final_world (post_selectors fuel c w) = Some w' ->
  nodes w' = nodes w /\ chans w' = chans w /\ sems_grow (sems w) (sems w').
Proof.
  unfold post_selectors, bind, chan_get.
  destruct (load (chans w) c) as [ch|]; [|discriminate].
  destruct (select ch) as [l|].
  - apply list_foreach_sem_post_frame.
  - intros [= <-]. repeat split. apply sems_grow_refl.
Qed.

Lemma post_selectors_Ret_frame fuel c w a w' :
  post_selectors fuel c w = Ret a w' ->
  nodes w' = nodes w /\ chans w' = chans w /\ sems_grow (sems w) (sems w').
Proof. intros H. apply (post_selectors_frame fuel c). rewrite H. reflexivity. Qed.

Lemma post_selectors_again fuel c w w' w2 ch ch2 :
  load (chans w) c = Some ch -> load (chans w2) c = Some ch2 ->
  select ch2 = select ch ->
  post_selectors fuel c w = Ret tt w' ->
  nodes w2 = nodes w -> live_le (sems w) (sems w2) ->
  exists w2', post_selectors fuel c w2 = Ret tt w2'.
Proof.
  intros H H2 Hs. rewrite (post_selectors_unfold _ _ _ _ H).
  rewrite (post_selectors_unfold _ _ _ _ H2), Hs.
  destruct (select ch) as [l|]; [|eauto].
  apply list_foreach_sem_post_again.
Qed.

Lemma try_send_SUCCESS_inv fuel w c ch v w' :
  load (chans w) c = Some ch ->
  channel_non_blocking_send fuel c v w = Ret SUCCESS w' ->
  is_closed ch = false /\
  length (items (buffer ch)) < capacity (buffer ch) /\
  post_selectors fuel c
    (with_chan w c {| buffer := {| capacity := capacity (buffer ch);
                                   items := items (buffer ch) ++ [v] |};
                      is_closed := false; select := select ch |}) = Ret tt w'.
Proof.
  intros H. destruct (is_closed ch) eqn:Hc.
  - rewrite (try_send_closed _ _ _ _ _ H Hc). discriminate.
  - destruct (Nat.lt_ge_cases (length (items (buffer ch))) (capacity (buffer ch)))
      as [Hroom|Hfull].
    + rewrite (try_send_room _ _ _ _ _ H Hc Hroom). intros Hr.
      apply bind_inv_Ret in Hr. destruct Hr as ([] & w1 & Hp & Hr).
      injection Hr as <-. auto.
    + rewrite (try_send_full _ _ _ _ _ H Hc Hfull). discriminate.
Qed.

Lemma try_receive_SUCCESS_inv fuel w c ch r w' :
  load (chans w) c = Some ch ->
  channel_non_blocking_receive fuel c w = Ret (SUCCESS, r) w' ->
  is_closed ch = false /\
  exists v rest, items (buffer ch) = v :: rest /\ r = Some v /\
    post_selectors fuel c
      (with_chan w c {| buffer := {| capacity := capacity (buffer ch);
                                     items := rest |};
                        is_closed := false; select := select ch |}) = Ret tt w'.
Proof.
  intros H. destruct (is_closed ch) eqn:Hc.
  - rewrite (try_receive_closed _ _ _ _ H Hc). discriminate.
  - destruct (items (buffer ch)) as [|v rest] eqn:Hi.
    + rewrite (try_receive_empty _ _ _ _ H Hc Hi). discriminate.
    + rewrite (try_receive_item _ _ _ _ _ _ H Hc Hi). intros Hr.
      apply bind_inv_Ret in Hr. destruct Hr as ([] & w1 & Hp & Hr).
      injection Hr as <- <-. split; [reflexivity|]. eauto.
Qed.

(** On every open channel, with or without selectors, a [try_send] that
    answers [SUCCESS] has put its value at the tail of the queue and a
    [try_receive] that answers [SUCCESS] has taken the value at the head. *)
Lemma try_send_appends fuel w c ch v w' :
  load (chans w) c = Some ch ->
  channel_non_blocking_send fuel c v w = Ret SUCCESS w' ->
  load (chans w') c =
    Some {| buffer := {| capacity := capacity (buffer ch);
                         items := items (buffer ch) ++ [v] |};
            is_closed := false; select := select ch |}.
Proof.
  intros H Hr. destruct (try_send_SUCCESS_inv _ _ _ _ _ _ H Hr) as (_ & _ & Hp).
  destruct (post_selectors_Ret_frame _ _ _ _ _ Hp) as (_ & -> & _).
  eapply load_with_chan; eauto.
Qed.

Lemma try_receive_takes_head fuel w c ch r w' :
  load (chans w) c = Some ch ->
  channel_non_blocking_receive fuel c w = Ret (SUCCESS, r) w' ->
  exists v rest,
    items (buffer ch) = v :: rest /\ r = Some v /\
    load (chans w') c =
      Some {| buffer := {| capacity := capacity (buffer ch); items := rest |};
              is_closed := false; select := select ch |}.
Proof.
  intros H Hr.
  destruct (try_receive_SUCCESS_inv _ _ _ _ _ _ H Hr) as (_ & v & rest & Hi & -> & Hp).
  destruct (post_selectors_Ret_frame _ _ _ _ _ Hp) as (_ & Hch & _).
  exists v, rest. repeat split; [exact Hi|].
  rewrite Hch. eapply load_with_chan; eauto.
Qed.

(** After a run of [try_send]s that all answered [SUCCESS] the buffer holds
    what it held before followed by the values sent. *)
Lemma try_send_all_SUCCESS fuel c vs : forall w ch ss w',
  load (chans w) c = Some ch -> is_closed ch = false ->
  try_send_all fuel c vs w = Ret ss w' -> Forall (eq SUCCESS) ss ->
  load (chans w') c =
    Some {| buffer := {| capacity := capacity (buffer ch);
                         items := items (buffer ch) ++ vs |};
            is_closed := false; select := select ch |} /\
  nodes w' = nodes w /\ sems_grow (sems w) (sems w').
Proof.
  induction vs as [|v vs IH]; intros w ch ss w' H Hc; simpl.
  - intros [= <- <-] _. rewrite app_nil_r. repeat split; [|apply sems_grow_refl].
    rewrite H. f_equal. destruct ch as [[cap its] cl sl]; simpl in *. congruence.
  - intros Hr Hall.
    apply bind_inv_Ret in Hr. destruct Hr as (s & w1 & Hs & Hr).
    apply bind_inv_Ret in Hr. destruct Hr as (ss' & w2 & Hss & Hr).
    injection Hr as <- <-. inversion Hall as [|? ? Hhd Htl]; subst.
    destruct (try_send_SUCCESS_inv _ _ _ _ _ _ H Hs) as (_ & Hroom & Hp).
    destruct (post_selectors_Ret_frame _ _ _ _ _ Hp) as (Hn1 & Hc1 & Hg1).
    assert (H1 : load (chans w1) c =
                   Some {| buffer := {| capacity := capacity (buffer ch);
                                        items := items (buffer ch) ++ [v] |};
                           is_closed := false; select := select ch |})
      by (rewrite Hc1; eapply load_with_chan; eauto).
    destruct (IH _ _ _ _ H1 eq_refl Hss Htl) as (Hl & Hn & Hg).
    simpl in *. rewrite <- app_assoc in Hl. simpl in Hl.
    repeat split; [exact Hl|congruence|].
    eapply sems_grow_trans; eauto.
Qed.

(** C5: on an open channel with an empty buffer of capacity [K], once [K]
    [try_send]s have answered [SUCCESS] (and nothing was received) the next
    [try_send] answers [CHANNEL_FULL] and changes nothing; and once a
    [try_receive] on that full channel has answered [SUCCESS] the next
    [try_send] answers [SUCCESS]. *)
Theorem C5_full_after_K_sends (fuel : nat) (w0 : world) (c : ptr)
  (ch : channel_t) (vs : list Z) (ss : list channel_status) (w1 : world) :
  load (chans w0) c = Some ch -> is_closed ch = false ->
  items (buffer ch) = [] -> length vs = capacity (buffer ch) ->
  try_send_all fuel c vs w0 = Ret ss w1 -> Forall (eq SUCCESS) ss ->
  (forall v, channel_non_blocking_send fuel c v w1 = Ret CHANNEL_FULL w1) /\
  (forall r w2,
     channel_non_blocking_receive fuel c w1 = Ret (SUCCESS, r) w2 ->
     forall v, exists w3, channel_non_blocking_send fuel c v w2 = Ret SUCCESS w3).
Proof.
  intros H Hc Hi Hlen Hrun Hall.
  destruct (try_send_all_SUCCESS _ _ _ _ _ _ _ H Hc Hrun Hall) as (H1 & Hn & Hg).
  rewrite Hi in H1. simpl in H1. split.
  - intros v. eapply try_send_full; [exact H1|reflexivity|]. simpl. lia.
  - intros r w2 Hrecv v.
    destruct (try_receive_SUCCESS_inv _ _ _ _ _ _ H1 Hrecv)
      as (_ & x & rest & Hvs & _ & Hp).
    simpl in Hvs, Hp.
    destruct (post_selectors_Ret_frame _ _ _ _ _ Hp) as (Hn2 & Hc2 & Hg2).
    set (ch2 := {| buffer := {| capacity := capacity (buffer ch); items := rest |};
                   is_closed := false; select := select ch |}) in *.
    assert (H1' : load (chans (with_chan w1 c ch2)) c = Some ch2)
      by (eapply load_with_chan; eauto).
    assert (H2 : load (chans w2) c = Some ch2) by (rewrite Hc2; exact H1').
    rewrite (try_send_room _ _ _ _ v H2 eq_refl).
    2:{ simpl. rewrite <- Hlen, Hvs. simpl. lia. }
    simpl.
    set (ch3 := {| buffer := {| capacity := capacity (buffer ch);
                                items := rest ++ [v] |};
                   is_closed := false; select := select ch |}).
    destruct (post_selectors_again fuel c (with_chan w1 c ch2) w2
                (with_chan w2 c ch3) ch2 ch3)
      as (w3 & Hp3); try reflexivity.
    + exact H1'.
    + eapply load_with_chan; eauto.
    + exact Hp.
    + simpl. rewrite Hn2. reflexivity.
    + simpl. apply sems_grow_live. exact Hg2.
    + exists w3. erewrite bind_Ret; [reflexivity|exact Hp3].
Qed.

Lemma C5_witness :
  (forall v, channel_non_blocking_send 1 1 v
               (with_chan (after_create empty_world 2) 1
                  {| buffer := {| capacity := 2; items := [1; 2]%Z |};
                     is_closed := false; select := Some list_create |})
             = Ret CHANNEL_FULL
                 (with_chan (after_create empty_world 2) 1
                    {| buffer := {| capacity := 2; items := [1; 2]%Z |};
                       is_closed := false; select := Some list_create |})) /\
  (forall r w2,
     channel_non_blocking_receive 1 1
       (with_chan (after_create empty_world 2) 1
          {| buffer := {| capacity := 2; items := [1; 2]%Z |};
             is_closed := false; select := Some list_create |})
     = Ret (SUCCESS, r) w2 ->
     forall v, exists w3, channel_non_blocking_send 1 1 v w2 = Ret SUCCESS w3).
Proof.
  apply (C5_full_after_K_sends 1 (after_create empty_world 2) 1
           (fresh_channel 2) [1; 2]%Z [SUCCESS; SUCCESS]).
  - reflexivity.
  - reflexivity.
  - reflexivity.
  - reflexivity.
  - reflexivity.
  - repeat constructor.
Defined.

Example select_waiting_reached :
  (let* c := channel_create 1 in
   channel_non_blocking_send 1 c 1 >>
   channel_select 2 [mk_select c SEND 1]) empty_world
  = Blocked select_waiting.
Proof. reflexivity. Qed.

(** ** The operations that change a channel *)

Lemma send_loop_full fuel w c ch v :
  load (chans w) c = Some ch ->
  capacity (buffer ch) <= length (items (buffer ch)) ->
  channel_send_loop fuel c v w = Blocked w.
Proof.
  intros H Hfull. unfold channel_send_loop.
  rewrite (bind_Ret _ _ _ _ _ (chan_get_ok _ _ _ H)). unfold buffer_add.
  destruct (Nat.ltb_spec (length (items (buffer ch))) (capacity (buffer ch))); [lia|].
  reflexivity.
Qed.

Lemma send_loop_room fuel w c ch v :
  load (chans w) c = Some ch ->
  length (items (buffer ch)) < capacity (buffer ch) ->
  channel_send_loop fuel c v w =
    (post_selectors fuel c >> ret SUCCESS)
      (with_chan w c {| buffer := {| capacity := capacity (buffer ch);
                                     items := items (buffer ch) ++ [v] |};
                        is_closed := is_closed ch; select := select ch |}).
Proof.
  intros H Hroom. unfold channel_send_loop.
  rewrite (bind_Ret _ _ _ _ _ (chan_get_ok _ _ _ H)). unfold buffer_add.
  destruct (Nat.ltb_spec (length (items (buffer ch))) (capacity (buffer ch))); [|lia].
  rewrite (bind_Ret _ _ _ _ _ (set_buffer_ok _ _ _ _ H)). reflexivity.
Qed.

Lemma receive_loop_empty fuel w c ch :
  load (chans w) c = Some ch -> items (buffer ch) = [] ->
  channel_receive_loop fuel c w = Blocked w.
Proof.
  intros H He. unfold channel_receive_loop.
  rewrite (bind_Ret _ _ _ _ _ (chan_get_ok _ _ _ H)). unfold buffer_remove.
  rewrite He. reflexivity.
Qed.

Lemma receive_loop_item fuel w c ch v rest :
  load (chans w) c = Some ch -> items (buffer ch) = v :: rest ->
  channel_receive_loop fuel c w =
    (post_selectors fuel c >> ret (SUCCESS, Some v))
      (with_chan w c {| buffer := {| capacity := capacity (buffer ch);
                                     items := rest |};
                        is_closed := is_closed ch; select := select ch |}).
Proof.
  intros H Hi. unfold channel_receive_loop.
  rewrite (bind_Ret _ _ _ _ _ (chan_get_ok _ _ _ H)). unfold buffer_remove.
  rewrite Hi.
  rewrite (bind_Ret _ _ _ _ _ (set_buffer_ok _ _ _ _ H)). reflexivity.
Qed.

Lemma close_closed fuel w c ch :
  load (chans w) c = Some ch -> is_closed ch = true ->
  channel_close fuel c w = Ret CLOSED_ERROR w.
Proof.
  intros H Hc. unfold channel_close.
  rewrite (bind_Ret _ _ _ _ _ (chan_get_ok _ _ _ H)), Hc. reflexivity.
Qed.

Lemma close_open fuel w c ch :
  load (chans w) c = Some ch -> is_closed ch = false ->
  channel_close fuel c w =
    (post_selectors fuel c >> ret SUCCESS)
      (with_chan w c {| buffer := buffer ch; is_closed := true;
                        select := select ch |}).
Proof.
  intros H Hc. unfold channel_close.
  rewrite (bind_Ret _ _ _ _ _ (chan_get_ok _ _ _ H)), Hc. simpl.
  rewrite (bind_Ret _ _ _ _ _ (set_is_closed_ok _ _ _ _ H)). reflexivity.
Qed.

Lemma send_closed fuel w c ch v :
  load (chans w) c = Some ch -> is_closed ch = true ->
  channel_send fuel c v w = Ret CLOSED_ERROR w.
Proof.
  intros H Hc. unfold channel_send.
  rewrite (bind_Ret _ _ _ _ _ (chan_get_ok _ _ _ H)), Hc. reflexivity.
Qed.

Lemma send_open fuel w c ch v :
  load (chans w) c = Some ch -> is_closed ch = false ->
  channel_send fuel c v w = channel_send_loop fuel c v w.
Proof.
  intros H Hc. unfold channel_send.
  rewrite (bind_Ret _ _ _ _ _ (chan_get_ok _ _ _ H)), Hc. reflexivity.
Qed.

Lemma receive_open fuel w c ch :
  load (chans w) c = Some ch -> is_closed ch = false ->
  channel_receive fuel c w = channel_receive_loop fuel c w.
Proof.
  intros H Hc. unfold channel_receive.
  rewrite (bind_Ret _ _ _ _ _ (chan_get_ok _ _ _ H)), Hc. reflexivity.
Qed.

Lemma send_wakeup_closed fuel w c ch v :
  load (chans w) c = Some ch -> is_closed ch = true ->
  channel_send_wakeup fuel c v w = Ret CLOSED_ERROR w.
Proof.
  intros H Hc. unfold channel_send_wakeup.
  rewrite (bind_Ret _ _ _ _ _ (chan_get_ok _ _ _ H)), Hc. reflexivity.
Qed.

Lemma send_wakeup_open fuel w c ch v :
  load (chans w) c = Some ch -> is_closed ch = false ->
  channel_send_wakeup fuel c v w = channel_send_loop fuel c v w.
Proof.
  intros H Hc. unfold channel_send_wakeup.
  rewrite (bind_Ret _ _ _ _ _ (chan_get_ok _ _ _ H)), Hc. reflexivity.
Qed.

Lemma receive_wakeup_closed fuel w c ch :
  load (chans w) c = Some ch -> is_closed ch = true ->
  channel_receive_wakeup fuel c w = Ret (CLOSED_ERROR, None) w.
Proof.
  intros H Hc. unfold channel_receive_wakeup.
  rewrite (bind_Ret _ _ _ _ _ (chan_get_ok _ _ _ H)), Hc. reflexivity.
Qed.

Lemma receive_wakeup_open fuel w c ch :
  load (chans w) c = Some ch -> is_closed ch = false ->
  channel_receive_wakeup fuel c w = channel_receive_loop fuel c w.
Proof.
  intros H Hc. unfold channel_receive_wakeup.
  rewrite (bind_Ret _ _ _ _ _ (chan_get_ok _ _ _ H)), Hc. reflexivity.
Qed.

(** The walk that follows a change of channel [c] posts to the token of
    every node of its selectors list, at the latest after as many steps as
    the node is deep. *)
Lemma change_then_post {A} (x : A) fuel w c ch ch' tok k :
  load (chans w) c = Some ch -> select ch' = select ch ->
  token_at w c k = Some tok ->
  (forall a w', (post_selectors fuel c >> ret x) (with_chan w c ch') = Ret a w' ->
     posted tok w w') /\
  (k < fuel ->
   forall w', (post_selectors fuel c >> ret x) (with_chan w c ch') = NoFuel w' ->
     posted tok w w').
Proof.
  intros H Hs Ht. unfold token_at in Ht. rewrite H in Ht.
  assert (H' : load (chans (with_chan w c ch')) c = Some ch')
    by (eapply load_with_chan; eauto).
  unfold bind. rewrite (post_selectors_unfold _ _ _ _ H'), Hs.
  destruct (select ch) as [l|]; [|discriminate].
  destruct (walk (nodes w) (head l) k) as [q|] eqn:Hw; [|discriminate].
  destruct (load (nodes w) q) as [n|] eqn:Hq; [|discriminate].
  injection Ht as <-.
  destruct (list_foreach_sem_post_posts fuel (head l) (with_chan w c ch') k q n Hw Hq)
    as [Hr Hn].
  split.
  - intros a w' E.
    destruct (list_foreach_from fuel (head l) sem_post (with_chan w c ch'))
      as [[] w1|w1| |w1] eqn:Ef; try discriminate.
    injection E as _ <-. exact (Hr _ eq_refl).
  - intros Hlt w' E.
    destruct (list_foreach_from fuel (head l) sem_post (with_chan w c ch'))
      as [[] w1|w1| |w1] eqn:Ef; try discriminate.
    injection E as <-. exact (Hn Hlt _ eq_refl).
Qed.

Lemma token_at_chan w c k tok :
  token_at w c k = Some tok -> exists ch, load (chans w) c = Some ch.
Proof. unfold token_at. destruct (load (chans w) c); [eauto|discriminate]. Qed.

Ltac no_post := split; [intros ? ?|intros _ ? ?]; discriminate.

Ltac posts_by_walk H Ht :=
  match goal with
  | |- context [(post_selectors ?fuel ?c >> ret ?x) (with_chan ?w ?c ?ch')] =>
      let Hr := fresh "Hr" in
      let Hn := fresh "Hn" in
      destruct (change_then_post x fuel w c _ ch' _ _ H eq_refl Ht) as [Hr Hn];
      split; [intros ? ?; eapply Hr; eassumption
             |intros ? ? ?; eapply Hn; eassumption]
  end.

Lemma try_send_posts fuel w c tok k v :
  token_at w c k = Some tok ->
  (forall w', channel_non_blocking_send fuel c v w = Ret SUCCESS w' ->
     posted tok w w') /\
  (k < fuel ->
   forall w', channel_non_blocking_send fuel c v w = NoFuel w' -> posted tok w w').
Proof.
  intros Ht. destruct (token_at_chan _ _ _ _ Ht) as [ch H].
  destruct (is_closed ch) eqn:Hc.
  - rewrite (try_send_closed _ _ _ _ _ H Hc). no_post.
  - destruct (Nat.lt_ge_cases (length (items (buffer ch))) (capacity (buffer ch)))
      as [Hroom|Hfull].
    + rewrite (try_send_room _ _ _ _ _ H Hc Hroom). posts_by_walk H Ht.
    + rewrite (try_send_full _ _ _ _ _ H Hc Hfull). no_post.
Qed.

Lemma send_posts fuel w c tok k v :
  token_at w c k = Some tok ->
  (forall w', channel_send fuel c v w = Ret SUCCESS w' -> posted tok w w') /\
  (k < fuel ->
   forall w', channel_send fuel c v w = NoFuel w' -> posted tok w w').
Proof.
  intros Ht. destruct (token_at_chan _ _ _ _ Ht) as [ch H].
  destruct (is_closed ch) eqn:Hc.
  - rewrite (send_closed _ _ _ _ _ H Hc). no_post.
  - rewrite (send_open _ _ _ _ _ H Hc).
    destruct (Nat.lt_ge_cases (length (items (buffer ch))) (capacity (buffer ch)))
      as [Hroom|Hfull].
    + rewrite (send_loop_room _ _ _ _ _ H Hroom). posts_by_walk H Ht.
    + rewrite (send_loop_full _ _ _ _ _ H Hfull). no_post.
Qed.

Lemma try_receive_posts fuel w c tok k :
  token_at w c k = Some tok ->
  (forall r w', channel_non_blocking_receive fuel c w = Ret (SUCCESS, r) w' ->
     posted tok w w') /\
  (k < fuel ->
   forall w', channel_non_blocking_receive fuel c w = NoFuel w' -> posted tok w w').
Proof.
  intros Ht. destruct (token_at_chan _ _ _ _ Ht) as [ch H].
  destruct (is_closed ch) eqn:Hc.
  - rewrite (try_receive_closed _ _ _ _ H Hc).
    split; [intros ? ? E|intros _ ? E]; discriminate E.
  - destruct (items (buffer ch)) as [|x rest] eqn:Hi.
    + rewrite (try_receive_empty _ _ _ _ H Hc Hi).
      split; [intros ? ? E|intros _ ? E]; discriminate E.
    + rewrite (try_receive_item _ _ _ _ _ _ H Hc Hi).
      destruct (change_then_post (SUCCESS, Some x) fuel w c _
                  {| buffer := {| capacity := capacity (buffer ch); items := rest |};
                     is_closed := false; select := select ch |} _ _ H eq_refl Ht)
        as [Hr Hn].
      split; [intros ? ? E; exact (Hr _ _ E)|intros Hlt ? E; exact (Hn Hlt _ E)].
Qed.

Lemma receive_posts fuel w c tok k :
  token_at w c k = Some tok ->
  (forall r w', channel_receive fuel c w = Ret (SUCCESS, r) w' -> posted tok w w') /\
  (k < fuel ->
   forall w', channel_receive fuel c w = NoFuel w' -> posted tok w w').
Proof.
  intros Ht. destruct (token_at_chan _ _ _ _ Ht) as [ch H].
  destruct (is_closed ch) eqn:Hc.
  - rewrite (receive_closed _ _ _ _ H Hc).
    split; [intros ? ? E|intros _ ? E]; discriminate E.
  - rewrite (receive_open _ _ _ _ H Hc).
    destruct (items (buffer ch)) as [|x rest] eqn:Hi.
    + rewrite (receive_loop_empty _ _ _ _ H Hi).
      split; [intros ? ? E|intros _ ? E]; discriminate E.
    + rewrite (receive_loop_item _ _ _ _ _ _ H Hi).
      destruct (change_then_post (SUCCESS, Some x) fuel w c _
                  {| buffer := {| capacity := capacity (buffer ch); items := rest |};
                     is_closed := is_closed ch; select := select ch |} _ _ H eq_refl Ht)
        as [Hr Hn].
      split; [intros ? ? E; exact (Hr _ _ E)|intros Hlt ? E; exact (Hn Hlt _ E)].
Qed.

Lemma send_wakeup_posts fuel w c tok k v :
  token_at w c k = Some tok ->
  (forall w', channel_send_wakeup fuel c v w = Ret SUCCESS w' -> posted tok w w') /\
  (k < fuel ->
   forall w', channel_send_wakeup fuel c v w = NoFuel w' -> posted tok w w').
Proof.
  intros Ht. destruct (token_at_chan _ _ _ _ Ht) as [ch H].
  destruct (is_closed ch) eqn:Hc.
  - rewrite (send_wakeup_closed _ _ _ _ _ H Hc). no_post.
  - rewrite (send_wakeup_open _ _ _ _ _ H Hc).
    destruct (Nat.lt_ge_cases (length (items (buffer ch))) (capacity (buffer ch)))
      as [Hroom|Hfull].
    + rewrite (send_loop_room _ _ _ _ _ H Hroom). posts_by_walk H Ht.
    + rewrite (send_loop_full _ _ _ _ _ H Hfull). no_post.
Qed.

Lemma receive_wakeup_posts fuel w c tok k :
  token_at w c k = Some tok ->
  (forall r w', channel_receive_wakeup fuel c w = Ret (SUCCESS, r) w' ->
     posted tok w w') /\
  (k < fuel ->
   forall w', channel_receive_wakeup fuel c w = NoFuel w' -> posted tok w w').
Proof.
  intros Ht. destruct (token_at_chan _ _ _ _ Ht) as [ch H].
  destruct (is_closed ch) eqn:Hc.
  - rewrite (receive_wakeup_closed _ _ _ _ H Hc).
    split; [intros ? ? E|intros _ ? E]; discriminate E.
  - rewrite (receive_wakeup_open _ _ _ _ H Hc).
    destruct (items (buffer ch)) as [|x rest] eqn:Hi.
    + rewrite (receive_loop_empty _ _ _ _ H Hi).
      split; [intros ? ? E|intros _ ? E]; discriminate E.
    + rewrite (receive_loop_item _ _ _ _ _ _ H Hi).
      destruct (change_then_post (SUCCESS, Some x) fuel w c _
                  {| buffer := {| capacity := capacity (buffer ch); items := rest |};
                     is_closed := is_closed ch; select := select ch |} _ _ H eq_refl Ht)
        as [Hr Hn].
      split; [intros ? ? E; exact (Hr _ _ E)|intros Hlt ? E; exact (Hn Hlt _ E)].
Qed.

Lemma close_posts fuel w c tok k :
  token_at w c k = Some tok ->
  (forall w', channel_close fuel c w = Ret SUCCESS w' -> posted tok w w') /\
  (k < fuel ->
   forall w', channel_close fuel c w = NoFuel w' -> posted tok w w').
Proof.
  intros Ht. destruct (token_at_chan _ _ _ _ Ht) as [ch H].
  destruct (is_closed ch) eqn:Hc.
  - rewrite (close_closed _ _ _ _ H Hc). no_post.
  - rewrite (close_open _ _ _ _ H Hc). posts_by_walk H Ht.
Qed.

(** C7: whenever [channel_send], [channel_non_blocking_send],
    [channel_receive], [channel_non_blocking_receive] or [channel_close]
    returns [SUCCESS] (for the two blocking calls also when they had to wait
    and were woken), every token stored in the selectors list of the channel
    has been posted before the return; and a call that is still walking the
    list after more steps than a token is deep has posted to that token as
    well. *)
Theorem C7_success_posts_every_selector (w : world) (c tok : ptr) (k : nat) :
  token_at w c k = Some tok ->
  forall (fuel : nat) (w' : world),
    ((forall v, channel_send fuel c v w = Ret SUCCESS w' -> posted tok w w') /\
     (forall v, channel_send_wakeup fuel c v w = Ret SUCCESS w' ->
        posted tok w w') /\
     (forall v, channel_non_blocking_send fuel c v w = Ret SUCCESS w' ->
        posted tok w w') /\
     (forall r, channel_receive fuel c w = Ret (SUCCESS, r) w' -> posted tok w w') /\
     (forall r, channel_receive_wakeup fuel c w = Ret (SUCCESS, r) w' ->
        posted tok w w') /\
     (forall r, channel_non_blocking_receive fuel c w = Ret (SUCCESS, r) w' ->
        posted tok w w') /\
     (channel_close fuel c w = Ret SUCCESS w' -> posted tok w w')) /\
    (k < fuel ->
     (forall v, channel_send fuel c v w = NoFuel w' -> posted tok w w') /\
     (forall v, channel_send_wakeup fuel c v w = NoFuel w' -> posted tok w w') /\
     (forall v, channel_non_blocking_send fuel c v w = NoFuel w' ->
        posted tok w w') /\
     (channel_receive fuel c w = NoFuel w' -> posted tok w w') /\
     (channel_receive_wakeup fuel c w = NoFuel w' -> posted tok w w') /\
     (channel_non_blocking_receive fuel c w = NoFuel w' -> posted tok w w') /\
     (channel_close fuel c w = NoFuel w' -> posted tok w w')).
Proof.
  intros Ht fuel w'. split; [|intros Hlt]; repeat split.
  - intros v. apply (send_posts fuel w c tok k v Ht).
  - intros v. apply (send_wakeup_posts fuel w c tok k v Ht).
  - intros v. apply (try_send_posts fuel w c tok k v Ht).
  - intros r. apply (receive_posts fuel w c tok k Ht).
  - intros r. apply (receive_wakeup_posts fuel w c tok k Ht).
  - intros r. apply (try_receive_posts fuel w c tok k Ht).
  - apply (close_posts fuel w c tok k Ht).
  - intros v. apply (send_posts fuel w c tok k v Ht); exact Hlt.
  - intros v. apply (send_wakeup_posts fuel w c tok k v Ht); exact Hlt.
  - intros v. apply (try_send_posts fuel w c tok k v Ht); exact Hlt.
  - apply (receive_posts fuel w c tok k Ht); exact Hlt.
  - apply (receive_wakeup_posts fuel w c tok k Ht); exact Hlt.
  - apply (try_receive_posts fuel w c tok k Ht); exact Hlt.
  - apply (close_posts fuel w c tok k Ht); exact Hlt.
Qed.

Lemma C7_witness :
  token_at select_waiting 1 0 = Some 1 /\
  forall (fuel : nat) (w' : world),
    ((forall v, channel_send fuel 1 v select_waiting = Ret SUCCESS w' ->
        posted 1 select_waiting w') /\
     (forall v, channel_send_wakeup fuel 1 v select_waiting = Ret SUCCESS w' ->
        posted 1 select_waiting w') /\
     (forall v, channel_non_blocking_send fuel 1 v select_waiting = Ret SUCCESS w' ->
        posted 1 select_waiting w') /\
     (forall r, channel_receive fuel 1 select_waiting = Ret (SUCCESS, r) w' ->
        posted 1 select_waiting w') /\
     (forall r, channel_receive_wakeup fuel 1 select_waiting = Ret (SUCCESS, r) w' ->
        posted 1 select_waiting w') /\
     (forall r, channel_non_blocking_receive fuel 1 select_waiting
                = Ret (SUCCESS, r) w' -> posted 1 select_waiting w') /\
     (channel_close fuel 1 select_waiting = Ret SUCCESS w' ->
        posted 1 select_waiting w')) /\
    (0 < fuel ->
     (forall v, channel_send fuel 1 v select_waiting = NoFuel w' ->
        posted 1 select_waiting w') /\
     (forall v, channel_send_wakeup fuel 1 v select_waiting = NoFuel w' ->
        posted 1 select_waiting w') /\
     (forall v, channel_non_blocking_send fuel 1 v select_waiting = NoFuel w' ->
        posted 1 select_waiting w') /\
     (channel_receive fuel 1 select_waiting = NoFuel w' ->
        posted 1 select_waiting w') /\
     (channel_receive_wakeup fuel 1 select_waiting = NoFuel w' ->
        posted 1 select_waiting w') /\
     (channel_non_blocking_receive fuel 1 select_waiting = NoFuel w' ->
        posted 1 select_waiting w') /\
     (channel_close fuel 1 select_waiting = NoFuel w' ->
        posted 1 select_waiting w')).
Proof.
  split; [reflexivity|].
  apply (C7_success_posts_every_selector select_waiting 1 1 0).
  reflexivity.
Defined.

(** A returning instance: both tokens of a well-formed two-node list are
    posted by a successful [try_send]. *)
Example try_send_posts_two_selectors :
  channel_non_blocking_send 3 1 5%Z two_selectors =
    Ret SUCCESS
      {| nodes := nodes two_selectors;
         sems := [Some 1; Some 1];
         chans := [Some {| buffer := {| capacity := 1; items := [5%Z] |};
                           is_closed := false;
                           select := Some {| head := 1; count := 2 |} |}] |}.
Proof. reflexivity. Qed.

(** An instance on the list [list_insert] builds: the receive takes the
    value out, posts the waiting token over and over and is still walking
    when the fuel is gone. *)
Example try_receive_posts_select_waiting :
  channel_non_blocking_receive 3 1 select_waiting =
    NoFuel
      {| nodes := nodes select_waiting;
         sems := [Some 3];
         chans := [Some {| buffer := {| capacity := 1; items := [] |};
                           is_closed := false;
                           select := Some {| head := 1; count := 1 |} |}] |}.
Proof. reflexivity. Qed.

(** ** Walks over the lists [list_insert] builds *)

Lemma post_selectors_self_loop fuel w c ch l n :
  load (chans w) c = Some ch -> select ch = Some l ->
  load (nodes w) (head l) = Some n -> next n = head l ->
  is_Some (load (sems w) (data n)) ->
  exists w', post_selectors fuel c w = NoFuel w'.
Proof.
  intros H Hs Hn Hnext Hlive.
  rewrite (post_selectors_unfold _ _ _ _ H), Hs.
  eapply list_foreach_self_loop_sem_post; eauto.
Qed.

Lemma close_self_loop fuel w c ch l n :
  load (chans w) c = Some ch -> is_closed ch = false -> select ch = Some l ->
  load (nodes w) (head l) = Some n -> next n = head l ->
  is_Some (load (sems w) (data n)) ->
  exists w', channel_close fuel c w = NoFuel w' /\ closed_in w' c.
Proof.
  intros H Hc Hs Hn Hnext Hlive. rewrite (close_open _ _ _ _ H Hc).
  set (ch' := {| buffer := buffer ch; is_closed := true; select := select ch |}).
  assert (H' : load (chans (with_chan w c ch')) c = Some ch')
    by (eapply load_with_chan; eauto).
  destruct (post_selectors_self_loop fuel (with_chan w c ch') c ch' l n)
    as [w' Hw']; auto.
  exists w'. split; [apply bind_NoFuel; exact Hw'|].
  destruct (post_selectors_frame fuel c (with_chan w c ch') w') as (_ & Hch & _);
    [rewrite Hw'; reflexivity|].
  exists ch'. rewrite Hch. auto.
Qed.

Lemma try_receive_self_loop fuel w c ch l n v rest :
  load (chans w) c = Some ch -> is_closed ch = false ->
  items (buffer ch) = v :: rest -> select ch = Some l ->
  load (nodes w) (head l) = Some n -> next n = head l ->
  is_Some (load (sems w) (data n)) ->
  exists w', channel_non_blocking_receive fuel c w = NoFuel w'.
Proof.
  intros H Hc Hi Hs Hn Hnext Hlive.
  rewrite (try_receive_item _ _ _ _ _ _ H Hc Hi).
  set (ch' := {| buffer := {| capacity := capacity (buffer ch); items := rest |};
                 is_closed := false; select := select ch |}).
  assert (H' : load (chans (with_chan w c ch')) c = Some ch')
    by (eapply load_with_chan; eauto).
  destruct (post_selectors_self_loop fuel (with_chan w c ch') c ch' l n)
    as [w' Hw']; auto.
  exists w'. apply bind_NoFuel. exact Hw'.
Qed.

(** C6, where the code departs from it: with the token of a waiting
    [channel_select] in the selectors list (scenario 5 of the
    specification), [channel_close] on the open channel sets the flag and
    then walks the list without end; no amount of fuel makes it return
    [SUCCESS]. *)
Theorem C6_close_never_returns_with_waiting_select (fuel : nat) :
  exists w', channel_close fuel 1 select_waiting = NoFuel w' /\ closed_in w' 1.
Proof.
  eapply (close_self_loop fuel select_waiting 1 _ _
            {| data := 1; next := 1; prev := 1 |});
    try reflexivity.
  simpl. eauto.
Qed.

Example tie_break_start_reached :
  (let* c1 := channel_create 1 in
   let* c2 := channel_create 1 in
   channel_non_blocking_send 1 c1 9 >> ret (c1, c2)) empty_world
  = Ret (1, 2) tie_break_start.
Proof. reflexivity. Qed.

Example tie_break_registration :
  (let* sel := sem_init in
   let* early := select_register sel tie_break_intents in
   ret (sel, early)) tie_break_start
  = Ret (1, None) tie_break_registered.
Proof. reflexivity. Qed.

(** C8, where the code departs from it: in scenario 4 of the specification
    the receive on [c1] takes the value 9 out and then walks the selectors
    list of [c1], whose only node points at itself, so [channel_select]
    never returns [SUCCESS] with index 0: it is still running whatever the
    fuel. *)
Theorem C8_tie_break_select_never_returns (fuel : nat) :
  exists w', channel_select fuel tie_break_intents tie_break_start = NoFuel w'.
Proof.
  unfold channel_select.
  rewrite (bind_Ret _ _ tie_break_start 1
             {| nodes := []; sems := [Some 0]; chans := chans tie_break_start |})
    by reflexivity.
  rewrite (bind_Ret _ _ _ None tie_break_registered) by reflexivity.
  destruct fuel as [|fuel]; simpl; [eauto|].
  destruct (try_receive_self_loop fuel tie_break_registered 1
              {| buffer := {| capacity := 1; items := [9%Z] |};
                 is_closed := false;
                 select := Some {| head := 1; count := 1 |} |}
              {| head := 1; count := 1 |}
              {| data := 1; next := 1; prev := 1 |} 9%Z [])
    as [w' Hw']; try reflexivity.
  - simpl. eauto.
  - exists w'. apply bind_NoFuel. apply bind_NoFuel. exact Hw'.
Qed.

Lemma try_send_self_loop fuel w c ch l n v :
  load (chans w) c = Some ch -> is_closed ch = false ->
  length (items (buffer ch)) < capacity (buffer ch) -> select ch = Some l ->
  load (nodes w) (head l) = Some n -> next n = head l ->
  is_Some (load (sems w) (data n)) ->
  exists w', channel_non_blocking_send fuel c v w = NoFuel w'.
Proof.
  intros H Hc Hroom Hs Hn Hnext Hlive.
  rewrite (try_send_room _ _ _ _ _ H Hc Hroom).
  set (ch' := {| buffer := {| capacity := capacity (buffer ch);
                              items := items (buffer ch) ++ [v] |};
                 is_closed := false; select := select ch |}).
  assert (H' : load (chans (with_chan w c ch')) c = Some ch')
    by (eapply load_with_chan; eauto).
  destruct (post_selectors_self_loop fuel (with_chan w c ch') c ch' l n)
    as [w' Hw']; auto.
  exists w'. apply bind_NoFuel. exact Hw'.
Qed.

(** Whatever the two buffers hold, the select of scenario 4 does not return:
    an intent that is ready sends the call into the endless walk, and with
    no intent ready it suspends in [sem_wait]. *)
Lemma tie_break_never_returns_any_buffers (fuel : nat) (b1 b2 : buffer_t)
  (r : select_result) (w' : world) :
  channel_select fuel tie_break_intents (two_open_channels b1 b2) <> Ret r w'.
Proof.
  unfold channel_select.
  rewrite (bind_Ret _ _ (two_open_channels b1 b2) 1
             {| nodes := []; sems := [Some 0];
                chans := chans (two_open_channels b1 b2) |})
    by reflexivity.
  rewrite (bind_Ret _ _ _ None (two_registered b1 b2)) by reflexivity.
  destruct fuel as [|fuel]; simpl; [discriminate|].
  set (ch1 := {| buffer := b1; is_closed := false;
                 select := Some {| head := 1; count := 1 |} |}).
  set (ch2 := {| buffer := b2; is_closed := false;
                 select := Some {| head := 2; count := 1 |} |}).
  assert (H1 : load (chans (two_registered b1 b2)) 1 = Some ch1) by reflexivity.
  assert (H2 : load (chans (two_registered b1 b2)) 2 = Some ch2) by reflexivity.
  assert (Hsweep :
            select_sweep fuel 1 tie_break_intents tie_break_intents 0
              (two_registered b1 b2) = Ret None (two_registered b1 b2) \/
            exists w1, select_sweep fuel 1 tie_break_intents tie_break_intents 0
                         (two_registered b1 b2) = NoFuel w1).
  { simpl. destruct (items b1) as [|v rest] eqn:Hi1.
    - erewrite bind_Ret by (eapply try_receive_empty; eauto). simpl.
      destruct (Nat.lt_ge_cases (length (items b2)) (capacity b2)) as [Hroom|Hfull].
      + right.
        destruct (try_send_self_loop fuel (two_registered b1 b2) 2 ch2
                    {| head := 2; count := 1 |}
                    {| data := 1; next := 2; prev := 2 |} 5%Z)
          as [w1 Hw1]; try reflexivity; [exact Hroom|simpl; eauto|].
        exists w1. apply bind_NoFuel. apply bind_NoFuel. exact Hw1.
      + left. erewrite bind_Ret.
        2:{ erewrite bind_Ret by (eapply try_send_full; eauto). reflexivity. }
        reflexivity.
    - right.
      destruct (try_receive_self_loop fuel (two_registered b1 b2) 1 ch1
                  {| head := 1; count := 1 |}
                  {| data := 1; next := 1; prev := 1 |} v rest)
        as [w1 Hw1]; try reflexivity; [exact Hi1|simpl; eauto|].
      exists w1. apply bind_NoFuel. exact Hw1. }
  destruct Hsweep as [Hs|[w1 Hs]].
  - rewrite (bind_Ret _ _ _ _ _ Hs). unfold bind, sem_wait. simpl. discriminate.
  - rewrite (bind_NoFuel _ _ _ _ Hs). discriminate.
Qed.

(** ** The scenario of C4 with a select waiting *)

Example fifo_select_waiting_reached :
  (let* c := channel_create 2 in
   channel_select 2 [mk_select c RECV 0%Z]) empty_world
  = Blocked fifo_select_waiting.
Proof. reflexivity. Qed.

Lemma store_same {A} (h : list (option A)) (p : ptr) (a : A) :
  load h p = Some a -> store h p a = h.
Proof.
  destruct p as [|i]; [reflexivity|]. unfold load, store.
  destruct (h !! i) as [[x|]|] eqn:E; try discriminate.
  intros [= ->]. apply list_insert_id. exact E.
Qed.

Lemma store_store {A} (h : list (option A)) (p : ptr) (a b : A) :
  store (store h p a) p b = store h p b.
Proof.
  destruct p as [|i]; [reflexivity|]. unfold store. apply list_insert_insert_eq.
Qed.

(** The walk over a node whose [next] is the node itself, with [sem_post]
    on a live semaphore: after [fuel] steps it is still running and has
    posted [fuel] times. *)
Lemma list_foreach_self_loop_counts (p : ptr) (n : list_node_t) :
  next n = p ->
  forall fuel w k,
    load (nodes w) p = Some n -> load (sems w) (data n) = Some k ->
    list_foreach_from fuel p sem_post w =
      NoFuel {| nodes := nodes w; sems := store (sems w) (data n) (k + fuel);
                chans := chans w |}.
Proof.
  intros Hn fuel. induction fuel as [|fuel IH]; intros w k Hp Hk.
  - simpl. rewrite Nat.add_0_r, (store_same _ _ _ Hk). destruct w; reflexivity.
  - destruct p as [|p']; [discriminate Hp|]. simpl.
    cbv beta iota delta [bind get_data get_next node_get ret]. rewrite Hp.
    unfold sem_post at 1. rewrite Hk. simpl. rewrite Hp, Hn.
    rewrite (IH _ (S k)); simpl; [|exact Hp|apply (load_store_eq _ _ _ _ Hk)].
    rewrite store_store, Nat.add_succ_r. reflexivity.
Qed.

(** C4, where the code departs from it: the claim speaks of every open
    channel, and on the channel of scenario 1 with another thread's select
    waiting on it the first [try_send] does not return [SUCCESS].  It puts
    the value 1 in the buffer and then walks the selectors list, whose only
    node points at itself: after any number of steps it is still running,
    having posted the token once per step. *)
Theorem C4_try_send_never_returns_with_waiting_select (fuel : nat) :
  channel_non_blocking_send fuel 1 1%Z fifo_select_waiting
  = NoFuel (fifo_walking fuel).
Proof.
  rewrite (try_send_room fuel fifo_select_waiting 1
             {| buffer := buffer_create 2; is_closed := false;
                select := Some {| head := 1; count := 1 |} |} 1%Z);
    [|reflexivity|reflexivity|simpl; lia].
  apply bind_NoFuel.
  rewrite (post_selectors_unfold fuel _ 1
             {| buffer := {| capacity := 2; items := [1%Z] |}; is_closed := false;
                select := Some {| head := 1; count := 1 |} |}) by reflexivity.
  simpl. unfold list_foreach. simpl.
  rewrite (list_foreach_self_loop_counts 1 {| data := 1; next := 1; prev := 1 |}
             eq_refl fuel _ 0) by reflexivity.
  reflexivity.
Qed.

(** Whatever the buffer of that channel holds and whatever its capacity, a
    [try_send] on it does not return [SUCCESS]: either there is no room, or
    the value goes in and the walk over the selectors does not end. *)
Lemma try_send_with_waiting_select_any_buffer (fuel : nat) (b : buffer_t)
  (v : Z) (w' : world) :
  channel_non_blocking_send fuel 1 v (fifo_select_waiting_with b)
  <> Ret SUCCESS w'.
Proof.
  set (ch := {| buffer := b; is_closed := false;
                select := Some {| head := 1; count := 1 |} |}).
  assert (H : load (chans (fifo_select_waiting_with b)) 1 = Some ch) by reflexivity.
  destruct (Nat.lt_ge_cases (length (items b)) (capacity b)) as [Hroom|Hfull].
  - destruct (try_send_self_loop fuel (fifo_select_waiting_with b) 1 ch
                {| head := 1; count := 1 |}
                {| data := 1; next := 1; prev := 1 |} v)
      as [w1 Hw1]; try reflexivity; [exact Hroom|simpl; eauto|].
    rewrite Hw1. discriminate.
  - rewrite (try_send_full _ _ _ ch v H eq_refl Hfull). discriminate.
Qed.

(** Without a selector registered the scenario runs as the claim has it, on
    every open channel of capacity 2 with an empty buffer, in any world. *)
Lemma fifo_scenario_without_selectors (fuel : nat) (w : world) (c : ptr)
  (ch : channel_t) (l : list_t) :
  load (chans w) c = Some ch -> is_closed ch = false ->
  select ch = Some l -> head l = NULL ->
  capacity (buffer ch) = 2 -> items (buffer ch) = [] ->
  (let* sent := try_send_all (S fuel) c [1; 2]%Z in
   let* over := channel_non_blocking_send (S fuel) c 3%Z in
   let* got := try_receive_n (S fuel) c 2 in
   let* last := channel_non_blocking_receive (S fuel) c in
   ret (sent, over, got, last)) w
  = Ret ([SUCCESS; SUCCESS], CHANNEL_FULL,
         [(SUCCESS, Some 1%Z); (SUCCESS, Some 2%Z)], (CHANNEL_EMPTY, None))
        (with_chan w c {| buffer := {| capacity := 2; items := [] |};
                          is_closed := false; select := Some l |}).
Proof.
  intros H Hc Hs Hh Hcap Hi.
  erewrite bind_Ret.
  2:{ eapply (try_send_all_no_selectors fuel c l [1; 2]%Z w ch); eauto.
      rewrite Hi, Hcap. simpl. lia. }
  rewrite Hi, Hcap. simpl app.
  set (ch1 := {| buffer := {| capacity := 2; items := [1; 2]%Z |};
                 is_closed := false; select := Some l |}).
  assert (H1 : load (chans (with_chan w c ch1)) c = Some ch1)
    by (eapply load_with_chan; eauto).
  erewrite bind_Ret.
  2:{ eapply try_send_full; [exact H1|reflexivity|]. simpl. lia. }
  erewrite bind_Ret.
  2:{ eapply (try_receive_n_no_selectors fuel c l [1; 2]%Z _ ch1 []);
      [exact H1|reflexivity|reflexivity|exact Hh|reflexivity]. }
  simpl. rewrite with_chan_twice.
  erewrite bind_Ret.
  2:{ eapply try_receive_empty; [eapply load_with_chan; eauto|reflexivity|reflexivity]. }
  reflexivity.
Qed.

(** ** The early return of [channel_select] *)

Lemma sem_init_ok w :
  sem_init w = Ret (S (length (sems w)))
                 {| nodes := nodes w; sems := sems w ++ [Some 0]; chans := chans w |}.
Proof. reflexivity. Qed.

(** C2, where the code departs from it: when the first intent names a closed
    channel the registration loop returns [CLOSED_ERROR] at once; nothing is
    stored in [*selected_index] (the claim wants index 0 there) and nothing
    else changes but the semaphore slot, created and destroyed. *)
Theorem C2_early_return_stores_no_index (fuel : nat) (w : world) (s : select_t)
  (rest : list select_t) :
  closed_in w (channel s) ->
  channel_select fuel (s :: rest) w =
    Ret (CLOSED_ERROR, None, None)
        {| nodes := nodes w; sems := sems w ++ [None]; chans := chans w |}.
Proof.
  intros (ch & H & Hc). unfold channel_select.
  rewrite (bind_Ret _ _ _ _ _ (sem_init_ok w)). simpl.
  erewrite bind_Ret.
  2:{ erewrite bind_Ret by (apply chan_get_ok; exact H). rewrite Hc.
      erewrite bind_Ret; [reflexivity|].
      unfold sem_destroy. simpl. rewrite load_alloc. reflexivity. }
  simpl. rewrite release_alloc. reflexivity.
Qed.

Lemma C2_witness :
  channel_select 5 [mk_select 1 RECV 0%Z] closed_with_item =
    Ret (CLOSED_ERROR, None, None)
        {| nodes := nodes closed_with_item;
           sems := sems closed_with_item ++ [None];
           chans := chans closed_with_item |}.
Proof.
  apply (C2_early_return_stores_no_index 5 closed_with_item
           (mk_select 1 RECV 0%Z) []).
  exists {| buffer := {| capacity := 1; items := [7%Z] |};
            is_closed := true; select := Some list_create |}.
  split; reflexivity.
Defined.

(** The same with the closed channel in second place: index 1 is not
    stored either. *)
Example early_return_second_intent :
  channel_select 5 [mk_select 1 RECV 0%Z; mk_select 2 RECV 0%Z]
    one_open_one_closed
  = Ret (CLOSED_ERROR, None, None)
      {| nodes := [Some {| data := 1; next := 1; prev := 1 |}];
         sems := [None];
         chans := [Some {| buffer := {| capacity := 1; items := [] |};
                           is_closed := false;
                           select := Some {| head := 1; count := 1 |} |};
                   Some {| buffer := {| capacity := 1; items := [] |};
                           is_closed := true; select := Some list_create |}] |}.
Proof. reflexivity. Qed.

(** C1, where the code departs from it: when the second intent names a
    closed channel and the first an open one with no selector yet, the call
    returns [CLOSED_ERROR] with its token destroyed but still stored in the
    selectors list of the first channel. *)
Theorem C1_early_return_leaves_token_registered (fuel : nat) (w : world)
  (s0 s1 : select_t) (rest : list select_t) (ch0 : channel_t) (l0 : list_t) :
  load (chans w) (channel s0) = Some ch0 -> is_closed ch0 = false ->
  select ch0 = Some l0 -> head l0 = NULL ->
  closed_in w (channel s1) ->
  exists w',
    channel_select fuel (s0 :: s1 :: rest) w = Ret (CLOSED_ERROR, None, None) w' /\
    registered w' (channel s0) (S (length (sems w))) /\
    load (sems w') (S (length (sems w))) = None.
Proof.
  intros H0 Hc0 Hs0 Hh0 (ch1 & H1 & Hc1).
  assert (Hne : channel s0 <> channel s1) by congruence.
  unfold channel_select.
  rewrite (bind_Ret _ _ _ _ _ (sem_init_ok w)).
  set (tok := S (length (sems w))).
  set (wa := {| nodes := nodes w; sems := sems w ++ [Some 0]; chans := chans w |}).
  set (node := S (length (nodes w))).
  set (l0' := {| head := node; count := wrap_size_t (count l0 + 1) |}).
  set (wb := {| nodes := nodes w ++ [Some (mk_node tok node node)];
                sems := sems wa; chans := chans wa |}).
  set (ch0' := {| buffer := buffer ch0; is_closed := is_closed ch0;
                  select := Some l0' |}).
  assert (Hreg : select_register tok (s0 :: s1 :: rest) wa =
                 Ret (Some CLOSED_ERROR)
                     {| nodes := nodes wb; sems := release (sems wa) tok;
                        chans := store (chans w) (channel s0) ch0' |}).
  { simpl.
    erewrite bind_Ret by (apply chan_get_ok; exact H0). rewrite Hc0, Hs0.
    erewrite bind_Ret.
    2:{ erewrite bind_Ret by (apply (list_insert_empty wa l0 tok Hh0)).
        apply (set_select_ok wb (channel s0) ch0). exact H0. }
    erewrite bind_Ret.
    2:{ apply chan_get_ok. simpl. rewrite load_store_ne by exact Hne. exact H1. }
    rewrite Hc1.
    erewrite bind_Ret; [reflexivity|].
    unfold sem_destroy. simpl. subst tok. rewrite load_alloc. reflexivity. }
  rewrite (bind_Ret _ _ _ _ _ Hreg). eexists. split; [reflexivity|]. split.
  - exists 0. unfold token_at. simpl.
    rewrite (load_store_eq _ _ _ _ H0). simpl.
    subst node. rewrite load_alloc. rewrite load_alloc. reflexivity.
  - simpl. apply load_release_eq.
Qed.

Lemma C1_witness :
  exists w',
    channel_select 5 [mk_select 1 RECV 0%Z; mk_select 2 RECV 0%Z]
      one_open_one_closed = Ret (CLOSED_ERROR, None, None) w' /\
    registered w' 1 (S (length (sems one_open_one_closed))) /\
    load (sems w') (S (length (sems one_open_one_closed))) = None.
Proof.
  apply (C1_early_return_leaves_token_registered 5 one_open_one_closed
           (mk_select 1 RECV 0%Z) (mk_select 2 RECV 0%Z) []
           {| buffer := {| capacity := 1; items := [] |};
              is_closed := false; select := Some list_create |} list_create);
    try reflexivity.
  exists {| buffer := {| capacity := 1; items := [] |};
            is_closed := true; select := Some list_create |}.
  split; reflexivity.
Defined.

(** ** Invariants kept by every call *)

Section Keeps.
Variable J : world -> Prop.
Variable good : ptr -> Prop.
Hypothesis tol : tolerant J good.

Lemma keeps_ret {A} (a : A) (post : A -> Prop) : post a -> keeps J (ret a) post.
Proof. intros Ha w Jw. simpl. auto. Qed.

Lemma keeps_bind {A B} (m : M A) (k : A -> M B) post post' :
  keeps J m post -> (forall a, post a -> keeps J (k a) post') ->
  keeps J (bind m k) post'.
Proof.
  intros Hm Hk w Jw. specialize (Hm w Jw). unfold bind.
  destruct (m w) as [a w1|w1| |w1]; auto.
  destruct Hm as [Jw1 Ha]. exact (Hk a Ha w1 Jw1).
Qed.

Lemma keeps_weaken {A} (m : M A) (post post' : A -> Prop) :
  keeps J m post -> (forall a, post a -> post' a) -> keeps J m post'.
Proof.
  intros Hm Hw w Jw. specialize (Hm w Jw).
  destruct (m w); auto. destruct Hm. auto.
Qed.

Lemma keeps_suspend {A} (post : A -> Prop) : keeps J suspend post.
Proof. intros w Jw. exact Jw. Qed.

Lemma keeps_out_of_fuel {A} (post : A -> Prop) : keeps J out_of_fuel post.
Proof. intros w Jw. exact Jw. Qed.

Lemma keeps_fault {A} (post : A -> Prop) : keeps J fault post.
Proof. intros w Jw. exact I. Qed.

Lemma keeps_node_get p : keeps J (node_get p) (fun n => good (data n)).
Proof.
  intros w Jw. unfold node_get.
  destruct (load (nodes w) p) as [n|] eqn:E; [|exact I].
  split; [exact Jw|]. eapply tol_node_read; eauto.
Qed.

Lemma keeps_node_put p n :
  good (data n) -> keeps J (node_put p n) (fun _ => True).
Proof.
  intros Hg w Jw. unfold node_put.
  destruct (load (nodes w) p) as [n0|] eqn:E; [|exact I].
  split; [|exact I]. eapply tol_node_write; eauto.
Qed.

Lemma keeps_malloc_node : keeps J malloc_node (fun _ => True).
Proof.
  intros w Jw. unfold malloc_node. simpl. split; [|exact I].
  eapply tol_node_alloc; eauto. simpl. eapply tol_null; eauto.
Qed.

Lemma keeps_free_node p : keeps J (free_node p) (fun _ => True).
Proof.
  intros w Jw. unfold free_node.
  destruct (load (nodes w) p); [|exact I].
  split; [|exact I]. eapply tol_node_free; eauto.
Qed.

Lemma keeps_get_data p : keeps J (get_data p) good.
Proof.
  eapply keeps_bind; [apply keeps_node_get|].
  intros n Hn. apply keeps_ret. exact Hn.
Qed.

Lemma keeps_get_next p : keeps J (get_next p) (fun _ => True).
Proof.
  eapply keeps_bind; [apply keeps_node_get|].
  intros n Hn. apply keeps_ret. exact I.
Qed.

Lemma keeps_get_prev p : keeps J (get_prev p) (fun _ => True).
Proof.
  eapply keeps_bind; [apply keeps_node_get|].
  intros n Hn. apply keeps_ret. exact I.
Qed.

Lemma keeps_set_data p v : good v -> keeps J (set_data p v) (fun _ => True).
Proof.
  intros Hv. eapply keeps_bind; [apply keeps_node_get|].
  intros n Hn. apply keeps_node_put. exact Hv.
Qed.

Lemma keeps_set_next p v : keeps J (set_next p v) (fun _ => True).
Proof.
  eapply keeps_bind; [apply keeps_node_get|].
  intros n Hn. apply keeps_node_put. exact Hn.
Qed.

Lemma keeps_set_prev p v : keeps J (set_prev p v) (fun _ => True).
Proof.
  eapply keeps_bind; [apply keeps_node_get|].
  intros n Hn. apply keeps_node_put. exact Hn.
Qed.

Create HintDb keeps.
Hint Resolve keeps_suspend keeps_out_of_fuel keeps_fault keeps_malloc_node
  keeps_free_node keeps_get_data keeps_get_next keeps_get_prev keeps_set_data
  keeps_set_next keeps_set_prev : keeps.

Ltac keeps_go :=
  first
    [ apply keeps_ret; solve [auto]
    | solve [eauto with keeps]
    | match goal with
      | |- keeps _ (if ?b then _ else _) _ => destruct b; keeps_go
      | |- keeps _ (match ?x with _ => _ end) _ => destruct x; keeps_go
      | |- keeps _ (bind _ _) _ =>
          eapply keeps_bind; [solve [eauto with keeps]|intros; keeps_go]
      | |- keeps _ (bind _ _) _ =>
          eapply (keeps_bind _ _ (fun _ => True)); [keeps_go|intros; keeps_go]
      end
    | idtac ].

Lemma keeps_list_find_from fuel : forall curr d,
  keeps J (list_find_from fuel curr d) (fun _ => True).
Proof.
  induction fuel as [|fuel IH]; intros curr d; simpl; keeps_go.
Qed.

Lemma keeps_list_find fuel l d : keeps J (list_find fuel l d) (fun _ => True).
Proof. apply keeps_list_find_from. Qed.

Lemma keeps_list_insert l d :
  good d -> keeps J (list_insert l d) (fun _ => True).
Proof. intros Hd. unfold list_insert. keeps_go. Qed.

Lemma keeps_list_remove l node : keeps J (list_remove l node) (fun _ => True).
Proof.
  unfold list_remove.
  assert (Hn : good NULL) by (eapply tol_null; eauto).
  keeps_go.
Qed.
Hint Resolve keeps_list_find keeps_list_insert keeps_list_remove : keeps.

Lemma keeps_list_foreach_from (func : ptr -> M unit) :
  (forall d, good d -> keeps J (func d) (fun _ => True)) ->
  forall fuel curr, keeps J (list_foreach_from fuel curr func) (fun _ => True).
Proof.
  intros Hf. induction fuel as [|fuel IH]; intros curr; simpl; keeps_go.
Qed.

Lemma keeps_list_destroy fuel : forall l,
  keeps J (list_destroy fuel l) (fun _ => True).
Proof.
  induction fuel as [|fuel IH]; intros l; simpl; keeps_go.
Qed.

Lemma keeps_sem_init : keeps J sem_init good.
Proof. intros w Jw. unfold sem_init. simpl. eapply tol_sem_alloc; eauto. Qed.

Lemma keeps_sem_destroy s : good s -> keeps J (sem_destroy s) (fun _ => True).
Proof.
  intros Hs w Jw. unfold sem_destroy.
  destruct (load (sems w) s); [|exact I].
  split; [|exact I]. eapply tol_sem_free; eauto.
Qed.

Lemma keeps_sem_post s : good s -> keeps J (sem_post s) (fun _ => True).
Proof.
  intros Hs w Jw. unfold sem_post.
  destruct (load (sems w) s) as [k|] eqn:E; [|exact I].
  split; [|exact I]. eapply tol_sem_write; eauto.
Qed.

Lemma keeps_sem_wait s : good s -> keeps J (sem_wait s) (fun _ => True).
Proof.
  intros Hs w Jw. unfold sem_wait.
  destruct (load (sems w) s) as [[|k]|] eqn:E; [exact Jw| |exact I].
  split; [|exact I]. eapply tol_sem_write; eauto.
Qed.

Lemma keeps_chan_get c : keeps J (chan_get c) (fun _ => True).
Proof.
  intros w Jw. unfold chan_get. destruct (load (chans w) c); auto.
Qed.

Lemma keeps_set_buffer c b : keeps J (set_buffer c b) (fun _ => True).
Proof.
  intros w Jw. unfold set_buffer, bind, chan_get, chan_put.
  destruct (load (chans w) c) as [ch|] eqn:E; [|exact I]. rewrite E.
  split; [|exact I]. eapply (tol_chan_write J good tol w c ch); eauto.
Qed.

Lemma keeps_set_select c l : keeps J (set_select c l) (fun _ => True).
Proof.
  intros w Jw. unfold set_select, bind, chan_get, chan_put.
  destruct (load (chans w) c) as [ch|] eqn:E; [|exact I]. rewrite E.
  split; [|exact I]. eapply (tol_chan_write J good tol w c ch); eauto.
Qed.

Lemma keeps_set_is_closed c : keeps J (set_is_closed c true) (fun _ => True).
Proof.
  intros w Jw. unfold set_is_closed, bind, chan_get, chan_put.
  destruct (load (chans w) c) as [ch|] eqn:E; [|exact I]. rewrite E.
  split; [|exact I]. eapply (tol_chan_write J good tol w c ch); eauto.
Qed.

Lemma keeps_channel_create size : keeps J (channel_create size) (fun _ => True).
Proof.
  intros w Jw. unfold channel_create. simpl. split; [|exact I].
  eapply tol_chan_alloc; eauto.
Qed.

Hint Resolve keeps_list_destroy keeps_sem_init keeps_sem_destroy keeps_sem_post
  keeps_sem_wait keeps_chan_get keeps_set_buffer keeps_set_select
  keeps_set_is_closed keeps_channel_create : keeps.

Lemma keeps_post_selectors fuel c :
  keeps J (post_selectors fuel c) (fun _ => True).
Proof.
  unfold post_selectors. eapply keeps_bind; [apply keeps_chan_get|].
  intros ch _. destruct (select ch) as [l|]; [|keeps_go].
  apply keeps_list_foreach_from. intros d Hd. apply keeps_sem_post. exact Hd.
Qed.
Hint Resolve keeps_post_selectors : keeps.

Lemma keeps_channel_send_loop fuel c v :
  keeps J (channel_send_loop fuel c v) (fun _ => True).
Proof. unfold channel_send_loop. keeps_go. Qed.

Lemma keeps_channel_receive_loop fuel c :
  keeps J (channel_receive_loop fuel c) (fun _ => True).
Proof. unfold channel_receive_loop. keeps_go. Qed.
Hint Resolve keeps_channel_send_loop keeps_channel_receive_loop : keeps.

Lemma keeps_channel_send fuel c v :
  keeps J (channel_send fuel c v) (fun _ => True).
Proof. unfold channel_send. keeps_go. Qed.

Lemma keeps_channel_send_wakeup fuel c v :
  keeps J (channel_send_wakeup fuel c v) (fun _ => True).
Proof. unfold channel_send_wakeup. keeps_go. Qed.

Lemma keeps_channel_receive fuel c :
  keeps J (channel_receive fuel c) (fun _ => True).
Proof. unfold channel_receive. keeps_go. Qed.

Lemma keeps_channel_receive_wakeup fuel c :
  keeps J (channel_receive_wakeup fuel c) (fun _ => True).
Proof. unfold channel_receive_wakeup. keeps_go. Qed.

Lemma keeps_channel_non_blocking_send fuel c v :
  keeps J (channel_non_blocking_send fuel c v) (fun _ => True).
Proof. unfold channel_non_blocking_send. keeps_go. Qed.

Lemma keeps_channel_non_blocking_receive fuel c :
  keeps J (channel_non_blocking_receive fuel c) (fun _ => True).
Proof. unfold channel_non_blocking_receive. keeps_go. Qed.

Lemma keeps_channel_close fuel c :
  keeps J (channel_close fuel c) (fun _ => True).
Proof. unfold channel_close. keeps_go. Qed.

Lemma keeps_channel_destroy fuel c :
  keeps J (channel_destroy fuel c) (fun _ => True).
Proof.
  unfold channel_destroy. eapply keeps_bind; [apply keeps_chan_get|].
  intros ch _. destruct (negb (is_closed ch)); [keeps_go|].
  destruct (is_closed ch); [|keeps_go].
  destruct (select ch) as [l|]; [|keeps_go].
  eapply keeps_bind; [apply keeps_list_destroy|].
  intros _ _ w Jw. split; [|exact I]. eapply tol_chan_free; eauto.
Qed.

Hint Resolve keeps_channel_non_blocking_send keeps_channel_non_blocking_receive
  : keeps.

Lemma keeps_select_register sel : good sel ->
  forall rest, keeps J (select_register sel rest) (fun _ => True).
Proof.
  intros Hs. induction rest as [|s rest IH]; simpl; keeps_go.
Qed.

Lemma keeps_select_deregister fuel sel : forall rest,
  keeps J (select_deregister fuel sel rest) (fun _ => True).
Proof.
  induction rest as [|s rest IH]; simpl; keeps_go.
Qed.
Hint Resolve keeps_select_register keeps_select_deregister : keeps.

Lemma keeps_select_sweep fuel sel all : good sel ->
  forall rest i, keeps J (select_sweep fuel sel all rest i) (fun _ => True).
Proof.
  intros Hs. induction rest as [|s rest IH]; intros i; simpl; [keeps_go|].
  eapply (keeps_bind _ _ (fun _ => True)).
  - destruct (dir s); keeps_go.
  - intros r _. keeps_go.
Qed.
Hint Resolve keeps_select_sweep : keeps.

Lemma keeps_select_loop sel cl : good sel ->
  forall fuel, keeps J (select_loop fuel sel cl) (fun _ => True).
Proof.
  intros Hs. induction fuel as [|fuel IH]; simpl; keeps_go.
Qed.
Hint Resolve keeps_select_loop : keeps.

Lemma keeps_channel_select fuel cl :
  keeps J (channel_select fuel cl) (fun _ => True).
Proof. unfold channel_select. keeps_go. Qed.

Lemma keeps_channel_select_wakeup fuel sel cl : good sel ->
  keeps J (channel_select_wakeup fuel sel cl) (fun _ => True).
Proof. intros Hs. unfold channel_select_wakeup. keeps_go. Qed.

Lemma keeps_final {A} (m : M A) post w w' :
  keeps J m post -> J w -> final_world (m w) = Some w' -> J w'.
Proof.
  intros Hm Jw. specialize (Hm w Jw).
  destruct (m w) as [a w1|w1| |w1]; simpl; intros [= <-]; tauto.
Qed.

(** Every call keeps a tolerant invariant, provided a resumed select runs
    on a good token. *)
Lemma run_call_keeps fuel k w w' :
  (forall sel cl, k = SelectWakeup sel cl -> good sel) ->
  J w -> run_call fuel k w = Some w' -> J w'.
Proof.
  intros Hk Jw. destruct k; unfold run_call; intros H;
    (eapply keeps_final; [|exact Jw|exact H]).
  - apply keeps_channel_create.
  - apply keeps_channel_send.
  - apply keeps_channel_send_wakeup.
  - apply keeps_channel_receive.
  - apply keeps_channel_receive_wakeup.
  - apply keeps_channel_non_blocking_send.
  - apply keeps_channel_non_blocking_receive.
  - apply keeps_channel_close.
  - apply keeps_channel_destroy.
  - apply keeps_channel_select.
  - apply keeps_channel_select_wakeup. eapply Hk. reflexivity.
Qed.
End Keeps.

(** *** The two invariants *)

Lemma token_idle_tolerant (tok : ptr) :
  tok <> NULL -> tolerant (token_idle tok) (fun d => d <> tok).
Proof.
  intros Hnz. constructor.
  - congruence.
  - intros w p n [_ Hn] Hp. eapply Hn; eauto.
  - intros w p n [Hs Hn] [n0 Hp] Hd. split; [exact Hs|]. simpl.
    intros q m Hq. destruct (decide (p = q)) as [<-|Hne].
    + rewrite (load_store_eq _ _ _ _ Hp) in Hq. congruence.
    + rewrite (load_store_ne _ _ _ _ Hne) in Hq. eapply Hn; eauto.
  - intros w n [Hs Hn] Hd. split; [exact Hs|]. simpl.
    intros q m Hq. apply load_alloc_inv in Hq.
    destruct Hq as [Hq|[_ ->]]; [eapply Hn; eauto|exact Hd].
  - intros w p [Hs Hn]. split; [exact Hs|]. simpl.
    intros q m Hq. apply load_release_Some in Hq. eapply Hn; eauto.
  - intros w [Hs Hn]. split.
    + split; [|exact Hn]. simpl. eapply load_alloc_old; eauto.
    + apply load_Some_lt in Hs. lia.
  - intros w s k [Hs Hn] Hg _. split; [|exact Hn]. simpl.
    rewrite load_store_ne by exact Hg. exact Hs.
  - intros w s [Hs Hn] Hg. split; [|exact Hn]. simpl.
    rewrite load_release_ne by exact Hg. exact Hs.
  - intros w c ch ch' Jw _ _. exact Jw.
  - intros w ch Jw. exact Jw.
  - intros w c Jw. exact Jw.
Qed.

Lemma never_reopened_tolerant (c0 : ptr) :
  tolerant (never_reopened c0) (fun _ => True).
Proof.
  constructor; try (intros; exact I); try (intros; assumption);
    try (intros; split; [assumption|exact I]).
  - intros w c ch ch' [Hle Hcl] Hc Hmono. split; simpl.
    + rewrite length_store. exact Hle.
    + intros x Hx. destruct (decide (c = c0)) as [->|Hne].
      * rewrite (load_store_eq _ _ _ _ Hc) in Hx. injection Hx as <-.
        apply Hmono. apply Hcl. exact Hc.
      * rewrite (load_store_ne _ _ _ _ Hne) in Hx. apply Hcl. exact Hx.
  - intros w ch [Hle Hcl]. split; simpl.
    + rewrite length_app. lia.
    + intros x Hx. apply load_alloc_inv in Hx.
      destruct Hx as [Hx|[-> _]]; [apply Hcl; exact Hx|lia].
  - intros w c [Hle Hcl]. split; simpl.
    + rewrite length_release. exact Hle.
    + intros x Hx. apply load_release_Some in Hx. apply Hcl. exact Hx.
Qed.

Lemma closed_in_never_reopened w c : closed_in w c -> never_reopened c w.
Proof.
  intros (ch & H & Hc). split.
  - apply load_Some_lt in H. tauto.
  - intros ch' H'. congruence.
Qed.

(** The closed flag is never reset: whatever call is made, on this channel
    or another, with or without selectors, a channel that was closed is
    still closed in every world the call reaches, unless it has been
    destroyed. *)
Lemma closed_is_permanent (fuel : nat) (k : call) (w w' : world) (c : ptr) :
  closed_in w c -> run_call fuel k w = Some w' ->
  closed_in w' c \/ load (chans w') c = None.
Proof.
  intros Hc Hrun.
  assert (Hn : never_reopened c w') .
  { eapply (run_call_keeps _ _ (never_reopened_tolerant c)); eauto.
    apply closed_in_never_reopened. exact Hc. }
  destruct (load (chans w') c) as [ch|] eqn:E; [left|right; reflexivity].
  exists ch. split; [exact E|]. apply Hn. exact E.
Qed.

(** [channel_close] on an open channel never answers anything but
    [SUCCESS], and the flag is set in every world it reaches. *)
Lemma close_open_sets_flag (fuel : nat) (w : world) (c : ptr) (ch : channel_t) :
  load (chans w) c = Some ch -> is_closed ch = false ->
  match channel_close fuel c w with
  | Ret s w' => s = SUCCESS /\ closed_in w' c
  | NoFuel w' => closed_in w' c
  | Blocked _ => False
  | Fault => True
  end.
Proof.
  intros H Hc. rewrite (close_open _ _ _ _ H Hc).
  set (ch' := {| buffer := buffer ch; is_closed := true; select := select ch |}).
  assert (H' : load (chans (with_chan w c ch')) c = Some ch')
    by (eapply load_with_chan; eauto).
  unfold bind.
  destruct (post_selectors fuel c (with_chan w c ch')) as [a w1|w1| |w1] eqn:E;
    try exact I.
  - destruct (post_selectors_Ret_frame _ _ _ _ _ E) as (_ & Hch & _).
    split; [reflexivity|]. exists ch'. rewrite Hch. auto.
  - rewrite (post_selectors_unfold _ _ _ _ H') in E. simpl in E.
    destruct (select ch) as [l|]; [|discriminate].
    assert (Hb : forall fuel p w0, list_foreach_from fuel p sem_post w0 <> Blocked w1).
    { clear. induction fuel as [|fuel IH]; intros p w0; simpl; [discriminate|].
      destruct p as [|p']; simpl; [discriminate|].
      cbv beta iota delta [bind get_data get_next node_get ret].
      destruct (load (nodes w0) (S p')) as [n|]; [|discriminate].
      unfold sem_post at 1. destruct (load (sems w0) (data n)); [|discriminate].
      simpl. destruct (load (nodes w0) (S p')); [apply IH|discriminate]. }
    exact (Hb _ _ _ E).
  - destruct (post_selectors_frame fuel c (with_chan w c ch') w1) as (_ & Hch & _);
      [rewrite E; reflexivity|].
    exists ch'. rewrite Hch. auto.
Qed.

(** With no selector registered [channel_close] on an open channel
    returns [SUCCESS] with the flag set. *)
Lemma close_open_no_selectors (fuel : nat) (w : world) (c : ptr) (ch : channel_t)
  (l : list_t) :
  load (chans w) c = Some ch -> is_closed ch = false ->
  select ch = Some l -> head l = NULL ->
  channel_close (S fuel) c w =
    Ret SUCCESS (with_chan w c {| buffer := buffer ch; is_closed := true;
                                  select := select ch |}).
Proof.
  intros H Hc Hs Hh. rewrite (close_open _ _ _ _ H Hc).
  erewrite bind_Ret; [reflexivity|].
  eapply post_selectors_none; [eapply load_with_chan; eauto|exact Hs|exact Hh].
Qed.

(** ** Select over no channel *)

Lemma others_run_keeps_token_idle tok w w' :
  others_run tok w w' -> token_idle tok w -> token_idle tok w'.
Proof.
  induction 1 as [w|w w1 w2 fuel k Hk Hrun Hrest IH]; intros Jw; [exact Jw|].
  apply IH.
  assert (Hnz : tok <> NULL).
  { destruct Jw as [Hs _]. apply load_Some_lt in Hs. tauto. }
  eapply (run_call_keeps _ _ (token_idle_tolerant tok Hnz)); eauto.
  intros sel cl ->. simpl in Hk. exact Hk.
Qed.

(** C10: [channel_select] with [channel_count = 0] never returns.  It
    creates its token, stores it in no selectors list, finds nothing to
    attempt and suspends in [sem_wait] on a count of 0; whatever calls
    other threads make afterwards, none of them posts to the token, so the
    select is still suspended whenever it looks at its semaphore again. *)
Theorem C10_select_without_channels_never_returns (fuel : nat) (w : world) :
  (forall p n, load (nodes w) p = Some n -> data n <> S (length (sems w))) ->
  channel_select (S fuel) [] w =
    Blocked {| nodes := nodes w; sems := sems w ++ [Some 0]; chans := chans w |} /\
  (forall c k,
     token_at {| nodes := nodes w; sems := sems w ++ [Some 0]; chans := chans w |}
       c k <> Some (S (length (sems w)))) /\
  (forall w1,
     others_run (S (length (sems w)))
       {| nodes := nodes w; sems := sems w ++ [Some 0]; chans := chans w |} w1 ->
     forall fuel',
       channel_select_wakeup fuel' (S (length (sems w))) [] w1 = Blocked w1).
Proof.
  intros Hfresh.
  set (tok := S (length (sems w))).
  set (w0 := {| nodes := nodes w; sems := sems w ++ [Some 0]; chans := chans w |}).
  assert (Hidle : token_idle tok w0).
  { split; [apply load_alloc|exact Hfresh]. }
  split; [|split].
  - unfold channel_select.
    rewrite (bind_Ret _ _ _ _ _ (sem_init_ok w)). simpl.
    unfold bind, ret, sem_wait. simpl. subst tok.
    rewrite load_alloc. reflexivity.
  - intros c k Ht. unfold token_at in Ht.
    destruct (load (chans w0) c) as [ch|]; [|discriminate].
    destruct (select ch) as [l|]; [|discriminate].
    destruct (walk (nodes w0) (head l) k) as [q|]; [|discriminate].
    destruct (load (nodes w0) q) as [n|] eqn:Hq; [|discriminate].
    injection Ht as Ht. exact (Hfresh q n Hq Ht).
  - intros w1 Hrun fuel'.
    destruct (others_run_keeps_token_idle _ _ _ Hrun Hidle) as [Hs _].
    unfold channel_select_wakeup, bind, sem_wait. rewrite Hs. reflexivity.
Qed.

Lemma C10_witness :
  channel_select 1 [] empty_world =
    Blocked {| nodes := []; sems := [Some 0]; chans := [] |} /\
  (forall c k,
     token_at {| nodes := []; sems := [Some 0]; chans := [] |} c k <> Some 1) /\
  (forall w1,
     others_run 1 {| nodes := []; sems := [Some 0]; chans := [] |} w1 ->
     forall fuel', channel_select_wakeup fuel' 1 [] w1 = Blocked w1).
Proof.
  apply (C10_select_without_channels_never_returns 0 empty_world).
  intros p n H. destruct p; discriminate H.
Defined.

(** * More of the linked list *)

Lemma load_alloc_ne {A} (h : list (option A)) (a : A) (p : ptr) :
  p <> S (length h) -> load (h ++ [Some a]) p = load h p.
Proof.
  intros Hne. destruct p as [|i]; [reflexivity|]. unfold load.
  destruct (decide (i < length h)) as [Hlt|Hge].
  - rewrite lookup_app_l by exact Hlt. reflexivity.
  - rewrite lookup_app_r by lia.
    destruct (i - length h) as [|j] eqn:E; [lia|].
    simpl. rewrite (lookup_ge_None_2 h i) by lia. reflexivity.
Qed.

Lemma get_data_ok w p n : load (nodes w) p = Some n -> get_data p w = Ret (data n) w.
Proof. intros H. unfold get_data, bind, node_get. rewrite H. reflexivity. Qed.

Lemma get_next_ok w p n : load (nodes w) p = Some n -> get_next p w = Ret (next n) w.
Proof. intros H. unfold get_next, bind, node_get. rewrite H. reflexivity. Qed.

Lemma get_prev_ok w p n : load (nodes w) p = Some n -> get_prev p w = Ret (prev n) w.
Proof. intros H. unfold get_prev, bind, node_get. rewrite H. reflexivity. Qed.

Lemma set_data_ok w p n v :
  load (nodes w) p = Some n ->
  set_data p v w = Ret tt (with_nodes w (store (nodes w) p (mk_node v (next n) (prev n)))).
Proof.
  intros H. unfold set_data, bind, node_get, node_put. rewrite H. simpl.
  rewrite H. reflexivity.
Qed.

Lemma set_next_ok w p n v :
  load (nodes w) p = Some n ->
  set_next p v w = Ret tt (with_nodes w (store (nodes w) p (mk_node (data n) v (prev n)))).
Proof.
  intros H. unfold set_next, bind, node_get, node_put. rewrite H. simpl.
  rewrite H. reflexivity.
Qed.

Lemma set_prev_ok w p n v :
  load (nodes w) p = Some n ->
  set_prev p v w = Ret tt (with_nodes w (store (nodes w) p (mk_node (data n) (next n) v))).
Proof.
  intros H. unfold set_prev, bind, node_get, node_put. rewrite H. simpl.
  rewrite H. reflexivity.
Qed.

Lemma free_node_ok w p n :
  load (nodes w) p = Some n ->
  free_node p w = Ret tt (with_nodes w (release (nodes w) p)).
Proof. intros H. unfold free_node. rewrite H. reflexivity. Qed.

Lemma list_insert_nonempty (w : world) (l : list_t) (d : ptr) (n0 : list_node_t) :
  load (nodes w) (head l) = Some n0 ->
  list_insert l d w =
    Ret {| head := S (length (nodes w)); count := wrap_size_t (count l + 1) |}
        (with_nodes w
           (store (nodes w ++ [Some (mk_node d (head l) NULL)]) (head l)
              (mk_node (data n0) (next n0) (S (length (nodes w)))))).
Proof.
  intros H0.
  assert (Hnz : Nat.eqb (head l) NULL = false)
    by (destruct (head l); [discriminate H0|reflexivity]).
  unfold list_insert, bind, malloc_node, alloc. rewrite Hnz.
  unfold set_data, set_next, set_prev, bind, node_get, node_put, ret. simpl.
  repeat (rewrite ?load_alloc, ?store_alloc; simpl).
  rewrite (load_alloc_old _ _ _ _ H0). simpl.
  rewrite (load_alloc_old _ _ _ _ H0). reflexivity.
Qed.

(** X1: on a list whose head is a live node, [list_insert] makes a new node
    the head, with [next] the old head and [prev] null, points the old
    head's [prev] at it, adds one to [count] (modulo [2^64]) and leaves
    every other node, the semaphores and the channels alone. *)
Theorem list_insert_pushes_front (w : world) (l : list_t) (d : ptr)
  (n0 : list_node_t) :
  load (nodes w) (head l) = Some n0 ->
  exists w',
    list_insert l d w =
      Ret {| head := S (length (nodes w)); count := wrap_size_t (count l + 1) |} w' /\
    load (nodes w') (S (length (nodes w))) = Some (mk_node d (head l) NULL) /\
    load (nodes w') (head l) =
      Some (mk_node (data n0) (next n0) (S (length (nodes w)))) /\
    (forall p, p <> head l -> p <> S (length (nodes w)) ->
       load (nodes w') p = load (nodes w) p) /\
    sems w' = sems w /\ chans w' = chans w /\
    list_next (S (length (nodes w))) w' = Ret (head l) w'.
Proof.
  intros H0. rewrite (list_insert_nonempty w l d n0 H0).
  eexists. split; [reflexivity|]. simpl.
  assert (Hle : head l <> S (length (nodes w)))
    by (apply load_Some_lt in H0; lia).
  assert (Hnew : load (store (nodes w ++ [Some (mk_node d (head l) NULL)]) (head l)
                         (mk_node (data n0) (next n0) (S (length (nodes w)))))
                   (S (length (nodes w))) = Some (mk_node d (head l) NULL)).
  { rewrite load_store_ne by exact Hle. apply load_alloc. }
  split; [exact Hnew|]. split; [|split; [|split; [|split]]].
  - eapply load_store_eq. eapply load_alloc_old. exact H0.
  - intros p Hp Hq. rewrite load_store_ne by congruence.
    apply load_alloc_ne. exact Hq.
  - reflexivity.
  - reflexivity.
  - unfold list_next. erewrite get_next_ok by (simpl; exact Hnew). reflexivity.
Qed.

Lemma list_insert_pushes_front_witness :
  exists w',
    list_insert {| head := 1; count := 2 |} 7 two_selectors =
      Ret {| head := 3; count := wrap_size_t (2 + 1) |} w' /\
    load (nodes w') 3 = Some (mk_node 7 1 NULL) /\
    load (nodes w') 1 = Some (mk_node 1 2 3) /\
    (forall p, p <> 1 -> p <> 3 -> load (nodes w') p = load (nodes two_selectors) p) /\
    sems w' = sems two_selectors /\ chans w' = chans two_selectors /\
    list_next 3 w' = Ret 1 w'.
Proof.
  apply (list_insert_pushes_front two_selectors {| head := 1; count := 2 |} 7
           {| data := 1; next := 2; prev := NULL |}).
  reflexivity.
Defined.

(** X2: [list_insert] followed by [list_find] of the same data finds the
    node just inserted, which is the head [list_begin] returns and whose
    [list_data] is the data inserted; the [count] field has grown by one
    (modulo [2^64]) while [list_count] still answers 0.  This holds on the
    empty list and on any list whose head is a live node. *)
Theorem list_insert_then_find (fuel : nat) (w : world) (l : list_t) (d : ptr) :
  head l = NULL \/ is_Some (load (nodes w) (head l)) ->
  exists l' w',
    list_insert l d w = Ret l' w' /\
    list_begin l' = S (length (nodes w)) /\
    list_find (S fuel) l' d w' = Ret (list_begin l') w' /\
    list_data (list_begin l') w' = Ret d w' /\
    count l' = wrap_size_t (count l + 1) /\
    list_count l' = 0%Z.
Proof.
  intros [Hh|[n0 H0]].
  - rewrite (list_insert_empty w l d Hh). do 2 eexists.
    split; [reflexivity|]. simpl. unfold list_begin, list_data, list_find. simpl.
    assert (Hl : forall x y z (ns : list (option list_node_t)),
               get_data (S (length ns))
                 {| nodes := ns ++ [Some (mk_node d x y)]; sems := sems w;
                    chans := z |} =
               Ret d {| nodes := ns ++ [Some (mk_node d x y)]; sems := sems w;
                        chans := z |}).
    { intros. erewrite get_data_ok by (simpl; apply load_alloc). reflexivity. }
    split; [reflexivity|]. split; [|split; [apply Hl|split; reflexivity]].
    unfold bind. rewrite Hl. rewrite Nat.eqb_refl. reflexivity.
  - destruct (list_insert_pushes_front w l d n0 H0)
      as (w' & Hins & Hnew & _ & _ & _ & _ & _).
    do 2 eexists. split; [exact Hins|]. simpl.
    unfold list_begin, list_data, list_find. simpl.
    split; [reflexivity|]. split; [|split; [|split; reflexivity]].
    + unfold bind. rewrite (get_data_ok _ _ _ Hnew). simpl.
      rewrite Nat.eqb_refl. reflexivity.
    + rewrite (get_data_ok _ _ _ Hnew). reflexivity.
Qed.

Lemma list_insert_then_find_witness :
  exists l' w',
    list_insert list_create 1 one_semaphore = Ret l' w' /\
    list_begin l' = S (length (nodes one_semaphore)) /\
    list_find 1 l' 1 w' = Ret (list_begin l') w' /\
    list_data (list_begin l') w' = Ret 1 w' /\
    count l' = wrap_size_t (count list_create + 1) /\
    list_count l' = 0%Z.
Proof.
  apply (list_insert_then_find 0 one_semaphore list_create 1).
  left. reflexivity.
Defined.

Lemma list_find_from_first_match (d : ptr) : forall k fuel p w q n,
  walk (nodes w) p k = Some q -> load (nodes w) q = Some n -> data n = d ->
  (forall j q' n', j < k -> walk (nodes w) p j = Some q' ->
     load (nodes w) q' = Some n' -> data n' <> d) ->
  k < fuel ->
  list_find_from fuel p d w = Ret q w.
Proof.
  induction k as [|k IH]; intros fuel p w q n Hw Hq Hd Hbefore Hlt;
    (destruct fuel as [|fuel]; [lia|]);
    apply walk_inv in Hw; destruct Hw as (np & Hp & Hw);
    (destruct p as [|p']; [discriminate Hp|]); simpl.
  - subst q. rewrite Hp in Hq. injection Hq as ->.
    unfold bind. rewrite (get_data_ok _ _ _ Hp), Hd, Nat.eqb_refl. reflexivity.
  - unfold bind. rewrite (get_data_ok _ _ _ Hp).
    assert (Hne : data np <> d).
    { apply (Hbefore 0 (S p') np); [lia| |exact Hp]. simpl. rewrite Hp. reflexivity. }
    apply Nat.eqb_neq in Hne. rewrite Hne.
    rewrite (get_next_ok _ _ _ Hp).
    apply (IH fuel (next np) w q n Hw Hq Hd); [|lia].
    intros j q' n' Hj Hwj. apply (Hbefore (S j)); [lia|].
    simpl. rewrite Hp. exact Hwj.
Qed.

(** X3: [list_find] returns the first node, counted from the head along
    [next], whose data is the one looked for, and changes nothing; the list
    need not end in [NULL]. *)
Theorem list_find_returns_first_match (fuel : nat) (w : world) (l : list_t)
  (d q : ptr) (k : nat) (n : list_node_t) :
  walk (nodes w) (head l) k = Some q -> load (nodes w) q = Some n -> data n = d ->
  (forall j q' n', j < k -> walk (nodes w) (head l) j = Some q' ->
     load (nodes w) q' = Some n' -> data n' <> d) ->
  k < fuel ->
  list_find fuel l d w = Ret q w.
Proof. unfold list_find. apply list_find_from_first_match. Qed.

Lemma list_find_returns_first_match_witness :
  list_find 2 {| head := 1; count := 2 |} 2 two_selectors = Ret 2 two_selectors.
Proof.
  apply (list_find_returns_first_match 2 two_selectors {| head := 1; count := 2 |}
           2 2 1 {| data := 2; next := NULL; prev := 1 |}).
  - reflexivity.
  - reflexivity.
  - reflexivity.
  - intros j q' n' Hj Hw Hq. assert (j = 0) by lia. subst j.
    injection Hw as <-. injection Hq as <-. discriminate.
  - lia.
Defined.

Lemma list_find_from_sound (d : ptr) : forall fuel p w q w',
  list_find_from fuel p d w = Ret q w' ->
  w' = w /\ (q = NULL \/ exists n, load (nodes w) q = Some n /\ data n = d).
Proof.
  induction fuel as [|fuel IH]; intros p w q w'; simpl; [discriminate|].
  destruct p as [|p']; simpl.
  - intros [= <- <-]. auto.
  - cbv beta iota delta [bind get_data get_next node_get ret].
    destruct (load (nodes w) (S p')) as [n|] eqn:Hp; [|discriminate].
    destruct (Nat.eqb_spec (data n) d) as [Heq|Hne].
    + intros [= <- <-]. split; [reflexivity|]. right. eauto.
    + rewrite Hp. apply IH.
Qed.

(** X4: whatever [list_find] returns is either [NULL] or a live node whose
    data is the one looked for, and the call has changed nothing. *)
Theorem list_find_answers_null_or_match (fuel : nat) (w w' : world) (l : list_t)
  (d q : ptr) :
  list_find fuel l d w = Ret q w' ->
  w' = w /\ (q = NULL \/ exists n, load (nodes w) q = Some n /\ data n = d).
Proof. unfold list_find. apply list_find_from_sound. Qed.

Lemma list_find_answers_null_or_match_witness :
  list_find 1 {| head := 2; count := 1 |} 1 tie_break_registered
    = Ret 2 tie_break_registered /\
  tie_break_registered = tie_break_registered /\
  (2 = NULL \/
   exists n, load (nodes tie_break_registered) 2 = Some n /\ data n = 1).
Proof.
  split; [reflexivity|].
  apply (list_find_answers_null_or_match 1 tie_break_registered
           tie_break_registered {| head := 2; count := 1 |} 1 2).
  reflexivity.
Defined.

Lemma list_find_from_absent (d : ptr) : forall ds fuel p w,
  chain (nodes w) p ds -> ~ In d ds -> length ds < fuel ->
  list_find_from fuel p d w = Ret NULL w.
Proof.
  induction ds as [|x ds IH]; intros fuel p w Hc Hin Hlt;
    (destruct fuel as [|fuel]; [simpl in Hlt; lia|]); simpl in Hc.
  - subst p. reflexivity.
  - destruct Hc as (n & Hp & Hd & Hc).
    destruct p as [|p']; [discriminate Hp|]. simpl.
    unfold bind. rewrite (get_data_ok _ _ _ Hp).
    assert (Hne : data n <> d) by (intros E; apply Hin; left; congruence).
    apply Nat.eqb_neq in Hne. rewrite Hne, (get_next_ok _ _ _ Hp).
    apply IH; [exact Hc| |simpl in Hlt; lia].
    intros Hin'. apply Hin. right. exact Hin'.
Qed.

(** X5: on a list that ends in [NULL] and does not hold the data looked
    for, [list_find] returns [NULL], and [list_remove] of that answer does
    nothing: removing what is not in the list changes neither the list nor
    anything else. *)
Theorem list_remove_of_absent_data_is_noop (fuel : nat) (w : world) (l : list_t)
  (d : ptr) (ds : list ptr) :
  chain (nodes w) (head l) ds -> ~ In d ds -> length ds < fuel ->
  list_find fuel l d w = Ret NULL w /\
  (let* node := list_find fuel l d in list_remove l node) w = Ret l w.
Proof.
  intros Hc Hin Hlt.
  assert (Hf : list_find fuel l d w = Ret NULL w)
    by (unfold list_find; eapply list_find_from_absent; eauto).
  split; [exact Hf|]. rewrite (bind_Ret _ _ _ _ _ Hf). reflexivity.
Qed.

Lemma list_remove_of_absent_data_is_noop_witness :
  list_find 3 {| head := 1; count := 2 |} 9 two_selectors = Ret NULL two_selectors /\
  (let* node := list_find 3 {| head := 1; count := 2 |} 9 in
   list_remove {| head := 1; count := 2 |} node) two_selectors
  = Ret {| head := 1; count := 2 |} two_selectors.
Proof.
  apply (list_remove_of_absent_data_is_noop 3 two_selectors
           {| head := 1; count := 2 |} 9 [1; 2]).
  - simpl. eexists. split; [reflexivity|]. split; [reflexivity|].
    simpl. eexists. split; [reflexivity|]. split; reflexivity.
  - simpl. intros [H|[H|[]]]; discriminate H.
  - simpl. lia.
Defined.

(** *** [list_remove] *)

Ltac load_solve :=
  first [ eassumption
        | eapply load_store_eq; load_solve
        | rewrite load_store_ne by congruence; load_solve ].

Ltac load_step :=
  match goal with
  | |- context [load (store ?h ?p ?a) ?p] =>
      erewrite (load_store_eq h p a) by load_solve
  | |- context [load (store ?h ?p ?a) ?q] =>
      rewrite (load_store_ne h p q a) by congruence
  | H : load ?h ?p = Some _ |- context [load ?h ?p] => rewrite H
  end; simpl.

Ltac run_list_remove :=
  cbv beta iota delta [list_remove bind get_prev get_next set_next set_prev
                         set_data node_get node_put free_node ret].

Lemma live_not_null {A} (h : list (option A)) (p : ptr) (a : A) :
  load h p = Some a -> Nat.eqb p NULL = false.
Proof. destruct p; [discriminate|reflexivity]. Qed.

(** X6: [list_remove] of a node whose [prev] is a live node other than
    itself unlinks it: the predecessor's [next] becomes the node's [next],
    the successor (if there is one, distinct from both) gets the
    predecessor as [prev], the node is released, [count] drops by one
    (modulo [2^64]), the head is kept and nothing else changes. *)
Theorem list_remove_unlinks_inner_node (w : world) (l : list_t) (node : ptr)
  (n np : list_node_t) :
  load (nodes w) node = Some n -> load (nodes w) (prev n) = Some np ->
  prev n <> node ->
  next n = NULL \/
    (is_Some (load (nodes w) (next n)) /\ next n <> node /\ next n <> prev n) ->
  exists w',
    list_remove l node w =
      Ret {| head := head l; count := wrap_size_t (count l - 1) |} w' /\
    load (nodes w') node = None /\
    load (nodes w') (prev n) = Some (mk_node (data np) (next n) (prev np)) /\
    (forall nn, load (nodes w) (next n) = Some nn ->
       load (nodes w') (next n) = Some (mk_node (data nn) (next nn) (prev n))) /\
    (forall p, p <> node -> p <> prev n -> p <> next n ->
       load (nodes w') p = load (nodes w) p) /\
    sems w' = sems w /\ chans w' = chans w.
Proof.
  intros Hn Hp D1 Hnext.
  pose proof (live_not_null _ _ _ Hn) as Z1.
  pose proof (live_not_null _ _ _ Hp) as Z2.
  destruct Hnext as [Hnull|([nn Hx] & D2 & D3)].
  - run_list_remove. rewrite Z1.
    repeat (first [load_step | rewrite Z2 | rewrite Hnull]; simpl).
    eexists. split; [reflexivity|]. simpl. split; [apply load_release_eq|].
    split; [|split; [|split; [|split; reflexivity]]].
    + rewrite load_release_ne by congruence.
      repeat rewrite load_store_ne by congruence.
      eapply load_store_eq; eauto.
    + intros nn Hx. discriminate Hx.
    + intros p P1 P2 P3. rewrite load_release_ne by congruence.
      repeat rewrite load_store_ne by congruence. reflexivity.
  - pose proof (live_not_null _ _ _ Hx) as Z3.
    run_list_remove. rewrite Z1.
    repeat (first [load_step | rewrite Z2 | rewrite Z3]; simpl).
    eexists. split; [reflexivity|]. simpl. split; [apply load_release_eq|].
    split; [|split; [|split; [|split; reflexivity]]].
    + rewrite load_release_ne by congruence.
      repeat rewrite load_store_ne by congruence.
      eapply load_store_eq; eauto.
    + intros nn' [= <-].
      rewrite load_release_ne by congruence.
      repeat rewrite load_store_ne by congruence.
      eapply load_store_eq. rewrite load_store_ne by congruence. exact Hx.
    + intros p P1 P2 P3. rewrite load_release_ne by congruence.
      repeat rewrite load_store_ne by congruence. reflexivity.
Qed.

Lemma list_remove_without_prev_eval (w : world) (l : list_t) (node : ptr)
  (n : list_node_t) :
  load (nodes w) node = Some n -> prev n = NULL ->
  next n = NULL \/ (is_Some (load (nodes w) (next n)) /\ next n <> node) ->
  exists w',
    list_remove l node w =
      Ret {| head := next n; count := wrap_size_t (count l - 1) |} w' /\
    load (nodes w') node = None /\
    (forall nn, load (nodes w) (next n) = Some nn ->
       load (nodes w') (next n) = Some (mk_node (data nn) (next nn) NULL)) /\
    (forall p, p <> node -> p <> next n -> load (nodes w') p = load (nodes w) p) /\
    sems w' = sems w /\ chans w' = chans w /\
    length (nodes w') = length (nodes w).
Proof.
  intros Hn Hprev Hnext.
  pose proof (live_not_null _ _ _ Hn) as Z1.
  destruct Hnext as [Hnull|([nn Hx] & D2)].
  - run_list_remove. rewrite Z1.
    repeat (first [load_step | rewrite Hprev | rewrite Hnull]; simpl).
    eexists. split; [reflexivity|]. simpl. split; [apply load_release_eq|].
    split; [|split; [|split; [reflexivity|split; [reflexivity|]]]]; [| |simpl; rewrite length_release, ?length_store; reflexivity].
    + intros nn Hx. discriminate Hx.
    + intros p P1 P2. rewrite load_release_ne by congruence.
      repeat rewrite load_store_ne by congruence. reflexivity.
  - pose proof (live_not_null _ _ _ Hx) as Z3.
    run_list_remove. rewrite Z1.
    repeat (first [load_step | rewrite Hprev | rewrite Z3]; simpl).
    eexists. split; [reflexivity|]. simpl. split; [apply load_release_eq|].
    split; [|split; [|split; [reflexivity|split; [reflexivity|]]]]; [| |simpl; rewrite length_release, ?length_store; reflexivity].
    + intros nn' [= <-].
      rewrite load_release_ne by congruence.
      repeat rewrite load_store_ne by congruence.
      eapply load_store_eq. exact Hx.
    + intros p P1 P2. rewrite load_release_ne by congruence.
      repeat rewrite load_store_ne by congruence. reflexivity.
Qed.


(** X7: [list_remove] of a node whose [prev] is null makes the node's
    [next] the head of the list, whether or not the node was the head;
    the successor (if there is one, distinct from the node) gets a null
    [prev], the node is released, [count] drops by one (modulo [2^64])
    and nothing else changes.  Removing the only node of a well-formed
    one-element list gives back an empty list. *)
Theorem list_remove_node_without_prev (w : world) (l : list_t) (node : ptr)
  (n : list_node_t) :
  load (nodes w) node = Some n -> prev n = NULL ->
  next n = NULL \/ (is_Some (load (nodes w) (next n)) /\ next n <> node) ->
  exists w',
    list_remove l node w =
      Ret {| head := next n; count := wrap_size_t (count l - 1) |} w' /\
    load (nodes w') node = None /\
    (forall nn, load (nodes w) (next n) = Some nn ->
       load (nodes w') (next n) = Some (mk_node (data nn) (next nn) NULL)) /\
    (forall p, p <> node -> p <> next n -> load (nodes w') p = load (nodes w) p) /\
    sems w' = sems w /\ chans w' = chans w.
Proof.
  intros Hn Hprev Hnext.
  destruct (list_remove_without_prev_eval w l node n Hn Hprev Hnext)
    as (w' & H1 & H2 & H3 & H4 & H5 & H6 & _).
  exists w'. split; [exact H1|]. split; [exact H2|]. split; [exact H3|].
  split; [exact H4|]. split; [exact H5|exact H6].
Qed.

Lemma list_remove_unlinks_inner_node_witness :
  exists w',
    list_remove {| head := 1; count := 3 |} 2 three_nodes =
      Ret {| head := 1; count := wrap_size_t (3 - 1) |} w' /\
    load (nodes w') 2 = None /\
    load (nodes w') 1 = Some (mk_node 11 3 NULL) /\
    (forall nn, load (nodes three_nodes) 3 = Some nn ->
       load (nodes w') 3 = Some (mk_node (data nn) (next nn) 1)) /\
    (forall p, p <> 2 -> p <> 1 -> p <> 3 ->
       load (nodes w') p = load (nodes three_nodes) p) /\
    sems w' = sems three_nodes /\ chans w' = chans three_nodes.
Proof.
  apply (list_remove_unlinks_inner_node three_nodes {| head := 1; count := 3 |} 2
           {| data := 12; next := 3; prev := 1 |}
           {| data := 11; next := 2; prev := NULL |}).
  - reflexivity.
  - reflexivity.
  - simpl. lia.
  - right. simpl. split; [eexists; reflexivity|]. split; lia.
Defined.

Lemma list_remove_node_without_prev_witness :
  exists w',
    list_remove {| head := 1; count := 3 |} 1 three_nodes =
      Ret {| head := 2; count := wrap_size_t (3 - 1) |} w' /\
    load (nodes w') 1 = None /\
    (forall nn, load (nodes three_nodes) 2 = Some nn ->
       load (nodes w') 2 = Some (mk_node (data nn) (next nn) NULL)) /\
    (forall p, p <> 1 -> p <> 2 -> load (nodes w') p = load (nodes three_nodes) p) /\
    sems w' = sems three_nodes /\ chans w' = chans three_nodes.
Proof.
  apply (list_remove_node_without_prev three_nodes {| head := 1; count := 3 |} 1
           {| data := 11; next := 2; prev := NULL |}).
  - reflexivity.
  - reflexivity.
  - right. simpl. split; [eexists; reflexivity|lia].
Defined.

(** *** Insert, find, remove on the empty list *)

Lemma load_released_slot {A} (h : list (option A)) :
  load (h ++ [None]) (S (length h)) = None.
Proof.
  unfold load. rewrite lookup_app_r by lia.
  replace (length h - length h) with 0 by lia. reflexivity.
Qed.

(** X8: on an empty list, [list_insert] followed by [list_find] and
    [list_remove] of the node found (what [channel_select] does to
    deregister its token) releases the node but leaves [head] pointing at
    it: the node's [prev] was the node itself, so the branch that moves the
    head is not taken.  The [count] is back where it was (modulo [2^64]),
    and any later [list_insert], [list_find] or [list_foreach] on that list
    goes through the released node. *)
Theorem list_insert_find_remove_leaves_dangling_head (fuel : nat) (w : world)
  (l : list_t) (d : ptr) :
  head l = NULL ->
  (let* l1 := list_insert l d in
   let* node := list_find (S fuel) l1 d in
   list_remove l1 node) w
    = Ret (inserted_and_removed w l) (node_released w) /\
  head (inserted_and_removed w l) <> NULL /\
  load (nodes (node_released w)) (head (inserted_and_removed w l)) = None /\
  (forall d', list_insert (inserted_and_removed w l) d' (node_released w) = Fault) /\
  (forall d', list_find (S fuel) (inserted_and_removed w l) d' (node_released w)
              = Fault) /\
  (forall func, list_foreach (S fuel) (inserted_and_removed w l) func
                  (node_released w) = Fault).
Proof.
  intros Hh. unfold inserted_and_removed, node_released. simpl.
  assert (Hdead : load (nodes w ++ [None]) (S (length (nodes w))) = None)
    by apply load_released_slot.
  split; [|split; [discriminate|split; [exact Hdead|split; [|split]]]].
  - rewrite (bind_Ret _ _ _ _ _ (list_insert_empty w l d Hh)).
    set (new := S (length (nodes w))).
    set (w1 := {| nodes := nodes w ++ [Some (mk_node d new new)];
                  sems := sems w; chans := chans w |}).
    assert (H1 : load (nodes w1) new = Some (mk_node d new new)) by apply load_alloc.
    erewrite bind_Ret.
    2:{ unfold list_find. simpl. unfold bind.
        rewrite (get_data_ok _ _ _ H1). simpl. rewrite Nat.eqb_refl. reflexivity. }
    subst new w1. run_list_remove. simpl.
    repeat (rewrite ?load_alloc, ?store_alloc; simpl).
    rewrite release_alloc. reflexivity.
  - intros d'. unfold list_insert, bind, malloc_node, alloc. simpl.
    unfold set_data, set_next, set_prev, bind, node_get, node_put, ret. simpl.
    repeat (rewrite ?load_alloc, ?store_alloc; simpl).
    rewrite load_alloc_ne by (rewrite length_app; simpl; lia).
    rewrite Hdead. reflexivity.
  - intros d'. unfold list_find. simpl. unfold bind, get_data, bind, node_get.
    simpl. rewrite Hdead. reflexivity.
  - intros func. unfold list_foreach. simpl. unfold bind, get_data, bind, node_get.
    simpl. rewrite Hdead. reflexivity.
Qed.

Lemma list_insert_find_remove_leaves_dangling_head_witness :
  (let* l1 := list_insert list_create 1 in
   let* node := list_find 1 l1 1 in
   list_remove l1 node) one_semaphore
    = Ret (inserted_and_removed one_semaphore list_create)
          (node_released one_semaphore) /\
  head (inserted_and_removed one_semaphore list_create) <> NULL /\
  load (nodes (node_released one_semaphore))
    (head (inserted_and_removed one_semaphore list_create)) = None /\
  (forall d', list_insert (inserted_and_removed one_semaphore list_create) d'
                (node_released one_semaphore) = Fault) /\
  (forall d', list_find 1 (inserted_and_removed one_semaphore list_create) d'
                (node_released one_semaphore) = Fault) /\
  (forall func, list_foreach 1 (inserted_and_removed one_semaphore list_create) func
                  (node_released one_semaphore) = Fault).
Proof.
  apply (list_insert_find_remove_leaves_dangling_head 0 one_semaphore list_create 1).
  reflexivity.
Defined.

(** *** [list_foreach] on a list that ends *)

Lemma list_foreach_from_chain : forall ds fuel p w,
  chain (nodes w) p ds ->
  (forall d, In d ds -> is_Some (load (sems w) d)) ->
  length ds < fuel ->
  exists w',
    list_foreach_from fuel p sem_post w = Ret tt w' /\
    nodes w' = nodes w /\ chans w' = chans w /\
    forall s, load (sems w') s =
              match load (sems w) s with
              | Some k => Some (k + occurrences s ds)
              | None => None
              end.
Proof.
  induction ds as [|d ds IH]; intros fuel p w Hc Hlive Hlt;
    (destruct fuel as [|fuel]; [simpl in Hlt; lia|]); simpl in Hc.
  - subst p. exists w. repeat split.
    intros s. simpl. destruct (load (sems w) s); [f_equal; lia|reflexivity].
  - destruct Hc as (n & Hp & Hd & Hc).
    destruct p as [|p']; [discriminate Hp|]. simpl.
    destruct (Hlive d (or_introl eq_refl)) as [k0 Hk0].
    unfold bind at 1. rewrite (get_data_ok _ _ _ Hp), Hd.
    unfold bind at 1. unfold sem_post at 1. rewrite Hk0.
    set (w1 := {| nodes := nodes w; sems := store (sems w) d (S k0);
                  chans := chans w |}).
    assert (Hp1 : load (nodes w1) (S p') = Some n) by exact Hp.
    unfold bind. rewrite (get_next_ok _ _ _ Hp1).
    destruct (IH fuel (next n) w1) as (w' & Hrun & Hn & Hch & Hs).
    + exact Hc.
    + intros d' Hin. simpl. destruct (decide (d = d')) as [<-|Hne].
      * rewrite (load_store_eq _ _ _ _ Hk0). eauto.
      * rewrite load_store_ne by exact Hne. apply Hlive. right. exact Hin.
    + simpl in Hlt. lia.
    + exists w'. split; [exact Hrun|]. split; [exact Hn|]. split; [exact Hch|].
      intros s. rewrite Hs. simpl.
      destruct (Nat.eqb_spec d s) as [<-|Hne].
      * rewrite (load_store_eq _ _ _ _ Hk0), Hk0. f_equal. lia.
      * rewrite load_store_ne by exact Hne.
        destruct (load (sems w) s); reflexivity.
Qed.

(** X9: on a list that ends in [NULL], [list_foreach] with [sem_post]
    returns after visiting every node once: each live semaphore has been
    posted exactly as many times as nodes hold it, no semaphore is created
    or destroyed, and the list nodes and the channels are untouched. *)
Theorem list_foreach_posts_once_per_node (fuel : nat) (w : world) (l : list_t)
  (ds : list ptr) :
  chain (nodes w) (head l) ds ->
  (forall d, In d ds -> is_Some (load (sems w) d)) ->
  length ds < fuel ->
  exists w',
    list_foreach fuel l sem_post w = Ret tt w' /\
    nodes w' = nodes w /\ chans w' = chans w /\
    forall s, load (sems w') s =
              match load (sems w) s with
              | Some k => Some (k + occurrences s ds)
              | None => None
              end.
Proof. unfold list_foreach. apply list_foreach_from_chain. Qed.

Lemma list_foreach_posts_once_per_node_witness :
  exists w',
    list_foreach 3 {| head := 1; count := 2 |} sem_post two_selectors = Ret tt w' /\
    nodes w' = nodes two_selectors /\ chans w' = chans two_selectors /\
    forall s, load (sems w') s =
              match load (sems two_selectors) s with
              | Some k => Some (k + occurrences s [1; 2])
              | None => None
              end.
Proof.
  apply (list_foreach_posts_once_per_node 3 two_selectors
           {| head := 1; count := 2 |} [1; 2]).
  - simpl. eexists. split; [reflexivity|]. split; [reflexivity|].
    simpl. eexists. split; [reflexivity|]. split; reflexivity.
  - intros d [<-|[<-|[]]]; simpl; eauto.
  - simpl. lia.
Defined.

(** *** [list_destroy] on the lists [list_insert] builds *)

Lemma list_remove_self_next (w : world) (l : list_t) (node : ptr)
  (c : list_node_t) :
  load (nodes w) node = Some c -> next c = node ->
  prev c = NULL \/ prev c = node ->
  exists l' w',
    list_remove l node w = Ret l' w' /\
    count l' = wrap_size_t (count l - 1) /\
    load (nodes w') node = None /\
    (forall p, p <> node -> load (nodes w') p = load (nodes w) p) /\
    sems w' = sems w /\ chans w' = chans w /\
    length (nodes w') = length (nodes w).
Proof.
  intros Hn Hnext Hprev.
  pose proof (live_not_null _ _ _ Hn) as Z1.
  destruct Hprev as [Hprev|Hprev].
  - run_list_remove. rewrite Z1.
    repeat (first [load_step | rewrite Hprev | rewrite Hnext | rewrite Z1]; simpl).
    do 2 eexists. split; [reflexivity|]. simpl.
    split; [reflexivity|]. split; [apply load_release_eq|].
    split; [|split; [reflexivity|split; [reflexivity|]]].
    + intros p P1. rewrite load_release_ne by congruence.
      repeat rewrite load_store_ne by congruence. reflexivity.
    + rewrite length_release, ?length_store. reflexivity.
  - run_list_remove. rewrite Z1.
    repeat (first [load_step | rewrite Hprev | rewrite Hnext | rewrite Z1]; simpl).
    do 2 eexists. split; [reflexivity|]. simpl.
    split; [reflexivity|]. split; [apply load_release_eq|].
    split; [|split; [reflexivity|split; [reflexivity|]]].
    + intros p P1. rewrite load_release_ne by congruence.
      repeat rewrite load_store_ne by congruence. reflexivity.
    + rewrite length_release, ?length_store. reflexivity.
Qed.

Lemma wrap_size_t_add (a b : Z) :
  wrap_size_t (wrap_size_t a + b) = wrap_size_t (a + b).
Proof. unfold wrap_size_t. apply Zplus_mod_idemp_l. Qed.

Lemma wrap_size_t_small (a : Z) :
  (0 <= a < size_t_modulus)%Z -> wrap_size_t a = a.
Proof. unfold wrap_size_t. apply Z.mod_small. Qed.

Lemma list_insert_on_stack (m k : nat) (w : world) (l : list_t) (d : ptr) :
  1 <= k -> length (nodes w) = m + k -> head l = m + k ->
  stacked m k (nodes w) ->
  exists w',
    list_insert l d w =
      Ret {| head := m + S k; count := wrap_size_t (count l + 1) |} w' /\
    length (nodes w') = m + S k /\
    stacked m (S k) (nodes w') /\
    (exists c, load (nodes w') (m + S k) = Some c /\ prev c = NULL) /\
    (forall p, p <= m -> load (nodes w') p = load (nodes w) p) /\
    sems w' = sems w /\ chans w' = chans w.
Proof.
  intros Hk Hlen Hhead Hst.
  destruct (Hst k) as (c & Hc & Hcn); [lia|].
  rewrite <- Hhead in Hc.
  rewrite (list_insert_nonempty w l d c Hc).
  replace (S (length (nodes w))) with (m + S k) by lia.
  eexists. split; [reflexivity|]. simpl.
  assert (Hnew : load (store (nodes w ++ [Some (mk_node d (head l) NULL)]) (head l)
                         (mk_node (data c) (next c) (m + S k))) (m + S k)
                 = Some (mk_node d (head l) NULL)).
  { rewrite load_store_ne by lia.
    replace (m + S k) with (S (length (nodes w))) by lia. apply load_alloc. }
  split; [rewrite length_store, length_app; simpl; lia|].
  split; [|split; [eauto|split; [|split; reflexivity]]].
  - intros i Hi. destruct (decide (i = S k)) as [->|Hne].
    + eexists. split; [exact Hnew|]. simpl.
      destruct k as [|k']; [lia|]. simpl. lia.
    + destruct (decide (i = k)) as [->|Hne'].
      * eexists. split.
        -- rewrite <- Hhead. eapply load_store_eq. eapply load_alloc_old. exact Hc.
        -- simpl. exact Hcn.
      * destruct (Hst i) as (ci & Hci & Hni); [lia|].
        exists ci. split; [|exact Hni].
        rewrite load_store_ne by lia. rewrite load_alloc_ne by lia. exact Hci.
  - intros p Hp. rewrite load_store_ne by lia. apply load_alloc_ne. lia.
Qed.

Lemma insert_all_on_stack (m : nat) : forall ds k w l,
  1 <= k -> length (nodes w) = m + k -> head l = m + k ->
  count l = Z.of_nat k ->
  (Z.of_nat (k + length ds) < size_t_modulus)%Z ->
  stacked m k (nodes w) ->
  exists l' w',
    insert_all l ds w = Ret l' w' /\
    head l' = m + (k + length ds) /\
    count l' = Z.of_nat (k + length ds) /\
    length (nodes w') = m + (k + length ds) /\
    stacked m (k + length ds) (nodes w') /\
    (1 <= length ds ->
     exists c, load (nodes w') (m + (k + length ds)) = Some c /\ prev c = NULL) /\
    (forall p, p <= m -> load (nodes w') p = load (nodes w) p) /\
    sems w' = sems w /\ chans w' = chans w.
Proof.
  induction ds as [|d ds IH]; intros k w l Hk Hlen Hhead Hcount Hbound Hst; simpl.
  - exists l, w. split; [reflexivity|]. rewrite !Nat.add_0_r.
    repeat split; auto. lia.
  - simpl in Hbound.
    destruct (list_insert_on_stack m k w l d Hk Hlen Hhead Hst)
      as (w1 & Hins & Hlen1 & Hst1 & Htop1 & Hfr1 & Hs1 & Hc1).
    rewrite (bind_Ret _ _ _ _ _ Hins).
    destruct (IH (S k) w1 {| head := m + S k; count := wrap_size_t (count l + 1) |})
      as (l' & w' & Hrun & Hhead' & Hcount' & Hlen' & Hst' & Htop' & Hfr' & Hs' & Hc');
      try assumption; try reflexivity; try lia.
    + simpl. rewrite Hcount. rewrite wrap_size_t_small; lia.
    + exists l', w'. split; [exact Hrun|].
      replace (k + S (length ds)) with (S k + length ds) by lia.
      split; [exact Hhead'|]. split; [exact Hcount'|]. split; [exact Hlen'|].
      split; [exact Hst'|]. split; [|split; [|split; congruence]].
      * intros _. destruct ds as [|d' ds'].
        -- simpl in *. rewrite Nat.add_0_r.
           assert (Hw : w' = w1) by (injection Hrun as _ <-; reflexivity).
           subst w'. exact Htop1.
        -- apply Htop'. simpl. lia.
      * intros p Hp. rewrite Hfr' by exact Hp. apply Hfr1. exact Hp.
Qed.

Lemma stacked_after_first_insert (w : world) (d : ptr) :
  stacked (length (nodes w)) 1
    (nodes w ++ [Some (mk_node d (S (length (nodes w))) (S (length (nodes w))))]).
Proof.
  intros i Hi. assert (i = 1) by lia. subst i.
  replace (length (nodes w) + 1) with (S (length (nodes w))) by lia.
  eexists. split; [apply load_alloc|]. simpl. lia.
Qed.

Lemma list_destroy_on_stack (m : nat) : forall k fuel l w,
  head l = m + S k -> count l = Z.of_nat (S k) ->
  (Z.of_nat (S k) < size_t_modulus)%Z ->
  stacked m (S k) (nodes w) ->
  (exists c, load (nodes w) (m + S k) = Some c /\
             (prev c = NULL \/ (k = 0 /\ prev c = m + 1))) ->
  S k < fuel ->
  exists w',
    list_destroy fuel l w = Ret tt w' /\
    length (nodes w') = length (nodes w) /\
    (forall i, 1 <= i <= S k -> load (nodes w') (m + i) = None) /\
    (forall p, p <= m \/ m + S k < p -> load (nodes w') p = load (nodes w) p) /\
    sems w' = sems w /\ chans w' = chans w.
Proof.
  induction k as [|k IH]; intros fuel l w Hhead Hcount Hbound Hst Htop Hfuel;
    (destruct fuel as [|fuel]; [lia|]); cbn [list_destroy]; rewrite Hcount;
    match goal with
    | |- context [Z.eqb ?z 0] => destruct (Z.eqb_spec z 0) as [Hz|_]; [lia|]
    end.
  - destruct (Hst 1) as (c & Hc & Hnext); [lia|]. simpl in Hnext.
    destruct Htop as (c' & Hc' & Hprev). rewrite Hc in Hc'. injection Hc' as <-.
    destruct (list_remove_self_next w l (m + 1) c Hc Hnext)
      as (l' & w' & Hrm & Hcnt & Hdead & Hfr & Hs & Hch & Hlen).
    { destruct Hprev as [Hp|[_ Hp]]; auto. }
    rewrite Hhead. rewrite (bind_Ret _ _ _ _ _ Hrm).
    destruct fuel as [|fuel]; [lia|]. simpl.
    rewrite Hcnt, Hcount. simpl. exists w'.
    split; [reflexivity|]. split; [exact Hlen|]. split; [|split; [|auto]].
    + intros i Hi. assert (i = 1) by lia. subst i. exact Hdead.
    + intros p Hp. apply Hfr. lia.
  - destruct (Hst (S (S k))) as (c & Hc & Hnext); [lia|].
    change (Nat.eqb (S (S k)) 1) with false in Hnext.
    destruct Htop as (c' & Hc' & Hprev). rewrite Hc in Hc'. injection Hc' as <-.
    destruct Hprev as [Hprev|[Hk _]]; [|discriminate Hk].
    destruct (Hst (S k)) as (cn & Hcn & Hnn); [lia|].
    replace (m + S (S k) - 1) with (m + S k) in Hnext by lia.
    destruct (list_remove_without_prev_eval w l (m + S (S k)) c Hc Hprev)
      as (w1 & Hrm & Hdead & Hnxt & Hfr & Hs & Hch & Hlen).
    { right. rewrite Hnext. split; [eauto|lia]. }
    rewrite Hhead, (bind_Ret _ _ _ _ _ Hrm).
    rewrite Hnext in Hnxt, Hfr. specialize (Hnxt cn Hcn).
    destruct (IH fuel {| head := next c; count := wrap_size_t (count l - 1) |} w1)
      as (w' & Hrun & Hlen' & Hdead' & Hfr' & Hs' & Hch').
    + simpl. exact Hnext.
    + simpl. rewrite Hcount, wrap_size_t_small; lia.
    + lia.
    + intros i Hi. destruct (decide (i = S k)) as [->|Hne].
      * eexists. split; [exact Hnxt|]. simpl. exact Hnn.
      * destruct (Hst i) as (ci & Hci & Hni); [lia|].
        exists ci. split; [|exact Hni]. rewrite Hfr by lia. exact Hci.
    + eexists. split; [exact Hnxt|]. left. reflexivity.
    + lia.
    + exists w'. split; [exact Hrun|]. split; [congruence|].
      split; [|split; [|split; congruence]].
      * intros i Hi. destruct (decide (i = S (S k))) as [->|Hne].
        -- rewrite Hfr' by lia. exact Hdead.
        -- apply Hdead'. lia.
      * intros p Hp. rewrite Hfr' by lia. apply Hfr; lia.
Qed.

Lemma load_beyond {A} (h : list (option A)) (p : ptr) :
  length h < p -> load h p = None.
Proof.
  intros Hlt. destruct (load h p) as [a|] eqn:E; [|reflexivity].
  apply load_Some_lt in E. lia.
Qed.

(** X10: [list_destroy] undoes any run of [list_insert]s on a fresh list.
    Although the first node inserted points at itself, the loop is driven by
    [count], removes the head each time and returns once [count] is 0: every
    node inserted has been released, the nodes that existed before are as
    they were, and the semaphores and channels are untouched (for fewer than
    [2^64] inserts, so that [count] does not wrap). *)
Theorem list_destroy_releases_inserted_nodes (fuel : nat) (w : world)
  (ds : list ptr) :
  length ds < fuel ->
  (Z.of_nat (length ds) < size_t_modulus)%Z ->
  exists w',
    (let* l := insert_all list_create ds in list_destroy fuel l) w = Ret tt w' /\
    length (nodes w') = length (nodes w) + length ds /\
    (forall p, p <= length (nodes w) -> load (nodes w') p = load (nodes w) p) /\
    (forall p, length (nodes w) < p -> load (nodes w') p = None) /\
    sems w' = sems w /\ chans w' = chans w.
Proof.
  intros Hfuel Hbound. destruct ds as [|d ds].
  - exists w. simpl. destruct fuel as [|fuel]; [simpl in Hfuel; lia|].
    split; [reflexivity|]. split; [lia|]. split; [auto|].
    split; [|auto]. intros p Hp. apply load_beyond. exact Hp.
  - simpl insert_all. simpl in Hfuel, Hbound.
    set (m := length (nodes w)).
    set (w0 := {| nodes := nodes w ++ [Some (mk_node d (S m) (S m))];
                  sems := sems w; chans := chans w |}).
    set (l0 := {| head := S m; count := wrap_size_t (count list_create + 1) |}).
    assert (Hins : list_insert list_create d w = Ret l0 w0)
      by (apply list_insert_empty; reflexivity).
    destruct (insert_all_on_stack m ds 1 w0 l0)
      as (l1 & w1 & Hrun & Hhead & Hcount & Hlen & Hst & Htop & Hfr & Hs & Hch).
    { lia. }
    { simpl. rewrite length_app. simpl. lia. }
    { simpl. lia. }
    { reflexivity. }
    { lia. }
    { apply stacked_after_first_insert. }
    replace (1 + length ds) with (S (length ds)) in * by lia.
    destruct (list_destroy_on_stack m (length ds) fuel l1 w1)
      as (w' & Hdes & Hlen' & Hdead & Hfr' & Hs' & Hch'); try assumption; try lia.
    { destruct ds as [|d' ds'].
      - simpl in Hrun. injection Hrun as <- <-.
        eexists. split.
        + simpl. replace (m + 1) with (S (length (nodes w))) by (subst m; lia).
          apply load_alloc.
        + right. split; [reflexivity|]. simpl. subst m. lia.
      - destruct Htop as (c & Hc & Hp); [simpl; lia|].
        exists c. split; [exact Hc|]. left. exact Hp. }
    exists w'. split.
    { unfold bind. rewrite Hins. simpl. rewrite Hrun. exact Hdes. }
    split; [rewrite Hlen', Hlen; reflexivity|].
    split; [|split; [|split; [rewrite Hs', Hs|rewrite Hch', Hch]; reflexivity]].
    + intros p Hp. rewrite Hfr' by (left; exact Hp). rewrite Hfr by exact Hp.
      simpl. apply load_alloc_ne. lia.
    + intros p Hp. destruct (decide (p <= m + S (length ds))) as [Hle|Hgt].
      * replace p with (m + (p - m)) by lia. apply Hdead. lia.
      * apply load_beyond. rewrite Hlen', Hlen. lia.
Qed.

Lemma list_destroy_releases_inserted_nodes_witness :
  exists w',
    (let* l := insert_all list_create [1; 1; 1] in list_destroy 4 l) one_semaphore
      = Ret tt w' /\
    length (nodes w') = length (nodes one_semaphore) + length [1; 1; 1] /\
    (forall p, p <= length (nodes one_semaphore) ->
       load (nodes w') p = load (nodes one_semaphore) p) /\
    (forall p, length (nodes one_semaphore) < p -> load (nodes w') p = None) /\
    sems w' = sems one_semaphore /\ chans w' = chans one_semaphore.
Proof.
  apply (list_destroy_releases_inserted_nodes 4 one_semaphore [1; 1; 1]).
  - simpl. lia.
  - reflexivity.
Defined.

(** * More of the channel *)

(** X11: once a channel is closed, [channel_send],
    [channel_non_blocking_send] and [channel_close] return [CLOSED_ERROR],
    and so does a blocked send or receive when it is woken; none of them
    enqueues, dequeues or changes anything else. *)
Theorem closed_channel_refuses_send_and_close (fuel : nat) (w : world) (c : ptr)
  (ch : channel_t) (v : Z) :
  load (chans w) c = Some ch -> is_closed ch = true ->
  channel_send fuel c v w = Ret CLOSED_ERROR w /\
  channel_non_blocking_send fuel c v w = Ret CLOSED_ERROR w /\
  channel_send_wakeup fuel c v w = Ret CLOSED_ERROR w /\
  channel_receive_wakeup fuel c w = Ret (CLOSED_ERROR, None) w /\
  channel_close fuel c w = Ret CLOSED_ERROR w.
Proof.
  intros H Hc. repeat split.
  - eapply send_closed; eauto.
  - eapply try_send_closed; eauto.
  - eapply send_wakeup_closed; eauto.
  - eapply receive_wakeup_closed; eauto.
  - eapply close_closed; eauto.
Qed.

Lemma closed_channel_refuses_send_and_close_witness :
  channel_send 0 1 5%Z closed_with_item = Ret CLOSED_ERROR closed_with_item /\
  channel_non_blocking_send 0 1 5%Z closed_with_item
    = Ret CLOSED_ERROR closed_with_item /\
  channel_send_wakeup 0 1 5%Z closed_with_item = Ret CLOSED_ERROR closed_with_item /\
  channel_receive_wakeup 0 1 closed_with_item
    = Ret (CLOSED_ERROR, None) closed_with_item /\
  channel_close 0 1 closed_with_item = Ret CLOSED_ERROR closed_with_item.
Proof.
  apply (closed_channel_refuses_send_and_close 0 closed_with_item 1
           {| buffer := {| capacity := 1; items := [7%Z] |};
              is_closed := true; select := Some list_create |} 5%Z);
    reflexivity.
Defined.

(** X12: no sequence of calls, by any threads and on any channels, ever
    brings a closed channel back: after the calls it is still closed,
    unless [channel_destroy] has released it. *)
Theorem no_calls_reopen_a_closed_channel (ks : list (nat * call)) :
  forall (w w' : world) (c : ptr),
    closed_in w c -> run_calls ks w = Some w' ->
    closed_in w' c \/ load (chans w') c = None.
Proof.
  assert (Hinv : forall ks w w' c,
             never_reopened c w -> run_calls ks w = Some w' -> never_reopened c w').
  { clear. induction ks as [|[fuel k] ks IH]; intros w w' c Hn; simpl.
    - intros [= <-]. exact Hn.
    - destruct (run_call fuel k w) as [w1|] eqn:E; [|discriminate].
      apply IH.
      eapply (run_call_keeps _ _ (never_reopened_tolerant c)); eauto. }
  intros w w' c Hc Hrun.
  pose proof (Hinv ks w w' c (closed_in_never_reopened w c Hc) Hrun) as Hn.
  destruct (load (chans w') c) as [ch|] eqn:E; [left|right; reflexivity].
  exists ch. split; [exact E|]. apply Hn. exact E.
Qed.

Lemma no_calls_reopen_a_closed_channel_witness :
  closed_in closed_with_item 1 /\
  (closed_in {| nodes := []; sems := [None]; chans := chans closed_with_item |} 1 \/
   load (chans {| nodes := []; sems := [None]; chans := chans closed_with_item |}) 1
     = None).
Proof.
  assert (Hc : closed_in closed_with_item 1).
  { eexists. split; reflexivity. }
  split; [exact Hc|].
  apply (no_calls_reopen_a_closed_channel
           [(1, TrySend 1 5%Z); (1, TryReceive 1); (1, Close 1);
            (2, Select [mk_select 1 RECV 0%Z])]
           closed_with_item
           {| nodes := []; sems := [None]; chans := chans closed_with_item |} 1 Hc).
  reflexivity.
Defined.

(** *** [channel_destroy] *)

Lemma destroy_open fuel w c ch :
  load (chans w) c = Some ch -> is_closed ch = false ->
  channel_destroy fuel c w = Ret DESTROY_ERROR w.
Proof.
  intros H Hc. unfold channel_destroy.
  rewrite (bind_Ret _ _ _ _ _ (chan_get_ok _ _ _ H)), Hc. reflexivity.
Qed.

Lemma destroy_closed_no_count fuel w c ch l :
  load (chans w) c = Some ch -> is_closed ch = true ->
  select ch = Some l -> count l = 0%Z ->
  channel_destroy (S fuel) c w =
    Ret SUCCESS {| nodes := nodes w; sems := sems w; chans := release (chans w) c |}.
Proof.
  intros H Hc Hs Hz. unfold channel_destroy.
  rewrite (bind_Ret _ _ _ _ _ (chan_get_ok _ _ _ H)), Hc, Hs. simpl.
  rewrite Hz. reflexivity.
Qed.

(** X13: [channel_destroy] refuses an open channel with [DESTROY_ERROR] and
    changes nothing.  On a closed channel whose selectors list has [count]
    0 it returns [SUCCESS] and releases the channel, leaving the list nodes
    and semaphores alone; after that any call on the released channel goes
    through a released pointer. *)
Theorem channel_destroy_only_when_closed (fuel : nat) (w : world) (c : ptr)
  (ch : channel_t) :
  load (chans w) c = Some ch ->
  (is_closed ch = false -> channel_destroy fuel c w = Ret DESTROY_ERROR w) /\
  (is_closed ch = true ->
   forall l, select ch = Some l -> count l = 0%Z ->
     exists w',
       channel_destroy (S fuel) c w = Ret SUCCESS w' /\
       nodes w' = nodes w /\ sems w' = sems w /\
       load (chans w') c = None /\
       (forall c', c' <> c -> load (chans w') c' = load (chans w) c') /\
       (forall v, channel_send fuel c v w' = Fault) /\
       (forall v, channel_non_blocking_send fuel c v w' = Fault) /\
       channel_receive fuel c w' = Fault /\
       channel_non_blocking_receive fuel c w' = Fault /\
       channel_close fuel c w' = Fault /\
       channel_destroy fuel c w' = Fault).
Proof.
  intros H. split.
  - intros Hc. eapply destroy_open; eauto.
  - intros Hc l Hs Hz.
    rewrite (destroy_closed_no_count fuel w c ch l H Hc Hs Hz).
    eexists. split; [reflexivity|]. simpl.
    assert (Hdead : load (release (chans w) c) c = None) by apply load_release_eq.
    split; [reflexivity|]. split; [reflexivity|]. split; [exact Hdead|].
    split; [intros c' Hne; apply load_release_ne; congruence|].
    repeat split; intros;
      unfold channel_send, channel_non_blocking_send, channel_receive,
        channel_non_blocking_receive, channel_close, channel_destroy, bind, chan_get;
      simpl; rewrite Hdead; reflexivity.
Qed.

Lemma channel_destroy_only_when_closed_witness :
  (is_closed {| buffer := {| capacity := 1; items := [7%Z] |};
                is_closed := true; select := Some list_create |} = false ->
   channel_destroy 1 1 closed_with_item = Ret DESTROY_ERROR closed_with_item) /\
  (is_closed {| buffer := {| capacity := 1; items := [7%Z] |};
                is_closed := true; select := Some list_create |} = true ->
   forall l, select {| buffer := {| capacity := 1; items := [7%Z] |};
                       is_closed := true; select := Some list_create |} = Some l ->
     count l = 0%Z ->
     exists w',
       channel_destroy 2 1 closed_with_item = Ret SUCCESS w' /\
       nodes w' = nodes closed_with_item /\ sems w' = sems closed_with_item /\
       load (chans w') 1 = None /\
       (forall c', c' <> 1 -> load (chans w') c' = load (chans closed_with_item) c') /\
       (forall v, channel_send 1 1 v w' = Fault) /\
       (forall v, channel_non_blocking_send 1 1 v w' = Fault) /\
       channel_receive 1 1 w' = Fault /\
       channel_non_blocking_receive 1 1 w' = Fault /\
       channel_close 1 1 w' = Fault /\
       channel_destroy 1 1 w' = Fault).
Proof.
  apply (channel_destroy_only_when_closed 1 closed_with_item 1
           {| buffer := {| capacity := 1; items := [7%Z] |};
              is_closed := true; select := Some list_create |}).
  reflexivity.
Defined.

(** X14: the life of a channel.  In any world, a channel just created
    cannot be destroyed ([DESTROY_ERROR]); [channel_close] then returns
    [SUCCESS], a second close [CLOSED_ERROR], and [channel_destroy] now
    returns [SUCCESS]; at the end the channel's slot is released and
    everything that existed before is as it was. *)
Theorem channel_create_close_destroy (fuel : nat) (size : nat) (w : world) :
  (let* c := channel_create size in
   let* early := channel_destroy (S fuel) c in
   let* closed := channel_close (S fuel) c in
   let* again := channel_close (S fuel) c in
   let* destroyed := channel_destroy (S fuel) c in
   ret (c, early, closed, again, destroyed)) w
  = Ret (S (length (chans w)), DESTROY_ERROR, SUCCESS, CLOSED_ERROR, SUCCESS)
        {| nodes := nodes w; sems := sems w; chans := chans w ++ [None] |}.
Proof.
  rewrite (bind_Ret _ _ _ _ _ (channel_create_ok size w)).
  set (c := S (length (chans w))).
  assert (H0 : load (chans (after_create w size)) c = Some (fresh_channel size))
    by apply load_after_create.
  rewrite (bind_Ret _ _ _ _ _ (destroy_open _ _ _ _ H0 eq_refl)).
  erewrite bind_Ret.
  2:{ rewrite (close_open _ _ _ _ H0 eq_refl).
      erewrite bind_Ret; [reflexivity|].
      eapply post_selectors_none;
        [eapply load_with_chan; eauto|reflexivity|reflexivity]. }
  set (ch1 := {| buffer := buffer (fresh_channel size); is_closed := true;
                 select := select (fresh_channel size) |}).
  assert (H1 : load (chans (with_chan (after_create w size) c ch1)) c = Some ch1)
    by (eapply load_with_chan; eauto).
  rewrite (bind_Ret _ _ _ _ _ (close_closed _ _ _ _ H1 eq_refl)).
  rewrite (bind_Ret _ _ _ _ _
             (destroy_closed_no_count fuel _ c ch1 list_create H1 eq_refl eq_refl eq_refl)).
  unfold ret. f_equal. simpl. f_equal. subst c.
  rewrite store_alloc. apply release_alloc.
Qed.

(** *** What a call on one channel leaves alone *)

Lemma touches_only_refl c w ch :
  load (chans w) c = Some ch -> touches_only c w w.
Proof.
  intros H. split; [reflexivity|]. split; [apply sems_grow_refl|].
  split; [reflexivity|]. exists ch, ch. auto.
Qed.

Lemma change_post_touches_only {A} fuel c (r : A) w ch ch' w' :
  load (chans w) c = Some ch -> select ch' = select ch ->
  (is_closed ch = true -> is_closed ch' = true) ->
  final_world ((post_selectors fuel c >> ret r) (with_chan w c ch')) = Some w' ->
  touches_only c w w'.
Proof.
  intros H Hs Hc Hf.
  assert (Hp : final_world (post_selectors fuel c (with_chan w c ch')) = Some w').
  { revert Hf. unfold bind, ret.
    destruct (post_selectors fuel c (with_chan w c ch')); auto. }
  apply post_selectors_frame in Hp. destruct Hp as (Hn & Hch & Hg).
  split; [exact Hn|]. split; [exact Hg|]. rewrite Hch. simpl. split.
  - intros c' Hne. apply load_store_ne. congruence.
  - exists ch, ch'. rewrite (load_store_eq _ _ _ _ H). auto.
Qed.

Lemma send_loop_touches_only fuel c v w w' ch :
  load (chans w) c = Some ch ->
  final_world (channel_send_loop fuel c v w) = Some w' -> touches_only c w w'.
Proof.
  intros H.
  destruct (Nat.lt_ge_cases (length (items (buffer ch))) (capacity (buffer ch)))
    as [Hroom|Hfull].
  - rewrite (send_loop_room _ _ _ _ _ H Hroom).
    apply change_post_touches_only with (ch := ch); auto.
  - rewrite (send_loop_full _ _ _ _ _ H Hfull). intros [= <-].
    eapply touches_only_refl; eauto.
Qed.

Lemma receive_loop_touches_only fuel c w w' ch :
  load (chans w) c = Some ch ->
  final_world (channel_receive_loop fuel c w) = Some w' -> touches_only c w w'.
Proof.
  intros H. destruct (items (buffer ch)) as [|v rest] eqn:Hi.
  - rewrite (receive_loop_empty _ _ _ _ H Hi). intros [= <-].
    eapply touches_only_refl; eauto.
  - rewrite (receive_loop_item _ _ _ _ _ _ H Hi).
    apply change_post_touches_only with (ch := ch); auto.
Qed.

(** X15: a send, a receive, their non-blocking forms, a resumed send or
    receive and a close on channel [c], whether the call returns, suspends
    or is still walking the selectors list, change nothing but the buffer
    and the closed flag of [c] and the semaphore counts: no list node is
    written, no semaphore is created, destroyed or decremented, every other
    channel and the selectors list of [c] are untouched. *)
Theorem single_channel_calls_touch_only_their_channel (fuel : nat) (k : call)
  (c : ptr) (w w' : world) :
  acts_on k c -> run_call fuel k w = Some w' -> touches_only c w w'.
Proof.
  intros Ha Hrun.
  assert (Hlive : exists ch, load (chans w) c = Some ch).
  { destruct (load (chans w) c) as [ch|] eqn:E; [eauto|exfalso].
    destruct k; simpl in Ha; try contradiction; subst; simpl in Hrun;
      revert Hrun;
      unfold channel_send, channel_send_wakeup, channel_receive,
        channel_receive_wakeup, channel_non_blocking_send,
        channel_non_blocking_receive, channel_close, bind, chan_get;
      rewrite E; discriminate. }
  destruct Hlive as [ch H].
  destruct (is_closed ch) eqn:Hc.
  - assert (w' = w) as ->; [|eapply touches_only_refl; eauto].
    destruct k; simpl in Ha; try contradiction; subst; simpl in Hrun; revert Hrun.
    + rewrite (send_closed _ _ _ _ _ H Hc). intros [= <-]. reflexivity.
    + rewrite (send_wakeup_closed _ _ _ _ _ H Hc). intros [= <-]. reflexivity.
    + rewrite (receive_closed _ _ _ _ H Hc). intros [= <-]. reflexivity.
    + rewrite (receive_wakeup_closed _ _ _ _ H Hc). intros [= <-]. reflexivity.
    + rewrite (try_send_closed _ _ _ _ _ H Hc). intros [= <-]. reflexivity.
    + rewrite (try_receive_closed _ _ _ _ H Hc). intros [= <-]. reflexivity.
    + rewrite (close_closed _ _ _ _ H Hc). intros [= <-]. reflexivity.
  - destruct k; simpl in Ha; try contradiction; subst; simpl in Hrun; revert Hrun.
    + rewrite (send_open _ _ _ _ _ H Hc). eapply send_loop_touches_only; eauto.
    + rewrite (send_wakeup_open _ _ _ _ _ H Hc).
      eapply send_loop_touches_only; eauto.
    + rewrite (receive_open _ _ _ _ H Hc). eapply receive_loop_touches_only; eauto.
    + rewrite (receive_wakeup_open _ _ _ _ H Hc).
      eapply receive_loop_touches_only; eauto.
    + destruct (Nat.lt_ge_cases (length (items (buffer ch))) (capacity (buffer ch)))
        as [Hroom|Hfull].
      * rewrite (try_send_room _ _ _ _ _ H Hc Hroom).
        apply change_post_touches_only with (ch := ch); auto; congruence.
      * rewrite (try_send_full _ _ _ _ _ H Hc Hfull). intros [= <-].
        eapply touches_only_refl; eauto.
    + destruct (items (buffer ch)) as [|v rest] eqn:Hi.
      * rewrite (try_receive_empty _ _ _ _ H Hc Hi). intros [= <-].
        eapply touches_only_refl; eauto.
      * rewrite (try_receive_item _ _ _ _ _ _ H Hc Hi).
        apply change_post_touches_only with (ch := ch); auto; congruence.
    + rewrite (close_open _ _ _ _ H Hc).
      apply change_post_touches_only with (ch := ch); auto; congruence.
Qed.

Lemma single_channel_calls_touch_only_their_channel_witness :
  acts_on (TrySend 1 5%Z) 1 /\
  touches_only 1 two_selectors
    {| nodes := nodes two_selectors;
       sems := [Some 1; Some 1];
       chans := [Some {| buffer := {| capacity := 1; items := [5%Z] |};
                         is_closed := false;
                         select := Some {| head := 1; count := 2 |} |}] |}.
Proof.
  split; [reflexivity|].
  apply (single_channel_calls_touch_only_their_channel 3 (TrySend 1 5%Z) 1
           two_selectors); reflexivity.
Defined.

(** *** Blocking and non-blocking calls *)

(** X16: the blocking and the non-blocking calls differ in one place only.
    Where [channel_non_blocking_send] answers [CHANNEL_FULL] (and has
    changed nothing), [channel_send] suspends in the same world; in every
    other case the two do the same.  Likewise for
    [channel_non_blocking_receive], [CHANNEL_EMPTY] and [channel_receive]. *)
Theorem blocking_calls_differ_only_when_full_or_empty (fuel : nat) (c : ptr)
  (v : Z) (w : world) :
  match channel_non_blocking_send fuel c v w with
  | Ret CHANNEL_FULL w' => w' = w /\ channel_send fuel c v w = Blocked w
  | o => channel_send fuel c v w = o
  end /\
  match channel_non_blocking_receive fuel c w with
  | Ret (CHANNEL_EMPTY, out) w' =>
      out = None /\ w' = w /\ channel_receive fuel c w = Blocked w
  | o => channel_receive fuel c w = o
  end.
Proof.
  split.
  - destruct (load (chans w) c) as [ch|] eqn:H.
    + destruct (is_closed ch) eqn:Hc.
      * rewrite (try_send_closed _ _ _ _ _ H Hc). apply send_closed with ch; auto.
      * rewrite (send_open _ _ _ _ _ H Hc).
        destruct (Nat.lt_ge_cases (length (items (buffer ch))) (capacity (buffer ch)))
          as [Hroom|Hfull].
        -- rewrite (try_send_room _ _ _ _ _ H Hc Hroom),
             (send_loop_room _ _ _ _ _ H Hroom), Hc.
           unfold bind, ret.
           destruct (post_selectors fuel c _); reflexivity.
        -- rewrite (try_send_full _ _ _ _ _ H Hc Hfull),
             (send_loop_full _ _ _ _ _ H Hfull). auto.
    + unfold channel_non_blocking_send, channel_send, bind, chan_get.
      rewrite H. reflexivity.
  - destruct (load (chans w) c) as [ch|] eqn:H.
    + destruct (is_closed ch) eqn:Hc.
      * rewrite (try_receive_closed _ _ _ _ H Hc). apply receive_closed with ch; auto.
      * rewrite (receive_open _ _ _ _ H Hc).
        destruct (items (buffer ch)) as [|x rest] eqn:Hi.
        -- rewrite (try_receive_empty _ _ _ _ H Hc Hi),
             (receive_loop_empty _ _ _ _ H Hi). auto.
        -- rewrite (try_receive_item _ _ _ _ _ _ H Hc Hi),
             (receive_loop_item _ _ _ _ _ _ H Hi), Hc.
           unfold bind, ret.
           destruct (post_selectors fuel c _); reflexivity.
    + unfold channel_non_blocking_receive, channel_receive, bind, chan_get.
      rewrite H. reflexivity.
Qed.

(** *** [channel_select] on a channel nobody else selects on *)


Lemma try_send_touches_only fuel c v w w' ch :
  load (chans w) c = Some ch -> is_closed ch = false ->
  final_world (channel_non_blocking_send fuel c v w) = Some w' ->
  touches_only c w w'.
Proof.
  intros H Hc.
  destruct (Nat.lt_ge_cases (length (items (buffer ch))) (capacity (buffer ch)))
    as [Hroom|Hfull].
  - rewrite (try_send_room _ _ _ _ _ H Hc Hroom).
    apply change_post_touches_only with (ch := ch); auto; congruence.
  - rewrite (try_send_full _ _ _ _ _ H Hc Hfull). intros [= <-].
    eapply touches_only_refl; eauto.
Qed.

Lemma try_receive_touches_only fuel c w w' ch :
  load (chans w) c = Some ch -> is_closed ch = false ->
  final_world (channel_non_blocking_receive fuel c w) = Some w' ->
  touches_only c w w'.
Proof.
  intros H Hc. destruct (items (buffer ch)) as [|v rest] eqn:Hi.
  - rewrite (try_receive_empty _ _ _ _ H Hc Hi). intros [= <-].
    eapply touches_only_refl; eauto.
  - rewrite (try_receive_item _ _ _ _ _ _ H Hc Hi).
    apply change_post_touches_only with (ch := ch); auto; congruence.
Qed.

Lemma touches_only_registered c w w' tok :
  touches_only c w w' -> registered w c tok -> registered w' c tok.
Proof.
  intros (Hn & _ & _ & ch & ch' & H & H' & Hs & _) [k Hk].
  exists k. revert Hk. unfold token_at. rewrite H, H', Hs, Hn. auto.
Qed.

Lemma touches_only_live c w w' tok :
  touches_only c w w' -> is_Some (load (sems w) tok) ->
  is_Some (load (sems w') tok).
Proof.
  intros (_ & Hg & _) Hl. eapply sems_grow_live; eauto.
Qed.

(** *** The regular exit of [channel_select] *)

Lemma chain_ext h h' : forall ds p,
  (forall q n, load h q = Some n ->
     exists n', load h' q = Some n' /\ data n' = data n /\ next n' = next n) ->
  chain h p ds -> chain h' p ds.
Proof.
  induction ds as [|d ds IH]; intros p Hext; simpl; [auto|].
  intros (n & Hp & Hd & Hc). destruct (Hext p n Hp) as (n' & Hp' & Hd' & Hn').
  exists n'. split; [exact Hp'|]. split; [congruence|].
  rewrite Hn'. apply IH; auto.
Qed.

Lemma occurrences_absent s ds : ~ In s ds -> occurrences s ds = 0.
Proof.
  induction ds as [|d ds IH]; simpl; [reflexivity|]. intros Hn.
  destruct (Nat.eqb_spec d s) as [->|_]; [exfalso; auto|]. apply IH. auto.
Qed.

Lemma select_attempt_ready fuel s w ch out b w3 :
  load (chans w) (channel s) = Some ch -> is_closed ch = false ->
  ready s ch = Some (out, b) ->
  post_selectors fuel (channel s)
    (with_chan w (channel s)
       {| buffer := b; is_closed := false; select := select ch |}) = Ret tt w3 ->
  match dir s with
  | SEND => let* status := channel_non_blocking_send fuel (channel s) (sdata s) in
            ret (status, None)
  | RECV => channel_non_blocking_receive fuel (channel s)
  end w = Ret (SUCCESS, out) w3.
Proof.
  intros H Hc Hr Hp. unfold ready in Hr. destruct (dir s).
  - unfold buffer_add in Hr.
    destruct (Nat.ltb_spec (length (items (buffer ch))) (capacity (buffer ch)))
      as [Hroom|Hfull]; [|discriminate].
    injection Hr as <- <-.
    unfold bind at 1. rewrite (try_send_room _ _ _ _ _ H Hc Hroom).
    unfold bind at 1. rewrite Hp. reflexivity.
  - unfold buffer_remove in Hr.
    destruct (items (buffer ch)) as [|v rest] eqn:Hi; [discriminate|].
    injection Hr as <- <-.
    rewrite (try_receive_item _ _ _ _ _ _ H Hc Hi).
    unfold bind at 1. rewrite Hp. reflexivity.
Qed.

(** X18: the regular exit of [channel_select], on a channel whose
    selectors list is a well-formed non-empty chain (ending in [NULL],
    head without [prev], every token a live semaphore) and whose buffer
    lets the single intent through.  The call returns [SUCCESS] with
    index 0 stored, and registration and deregistration cancel out: the
    list nodes are as before (the call's own node is released), the head
    of the list is the old head, every waiting token has been posted once
    per node that holds it, the call's semaphore is destroyed, and only
    the buffer of the channel has changed.  [count] has gone up and down
    by one modulo [2^64]. *)
Theorem channel_select_registers_and_deregisters (fuel : nat) (w : world)
  (s : select_t) (ch : channel_t) (l : list_t) (n0 : list_node_t)
  (ds : list ptr) (out : option Z) (b : buffer_t) :
  load (chans w) (channel s) = Some ch -> is_closed ch = false ->
  select ch = Some l ->
  load (nodes w) (head l) = Some n0 -> prev n0 = NULL ->
  chain (nodes w) (next n0) ds ->
  (forall d, In d (data n0 :: ds) -> is_Some (load (sems w) d)) ->
  ready s ch = Some (out, b) ->
  length ds + 2 < fuel ->
  exists w',
    channel_select (S fuel) [s] w = Ret (SUCCESS, Some 0, out) w' /\
    (forall p, p <> S (length (nodes w)) -> load (nodes w') p = load (nodes w) p) /\
    load (nodes w') (S (length (nodes w))) = None /\
    load (sems w') (S (length (sems w))) = None /\
    (forall t, t <> S (length (sems w)) ->
       load (sems w') t =
         match load (sems w) t with
         | Some k => Some (k + occurrences t (data n0 :: ds))
         | None => None
         end) /\
    load (chans w') (channel s) =
      Some {| buffer := b; is_closed := false;
              select := Some {| head := head l;
                                count := wrap_size_t
                                           (wrap_size_t (count l + 1) - 1) |} |} /\
    (forall c', c' <> channel s -> load (chans w') c' = load (chans w) c').
Proof.
  intros H Hc Hs Hn0 Hprev Hchain Hlive Hready Hfuel.
  set (c := channel s) in *.
  unfold channel_select.
  rewrite (bind_Ret _ _ _ _ _ (sem_init_ok w)).
  set (tok := S (length (sems w))).
  set (node := S (length (nodes w))).
  set (wa := {| nodes := nodes w; sems := sems w ++ [Some 0]; chans := chans w |}).
  (* registration *)
  set (l1 := {| head := node; count := wrap_size_t (count l + 1) |}).
  set (ns1 := store (nodes w ++ [Some (mk_node tok (head l) NULL)]) (head l)
                (mk_node (data n0) (next n0) node)).
  set (ch1 := {| buffer := buffer ch; is_closed := false; select := Some l1 |}).
  set (wb := {| nodes := ns1; sems := sems w ++ [Some 0];
                chans := store (chans w) c ch1 |}).
  assert (Hreg : select_register tok [s] wa = Ret None wb).
  { simpl. fold c.
    erewrite bind_Ret by (apply chan_get_ok; exact H). rewrite Hc, Hs.
    erewrite bind_Ret.
    2:{ erewrite bind_Ret by (apply (list_insert_nonempty wa l tok n0 Hn0)).
        apply (set_select_ok _ c ch). exact H. }
    rewrite Hc. reflexivity. }
  rewrite (bind_Ret _ _ _ _ _ Hreg).
  assert (Hhead_lt : head l <> node)
    by (apply load_Some_lt in Hn0; unfold node; lia).
  assert (Hb1 : load (chans wb) c = Some ch1)
    by (simpl; apply (load_store_eq _ _ _ _ H)).
  assert (Hnode1 : load ns1 node = Some (mk_node tok (head l) NULL)).
  { unfold ns1. rewrite load_store_ne by exact Hhead_lt. apply load_alloc. }
  assert (Hhead1 : load ns1 (head l) = Some (mk_node (data n0) (next n0) node)).
  { unfold ns1. eapply load_store_eq. eapply load_alloc_old. exact Hn0. }
  assert (Hother1 : forall p, p <> head l -> p <> node -> load ns1 p = load (nodes w) p).
  { intros p P1 P2. unfold ns1. rewrite load_store_ne by congruence.
    apply load_alloc_ne. exact P2. }
  (* the attempt: the operation, then the walk over the selectors *)
  set (ch2 := {| buffer := b; is_closed := false; select := Some l1 |}).
  assert (Hchain1 : chain ns1 node (tok :: data n0 :: ds)).
  { simpl. eexists. split; [exact Hnode1|]. split; [reflexivity|]. simpl.
    eexists. split; [exact Hhead1|]. split; [reflexivity|]. simpl.
    apply (chain_ext (nodes w)); [|exact Hchain].
    intros q n Hq. destruct (Nat.eq_dec q (head l)) as [->|Hne].
    - rewrite Hn0 in Hq. injection Hq as <-. rewrite Hhead1. eauto.
    - rewrite Hother1; [eauto|exact Hne|].
      apply load_Some_lt in Hq. unfold node. lia. }
  assert (Htok_new : forall d, In d (data n0 :: ds) -> d <> tok).
  { intros d Hin ->. destruct (Hlive tok Hin) as [k Hk].
    apply load_Some_lt in Hk. unfold tok in Hk. lia. }
  destruct (list_foreach_from_chain (tok :: data n0 :: ds) fuel node
              (with_chan wb c ch2))
    as (w3 & Hwalk & Hn3 & Hc3 & Hs3).
  { exact Hchain1. }
  { intros d [<-|Hin]; unfold with_chan, wb, tok; simpl.
    - rewrite load_alloc. eauto.
    - destruct (Hlive d Hin) as [k Hk]. rewrite (load_alloc_old _ _ _ _ Hk). eauto. }
  { simpl. simpl in Hfuel. lia. }
  assert (Hpost : post_selectors fuel c (with_chan wb c ch2) = Ret tt w3).
  { rewrite (post_selectors_unfold _ _ _ ch2); [exact Hwalk|].
    eapply load_with_chan. exact Hb1. }
  assert (Hready1 : ready s ch1 = Some (out, b)) by exact Hready.
  destruct fuel as [|f]; [lia|].
  (* deregistration *)
  assert (Hb3 : load (chans w3) c = Some ch2).
  { rewrite Hc3. eapply load_with_chan. exact Hb1. }
  assert (Hnode3 : load (nodes w3) node = Some (mk_node tok (head l) NULL))
    by (rewrite Hn3; exact Hnode1).
  assert (Hhead3 : load (nodes w3) (head l) =
                   Some (mk_node (data n0) (next n0) node))
    by (rewrite Hn3; exact Hhead1).
  assert (Hfind : list_find (S f) l1 tok w3 = Ret node w3).
  { unfold list_find. change (head l1) with node. cbn [list_find_from].
    rewrite (live_not_null _ _ _ Hnode3).
    unfold bind. rewrite (get_data_ok _ _ _ Hnode3). simpl data.
    rewrite Nat.eqb_refl. reflexivity. }
  destruct (list_remove_without_prev_eval w3 l1 node
              (mk_node tok (head l) NULL) Hnode3 eq_refl)
    as (w4 & Hrem & Hgone & Hnext4 & Hother4 & Hs4 & Hc4 & _).
  { right. simpl. split; [rewrite Hhead3; eauto|exact Hhead_lt]. }
  simpl next in Hrem, Hnext4, Hother4.
  set (l4 := {| head := head l; count := wrap_size_t (count l1 - 1) |}) in *.
  set (ch5 := {| buffer := b; is_closed := false; select := Some l4 |}).
  assert (Hdereg : select_deregister (S f) tok [s] w3 = Ret tt (with_chan w4 c ch5)).
  { cbn [select_deregister]. fold c.
    erewrite bind_Ret by (apply chan_get_ok; exact Hb3).
    change (select ch2) with (Some l1). cbv beta iota.
    erewrite bind_Ret.
    2:{ erewrite bind_Ret by exact Hfind.
        erewrite bind_Ret by exact Hrem.
        apply (set_select_ok w4 c ch2). rewrite Hc4. exact Hb3. }
    reflexivity. }
  assert (Htok5 : load (sems (with_chan w4 c ch5)) tok = Some 1).
  { simpl. rewrite Hs4, Hs3. unfold with_chan, wb. simpl sems.
    unfold tok at 1. rewrite load_alloc. fold tok.
    cbn [occurrences]. rewrite Nat.eqb_refl.
    replace (Nat.eqb (data n0) tok) with false
      by (symmetry; apply Nat.eqb_neq; apply Htok_new; left; reflexivity).
    rewrite occurrences_absent; [reflexivity|].
    intros Hin. apply (Htok_new tok); [right; exact Hin|reflexivity]. }
  set (w6 := {| nodes := nodes w4; sems := release (sems w4) tok;
                chans := store (chans w4) c ch5 |}).
  assert (Hrun : select_loop (S (S f)) tok [s] wb = Ret (SUCCESS, Some 0, out) w6).
  { cbn [select_loop select_sweep].
    erewrite bind_Ret.
    2:{ erewrite bind_Ret.
        2:{ apply (select_attempt_ready (S f) s wb ch1 out b w3 Hb1 eq_refl Hready1).
            exact Hpost. }
        cbn [fst snd ends_select].
        erewrite bind_Ret by exact Hdereg.
        erewrite bind_Ret; [reflexivity|].
        unfold sem_destroy. rewrite Htok5. reflexivity. }
    reflexivity. }
  exists w6. split; [exact Hrun|].
  split; [|split; [|split; [|split; [|split]]]].
  - intros p Hp. simpl. destruct (Nat.eq_dec p (head l)) as [->|Hne].
    + rewrite (Hnext4 _ Hhead3). simpl. rewrite Hn0. f_equal.
      destruct n0 as [d0 nx0 pv0]. simpl in Hprev. subst pv0. reflexivity.
    + rewrite Hother4 by assumption. rewrite Hn3. apply Hother1; assumption.
  - exact Hgone.
  - simpl. apply load_release_eq.
  - intros t Ht. simpl. rewrite load_release_ne by congruence.
    rewrite Hs4, Hs3. unfold with_chan, wb. simpl sems.
    rewrite load_alloc_ne by exact Ht.
    destruct (load (sems w) t) as [k|]; [|reflexivity].
    cbn [occurrences].
    replace (Nat.eqb tok t) with false
      by (symmetry; apply Nat.eqb_neq; congruence).
    reflexivity.
  - simpl. eapply load_store_eq. rewrite Hc4. exact Hb3.
  - intros c' Hne. simpl. rewrite load_store_ne by congruence.
    rewrite Hc4, Hc3. unfold with_chan, wb. simpl chans.
    rewrite !load_store_ne by congruence. reflexivity.
Qed.

Lemma channel_select_registers_and_deregisters_witness :
  exists w',
    channel_select 5 [mk_select 1 SEND 5%Z] two_selectors
      = Ret (SUCCESS, Some 0, None) w' /\
    (forall p, p <> 3 -> load (nodes w') p = load (nodes two_selectors) p) /\
    load (nodes w') 3 = None /\
    load (sems w') 3 = None /\
    (forall t, t <> 3 ->
       load (sems w') t =
         match load (sems two_selectors) t with
         | Some k => Some (k + occurrences t [1; 2])
         | None => None
         end) /\
    load (chans w') 1 =
      Some {| buffer := {| capacity := 1; items := [5%Z] |}; is_closed := false;
              select := Some {| head := 1;
                                count := wrap_size_t (wrap_size_t (2 + 1) - 1) |} |} /\
    (forall c', c' <> 1 -> load (chans w') c' = load (chans two_selectors) c').
Proof.
  apply (channel_select_registers_and_deregisters 4 two_selectors
           (mk_select 1 SEND 5%Z)
           {| buffer := {| capacity := 1; items := [] |}; is_closed := false;
              select := Some {| head := 1; count := 2 |} |}
           {| head := 1; count := 2 |}
           {| data := 1; next := 2; prev := NULL |}
           [2] None {| capacity := 1; items := [5%Z] |});
    try reflexivity.
  - exists {| data := 2; next := NULL; prev := 1 |}. repeat split.
  - intros d [<-|[<-|[]]]; simpl; eauto.
  - simpl. lia.
Defined.

(** *** A blocked call and the call that wakes it *)

(** X19: on a full open channel with no selector registered,
    [channel_send] suspends without changing anything; once a
    [channel_receive] has taken the oldest value, the resumed send returns
    [SUCCESS] and its value is the newest in the buffer. *)
Theorem blocked_send_completes_after_receive (fuel : nat) (w : world) (c : ptr)
  (ch : channel_t) (l : list_t) (x v : Z) (rest : list Z) :
  load (chans w) c = Some ch -> is_closed ch = false ->
  select ch = Some l -> head l = NULL ->
  items (buffer ch) = x :: rest -> capacity (buffer ch) = length (x :: rest) ->
  channel_send (S fuel) c v w = Blocked w /\
  (let* r := channel_receive (S fuel) c in
   let* st := channel_send_wakeup (S fuel) c v in
   ret (r, st)) w
  = Ret ((SUCCESS, Some x), SUCCESS)
        (with_chan w c {| buffer := {| capacity := capacity (buffer ch);
                                       items := rest ++ [v] |};
                          is_closed := false; select := Some l |}).
Proof.
  intros H Hc Hs Hh Hi Hcap. split.
  - rewrite (send_open _ _ _ _ _ H Hc). apply (send_loop_full _ _ _ _ _ H).
    rewrite Hcap, Hi. reflexivity.
  - set (ch1 := {| buffer := {| capacity := capacity (buffer ch); items := rest |};
                   is_closed := is_closed ch; select := select ch |}).
    assert (H1 : load (chans (with_chan w c ch1)) c = Some ch1)
      by (eapply load_with_chan; eauto).
    erewrite bind_Ret.
    2:{ rewrite (receive_open _ _ _ _ H Hc), (receive_loop_item _ _ _ _ _ _ H Hi).
        fold ch1.
        erewrite bind_Ret; [reflexivity|].
        apply (post_selectors_none fuel _ c ch1 l H1 Hs Hh). }
    erewrite bind_Ret.
    2:{ rewrite (send_wakeup_open _ _ _ _ _ H1 Hc), (send_loop_room _ _ _ _ _ H1).
        2:{ simpl. rewrite Hcap. simpl. lia. }
        erewrite bind_Ret; [reflexivity|].
        eapply (post_selectors_none fuel _ c _ l);
          [eapply load_with_chan; exact H1|exact Hs|exact Hh]. }
    unfold ret. f_equal. rewrite with_chan_twice. simpl. rewrite Hc, Hs. reflexivity.
Qed.

Lemma blocked_send_completes_after_receive_witness :
  channel_send 1 1 8%Z tie_break_start = Blocked tie_break_start /\
  (let* r := channel_receive 1 1 in
   let* st := channel_send_wakeup 1 1 8%Z in
   ret (r, st)) tie_break_start
  = Ret ((SUCCESS, Some 9%Z), SUCCESS)
        (with_chan tie_break_start 1
           {| buffer := {| capacity := 1; items := [] ++ [8%Z] |};
              is_closed := false; select := Some list_create |}).
Proof.
  apply (blocked_send_completes_after_receive 0 tie_break_start 1
           {| buffer := {| capacity := 1; items := [9%Z] |};
              is_closed := false; select := Some list_create |}
           list_create 9%Z 8%Z []); reflexivity.
Defined.

(** X20: on an empty open channel of positive capacity with no selector
    registered, [channel_receive] suspends without changing anything; once
    a [channel_send] has put a value in, the resumed receive returns
    [SUCCESS] with that value and the world is exactly as it was before
    the two calls. *)
Theorem blocked_receive_completes_after_send (fuel : nat) (w : world) (c : ptr)
  (ch : channel_t) (l : list_t) (v : Z) :
  load (chans w) c = Some ch -> is_closed ch = false ->
  select ch = Some l -> head l = NULL ->
  items (buffer ch) = [] -> 0 < capacity (buffer ch) ->
  channel_receive (S fuel) c w = Blocked w /\
  (let* st := channel_send (S fuel) c v in
   let* r := channel_receive_wakeup (S fuel) c in
   ret (st, r)) w
  = Ret (SUCCESS, (SUCCESS, Some v)) w.
Proof.
  intros H Hc Hs Hh Hi Hcap. split.
  - rewrite (receive_open _ _ _ _ H Hc). apply (receive_loop_empty _ _ _ _ H Hi).
  - set (ch1 := {| buffer := {| capacity := capacity (buffer ch);
                                items := items (buffer ch) ++ [v] |};
                   is_closed := is_closed ch; select := select ch |}).
    assert (H1 : load (chans (with_chan w c ch1)) c = Some ch1)
      by (eapply load_with_chan; eauto).
    erewrite bind_Ret.
    2:{ rewrite (send_open _ _ _ _ _ H Hc), (send_loop_room _ _ _ _ _ H).
        2:{ rewrite Hi. simpl. exact Hcap. }
        fold ch1.
        erewrite bind_Ret; [reflexivity|].
        apply (post_selectors_none fuel _ c ch1 l H1 Hs Hh). }
    erewrite bind_Ret.
    2:{ rewrite (receive_wakeup_open _ _ _ _ H1 Hc),
          (receive_loop_item _ _ _ _ v [] H1).
        2:{ simpl. rewrite Hi. reflexivity. }
        erewrite bind_Ret; [reflexivity|].
        eapply (post_selectors_none fuel _ c _ l);
          [eapply load_with_chan; exact H1|exact Hs|exact Hh]. }
    unfold ret. f_equal. rewrite with_chan_twice. simpl.
    rewrite <- Hi, Hc.
    replace {| buffer := {| capacity := capacity (buffer ch);
                            items := items (buffer ch) |};
               is_closed := false; select := select ch |} with ch
      by (destruct ch as [[cap its] cl sl]; simpl in *; subst; reflexivity).
    apply with_chan_same. exact H.
Qed.

Lemma blocked_receive_completes_after_send_witness :
  channel_receive 1 1 (after_create empty_world 1)
    = Blocked (after_create empty_world 1) /\
  (let* st := channel_send 1 1 8%Z in
   let* r := channel_receive_wakeup 1 1 in
   ret (st, r)) (after_create empty_world 1)
  = Ret (SUCCESS, (SUCCESS, Some 8%Z)) (after_create empty_world 1).
Proof.
  apply (blocked_receive_completes_after_send 0 (after_create empty_world 1) 1
           (fresh_channel 1) list_create 8%Z); try reflexivity.
  simpl. lia.
Defined.

(** *** [channel_select] alone on a channel *)










